(** * Admission control of the gojjo MCP documentation server

    A shallow embedding of [src/security/rate_limiter.py] and
    [src/security/auth.py], and of [check_rate_limits] of
    [src/secure_mcp_server.py], and the properties of the admission
    layer that are stated about them.

    Conventions of the embedding.
    - Python [float] values, and the [int] values that are mixed with
      them in arithmetic (timestamps, token counts, costs), are exact
      rationals [Q]: the rounding of floating point is left out. Other
      [int] values are [Z]; [int(x)] truncates toward zero.
    - Every reading of [time.time()] or [datetime.utcnow()] takes the
      next value of the wall clock carried by the runtime environment
      [Env]; the environment also carries the operating system's random
      bytes and the identity of the running asyncio task.
    - A method that mutates [self] returns the new object next to its
      result; a raised exception is the [Raise] case of [Res].
    - The shared store is a sequential model of the commands the code
      sends: sorted sets with expiry for the rate limiter, records with
      expiry for the keys. *)

From Stdlib Require Import ZArith QArith Qminmax Qround Lqa Lia.
From Stdlib Require Import String Ascii List Bool Sorted.
From stdpp Require Import base gmap strings list fin_maps.
From Stdlib Require DecimalString.
Import ListNotations.

Local Open Scope Q_scope.

(** ** Numbers *)

(** [a < b] and [a > b] on floats, as booleans. *)
Definition Qlt_bool (a b : Q) : bool := negb (Qle_bool b a).

(** Python's [int(x)] for a float [x]: truncation toward zero. *)
Definition py_int (x : Q) : Z :=
  if Qle_bool 0 x then Qfloor x else Qceiling x.

(** ** Exceptions and results *)

Inductive exn :=
| ZeroDivisionError
| TypeError
| CircuitOpenError (remaining : Q)
    (* Exception(f"Circuit breaker OPEN. Try again in {remaining:.1f}s") *)
| Exception (msg : string)
| BaseException (msg : string).
    (* raised by a protected function, outside the Exception hierarchy *)

Inductive Res (A : Type) :=
| Ok (a : A)
| Raise (e : exn).
Arguments Ok {A} a.
Arguments Raise {A} e.

(** ** The runtime environment *)

Record Env := mkEnv {
  readings : nat -> Q;       (* the wall clock: the i-th reading *)
  tick : nat;                (* how many readings were taken *)
  urandom : nat -> N;        (* the i-th random byte of the OS *)
  drawn : nat;               (* how many bytes were drawn *)
  current_task : Z           (* id(asyncio.current_task()) *)
}.

(** [time.time()] *)
Definition time_time (e : Env) : Q * Env :=
  (readings e (tick e),
   mkEnv (readings e) (S (tick e)) (urandom e) (drawn e) (current_task e)).

(** The clock never runs backwards. *)
Definition monotone_clock (e : Env) : Prop :=
  forall i j : nat, (i <= j)%nat -> readings e i <= readings e j.

(** A scripted clock: the readings are those of [l], then its last one. *)
Definition scripted (l : list Q) : nat -> Q :=
  fun i => List.nth i l (List.last l 0).

Definition env_at (l : list Q) : Env :=
  mkEnv (scripted l) 0 (fun _ => 0%N) 0 0.

Fixpoint nondecreasing (l : list Q) : bool :=
  match l with
  | x :: (y :: _) as rest => Qle_bool x y && nondecreasing rest
  | _ => true
  end.

(** ** TokenBucket (rate_limiter.py, lines 51-82) *)

Module TokenBucket.

Record t := mk {
  capacity : Z;
  refill_rate : Q;       (* tokens per second *)
  tokens : Q;
  last_refill : Q
}.

(** [__init__] *)
Definition init (capacity : Z) (refill_rate : Q) (e : Env) : t * Env :=
  let (now, e1) := time_time e in
  (mk capacity refill_rate (inject_Z capacity) now, e1).

(** The state after the refill step of [consume], at time [now]. *)
Definition refill (self : t) (now : Q) : t :=
  let elapsed := now - last_refill self in
  mk (capacity self) (refill_rate self)
     (Qmin (inject_Z (capacity self))
           (tokens self + elapsed * refill_rate self))
     now.

(** [consume(tokens)] *)
Definition consume (self : t) (n : Z) (e : Env) : bool * t * Env :=
  let (now, e1) := time_time e in
  let self1 := refill self now in
  if Qle_bool (inject_Z n) (tokens self1) then
    (true,
     mk (capacity self1) (refill_rate self1)
        (tokens self1 - inject_Z n) (last_refill self1),
     e1)
  else (false, self1, e1).

(** [get_wait_time(tokens)] *)
Definition get_wait_time (self : t) (n : Z) : Res Q :=
  if Qle_bool (inject_Z n) (tokens self) then Ok 0
  else
    let needed_tokens := inject_Z n - tokens self in
    if Qeq_bool (refill_rate self) 0 then Raise ZeroDivisionError
    else Ok (needed_tokens / refill_rate self).

End TokenBucket.

(** ** CircuitBreaker (rate_limiter.py, lines 85-128) *)

Module CircuitBreaker.

Inductive state_t := CLOSED | OPEN | HALF_OPEN.

Record t := mk {
  failure_threshold : Z;
  timeout : Z;
  expected_exception : exn -> bool;   (* isinstance(e, expected_exception) *)
  failure_count : Z;
  last_failure_time : option Q;
  state : state_t
}.

(** The default [expected_exception=Exception]. *)
Definition is_Exception (x : exn) : bool :=
  match x with BaseException _ => false | _ => true end.

(** [__init__] *)
Definition init (failure_threshold timeout : Z)
    (expected_exception : exn -> bool) : t :=
  mk failure_threshold timeout expected_exception 0 None CLOSED.

Definition set_state (self : t) (s : state_t) : t :=
  mk (failure_threshold self) (timeout self) (expected_exception self)
     (failure_count self) (last_failure_time self) s.

(** Lines 105-109: what an OPEN breaker does before the call. It
    either lets the call through (in the returned state) or raises. *)
Definition before_call (self : t) (e : Env) : Res t * Env :=
  match state self with
  | OPEN =>
      let (now, e1) := time_time e in
      match last_failure_time self with
      | None => (Raise TypeError, e1)
      | Some lf =>
          if Qlt_bool (inject_Z (timeout self)) (now - lf)
          then (Ok (set_state self HALF_OPEN), e1)
          else
            let (now', e2) := time_time e1 in
            (Raise (CircuitOpenError (inject_Z (timeout self) - (now' - lf))),
             e2)
      end
  | _ => (Ok self, e)
  end.

(** Lines 114-119: the protected function returned. *)
Definition on_success (self : t) : t :=
  mk (failure_threshold self) (timeout self) (expected_exception self)
     0 (last_failure_time self)
     (match state self with HALF_OPEN => CLOSED | s => s end).

(** Lines 121-128: the protected function raised an expected exception. *)
Definition on_failure (self : t) (e : Env) : t * Env :=
  let count := (failure_count self + 1)%Z in
  let (now, e1) := time_time e in
  (mk (failure_threshold self) (timeout self) (expected_exception self)
      count (Some now)
      (if (failure_threshold self <=? count)%Z then OPEN else state self),
   e1).

(** [call(func)]. The protected function acts on a world [W]; a world
    that comes back unchanged for every [func] was not touched by it. *)
Definition call {W R : Type} (self : t) (func : W -> Res R * W)
    (w : W) (e : Env) : Res R * t * W * Env :=
  match before_call self e with
  | (Raise x, e1) => (Raise x, self, w, e1)
  | (Ok self1, e1) =>
      match func w with
      | (Ok r, w1) => (Ok r, on_success self1, w1, e1)
      | (Raise x, w1) =>
          if expected_exception self1 x then
            let (self2, e2) := on_failure self1 e1 in
            (Raise x, self2, w1, e2)
          else (Raise x, self1, w1, e1)
      end
  end.

End CircuitBreaker.

(** ** Rules and results (rate_limiter.py, lines 20-48) *)

Inductive RateLimitType :=
| REQUESTS_PER_SECOND
| REQUESTS_PER_MINUTE
| REQUESTS_PER_HOUR
| REQUESTS_PER_DAY
| API_CALLS_PER_HOUR
| COST_BASED.

Definition RateLimitType_value (ty : RateLimitType) : string :=
  match ty with
  | REQUESTS_PER_SECOND => "rps"
  | REQUESTS_PER_MINUTE => "rpm"
  | REQUESTS_PER_HOUR => "rph"
  | REQUESTS_PER_DAY => "rpd"
  | API_CALLS_PER_HOUR => "api_cph"
  | COST_BASED => "cost"
  end.

Module RateLimitRule.
Record t := mk {
  limit : Z;
  window_seconds : Z;
  burst_limit : option Z;        (* None by default *)
  cost_per_request : Q;          (* 1.0 by default *)
  reset_on_success : bool        (* False by default *)
}.

(** [RateLimitRule(limit, window_seconds)] with the defaults. *)
Definition plain (limit window_seconds : Z) : t :=
  mk limit window_seconds None 1 false.

(** Truth value of [rule.burst_limit]: not None and not 0. *)
Definition has_burst (r : t) : bool :=
  match burst_limit r with
  | Some b => negb (b =? 0)%Z
  | None => false
  end.
End RateLimitRule.

Module RateLimitResult.
Record t := mk {
  allowed : bool;
  limit : Z;
  remaining : Z;
  reset_time : Z;
  retry_after : option Z;
  cost_used : Q;
  reason : option string
}.
End RateLimitResult.

(** ** The shared store: sorted sets

    A sequential model of the sorted-set commands that
    [_redis_rate_limit] sends. A member is the request id
    [f"{now}:{id(asyncio.current_task())}"], kept as the pair it is
    formatted from. Every command is served at the time [now] of the
    request that sends it. *)

Module Redis.

Definition member : Type := Q * Z.

Definition member_eqb (a b : member) : bool :=
  Qeq_bool (fst a) (fst b) && (snd a =? snd b)%Z.

Record zset := mkz {
  entries : list (member * Q);   (* (member, score), in insertion order *)
  expire_at : option Q           (* the deadline set by EXPIRE *)
}.

Record t := mk { zsets : gmap string zset }.

Definition empty : t := mk ∅.

Definition live (z : zset) (now : Q) : bool :=
  match expire_at z with
  | Some d => negb (Qlt_bool d now)
  | None => true
  end.

(** The sorted set under [key] as the server sees it at [now]: a
    missing or expired key is the empty set. *)
Definition get (r : t) (key : string) (now : Q) : zset :=
  match zsets r !! key with
  | Some z => if live z now then z else mkz [] None
  | None => mkz [] None
  end.

(** Writing a sorted set back; an empty one is removed with its key. *)
Definition put (r : t) (key : string) (z : zset) : t :=
  match entries z with
  | [] => mk (delete key (zsets r))
  | _ :: _ => mk (<[key := z]> (zsets r))
  end.

(** ZREMRANGEBYSCORE key lo hi: both bounds inclusive. *)
Definition zremrangebyscore (r : t) (key : string) (lo hi now : Q) : t :=
  let z := get r key now in
  put r key
    (mkz (List.filter
            (fun en => negb (Qle_bool lo (snd en) && Qle_bool (snd en) hi))
            (entries z))
         (expire_at z)).

(** ZCARD key *)
Definition zcard (r : t) (key : string) (now : Q) : Z :=
  Z.of_nat (length (entries (get r key now))).

(** ZADD key score member: a member already present gets the score. *)
Definition zadd (r : t) (key : string) (m : member) (score now : Q) : t :=
  let z := get r key now in
  put r key
    (mkz (if existsb (fun en => member_eqb m (fst en)) (entries z)
          then List.map
                 (fun en => if member_eqb m (fst en) then (fst en, score)
                            else en)
                 (entries z)
          else entries z ++ [(m, score)])
         (expire_at z)).

(** EXPIRE key seconds: no effect on a missing key; a timeout that is
    not positive deletes the key. *)
Definition expire (r : t) (key : string) (seconds : Z) (now : Q) : t :=
  let z := get r key now in
  match entries z with
  | [] => put r key z
  | _ :: _ =>
      if (seconds <=? 0)%Z then mk (delete key (zsets r))
      else put r key (mkz (entries z) (Some (now + inject_Z seconds)))
  end.

(** ZREM key member *)
Definition zrem (r : t) (key : string) (m : member) (now : Q) : t :=
  let z := get r key now in
  put r key
    (mkz (List.filter (fun en => negb (member_eqb m (fst en))) (entries z))
         (expire_at z)).

Fixpoint lowest (best : member * Q) (l : list (member * Q)) : member * Q :=
  match l with
  | [] => best
  | en :: l' => lowest (if Qlt_bool (snd en) (snd best) then en else best) l'
  end.

(** ZRANGE key 0 0 WITHSCORES: the entry of lowest score, if any.
    Entries of the same score are ordered by member in the store; the
    caller reads the score only. *)
Definition zrange_first (r : t) (key : string) (now : Q)
    : list (member * Q) :=
  match entries (get r key now) with
  | [] => []
  | en :: l => [lowest en l]
  end.

End Redis.

(** ** RateLimiter (rate_limiter.py, lines 131-354) *)

Module RateLimiter.

Record t := mk {
  redis_client : option Redis.t;
  local_buckets : gmap string TokenBucket.t;
  local_windows : gmap string (list Q);
  circuit_breakers : gmap string CircuitBreaker.t
}.

(** [__init__] *)
Definition init (redis_client : option Redis.t) : t :=
  mk redis_client ∅ ∅ ∅.

(** [self.default_rules.get(limit_type)] *)
Definition default_rules (ty : RateLimitType) : option RateLimitRule.t :=
  match ty with
  | REQUESTS_PER_SECOND => Some (RateLimitRule.mk 10 1 (Some 20%Z) 1 false)
  | REQUESTS_PER_MINUTE => Some (RateLimitRule.mk 100 60 (Some 150%Z) 1 false)
  | REQUESTS_PER_HOUR =>
      Some (RateLimitRule.mk 1000 3600 (Some 1200%Z) 1 false)
  | API_CALLS_PER_HOUR => Some (RateLimitRule.mk 100 3600 None 1 false)
  | REQUESTS_PER_DAY | COST_BASED => None
  end.

Definition set_redis (self : t) (r : Redis.t) : t :=
  mk (Some r) (local_buckets self) (local_windows self)
     (circuit_breakers self).

Definition set_bucket (self : t) (k : string) (b : TokenBucket.t) : t :=
  mk (redis_client self) (<[k := b]> (local_buckets self))
     (local_windows self) (circuit_breakers self).

Definition set_window (self : t) (k : string) (w : list Q) : t :=
  mk (redis_client self) (local_buckets self)
     (<[k := w]> (local_windows self)) (circuit_breakers self).

(** Lines 180-196: the pipeline, executed as one unit. It returns the
    store after it and [results[1]], the count before the insertion. *)
Definition pipeline (r : Redis.t) (key : string) (rule : RateLimitRule.t)
    (request_id : Redis.member) (now : Q) : Redis.t * Z :=
  let r1 := Redis.zremrangebyscore r key 0
              (now - inject_Z (RateLimitRule.window_seconds rule)) now in
  let current_count := Redis.zcard r1 key now in
  let r2 := Redis.zadd r1 key request_id now now in
  let r3 := Redis.expire r2 key (RateLimitRule.window_seconds rule) now in
  (r3, current_count).

(** [_redis_rate_limit(key, rule, cost, now)], on the store [r]. *)
Definition _redis_rate_limit (r : Redis.t) (key : string)
    (rule : RateLimitRule.t) (cost now : Q) (e : Env)
    : RateLimitResult.t * Redis.t :=
  let request_id := (now, current_task e) in
  let (r1, current_count) := pipeline r key rule request_id now in
  let cost_adjusted_count :=
    inject_Z current_count * RateLimitRule.cost_per_request rule in
  if Qle_bool (cost_adjusted_count + cost)
              (inject_Z (RateLimitRule.limit rule))
  then
    let remaining :=
      py_int (inject_Z (RateLimitRule.limit rule)
              - cost_adjusted_count - cost) in
    let reset_time :=
      py_int (now + inject_Z (RateLimitRule.window_seconds rule)) in
    (RateLimitResult.mk true (RateLimitRule.limit rule) remaining
       reset_time None cost None,
     r1)
  else
    let r2 := Redis.zrem r1 key request_id now in
    let oldest_score := Redis.zrange_first r2 key now in
    let retry_after :=
      match oldest_score with
      | en :: _ =>
          py_int (snd en + inject_Z (RateLimitRule.window_seconds rule)
                  - now)
      | [] => RateLimitRule.window_seconds rule
      end in
    (RateLimitResult.mk false (RateLimitRule.limit rule) 0
       (py_int (now + inject_Z (RateLimitRule.window_seconds rule)))
       (Some (Z.max 1 retry_after)) 0 (Some "Rate limit exceeded"%string),
     r2).

(** Lines 277-278: [while window and window[0] <= bound: popleft()] *)
Fixpoint popleft_expired (window : list Q) (bound : Q) : list Q :=
  match window with
  | [] => []
  | x :: rest =>
      if Qle_bool x bound then popleft_expired rest bound else window
  end.

(** Lines 244-271: the token bucket branch of [_local_rate_limit]. *)
Definition bucket_rate_limit (self : t) (key : string)
    (rule : RateLimitRule.t) (burst : Z) (cost now : Q) (e : Env)
    : Res RateLimitResult.t * t * Env :=
  let bucket_key := (key +:+ ":bucket")%string in
  let created : Res (TokenBucket.t * Env) :=
    match local_buckets self !! bucket_key with
    | Some b => Ok (b, e)
    | None =>
        if (RateLimitRule.window_seconds rule =? 0)%Z
        then Raise ZeroDivisionError
        else
          let refill_rate :=
            inject_Z (RateLimitRule.limit rule)
            / inject_Z (RateLimitRule.window_seconds rule) in
          Ok (TokenBucket.init burst refill_rate e)
    end in
  match created with
  | Raise x => (Raise x, self, e)
  | Ok (bucket, e1) =>
      let tokens_needed := py_int cost in
      let '(ok, bucket1, e2) := TokenBucket.consume bucket tokens_needed e1 in
      let self1 := set_bucket self bucket_key bucket1 in
      let reset_time :=
        py_int (now + inject_Z (RateLimitRule.window_seconds rule)) in
      if ok then
        (Ok (RateLimitResult.mk true (RateLimitRule.limit rule)
               (py_int (TokenBucket.tokens bucket1)) reset_time None cost
               None),
         self1, e2)
      else
        match TokenBucket.get_wait_time bucket1 tokens_needed with
        | Raise x => (Raise x, self1, e2)
        | Ok wait_time =>
            (Ok (RateLimitResult.mk false (RateLimitRule.limit rule) 0
                   reset_time (Some (py_int wait_time + 1)%Z) 0
                   (Some "Token bucket depleted"%string)),
             self1, e2)
        end
  end.

(** Lines 276-307: the sliding window on the deque of one key; the
    result and the deque after it. *)
Definition sliding_window (window : list Q) (rule : RateLimitRule.t)
    (cost now : Q) : RateLimitResult.t * list Q :=
  let window :=
    popleft_expired window
      (now - inject_Z (RateLimitRule.window_seconds rule)) in
  let current_count := Z.of_nat (length window) in
  let reset_time :=
    py_int (now + inject_Z (RateLimitRule.window_seconds rule)) in
  if Qle_bool (inject_Z current_count + cost)
              (inject_Z (RateLimitRule.limit rule))
  then
    let remaining :=
      py_int (inject_Z (RateLimitRule.limit rule)
              - inject_Z current_count - cost) in
    (RateLimitResult.mk true (RateLimitRule.limit rule) remaining
       reset_time None cost None,
     window ++ [now])
  else
    let oldest_time := match window with x :: _ => x | [] => now end in
    let retry_after :=
      py_int (oldest_time + inject_Z (RateLimitRule.window_seconds rule)
              - now) in
    (RateLimitResult.mk false (RateLimitRule.limit rule) 0 reset_time
       (Some (Z.max 1 retry_after)) 0
       (Some "Sliding window limit exceeded"%string),
     window).

(** Lines 273-307: the sliding window branch of [_local_rate_limit];
    [self.local_windows] is a [defaultdict(deque)]. *)
Definition window_rate_limit (self : t) (key : string)
    (rule : RateLimitRule.t) (cost now : Q) : RateLimitResult.t * t :=
  let (res, window) :=
    sliding_window (default [] (local_windows self !! key)) rule cost now in
  (res, set_window self key window).

(** [_local_rate_limit(key, rule, cost, now)] *)
Definition _local_rate_limit (self : t) (key : string)
    (rule : RateLimitRule.t) (cost now : Q) (e : Env)
    : Res RateLimitResult.t * t * Env :=
  match RateLimitRule.burst_limit rule with
  | Some burst =>
      if (burst =? 0)%Z
      then
        let (res, self1) := window_rate_limit self key rule cost now in
        (Ok res, self1, e)
      else bucket_rate_limit self key rule burst cost now e
  | None =>
      let (res, self1) := window_rate_limit self key rule cost now in
      (Ok res, self1, e)
  end.

(** The result for a limit type that has no rule. *)
Definition unlimited : RateLimitResult.t :=
  RateLimitResult.mk true 999999 999999 0 None 0 None.

(** [is_allowed(identifier, limit_type, rule, cost)] *)
Definition is_allowed (self : t) (identifier : string)
    (limit_type : RateLimitType) (rule : option RateLimitRule.t)
    (cost : Q) (e : Env) : Res RateLimitResult.t * t * Env :=
  let rule :=
    match rule with Some r => Some r | None => default_rules limit_type end in
  match rule with
  | None => (Ok unlimited, self, e)
  | Some rule =>
      let key :=
        (identifier +:+ ":" +:+ RateLimitType_value limit_type)%string in
      let (now, e1) := time_time e in
      match redis_client self with
      | Some r =>
          let (res, r1) := _redis_rate_limit r key rule cost now e1 in
          (Ok res, set_redis self r1, e1)
      | None => _local_rate_limit self key rule cost now e1
      end
  end.

(** [get_circuit_breaker(service)] *)
Definition get_circuit_breaker (self : t) (service : string)
    : CircuitBreaker.t * t :=
  match circuit_breakers self !! service with
  | Some cb => (cb, self)
  | None =>
      let cb :=
        if String.eqb service "github"
        then CircuitBreaker.init 3 300 CircuitBreaker.is_Exception
        else if String.eqb service "pypi" || String.eqb service "npm"
        then CircuitBreaker.init 5 120 CircuitBreaker.is_Exception
        else CircuitBreaker.init 3 60 CircuitBreaker.is_Exception in
      (cb, mk (redis_client self) (local_buckets self) (local_windows self)
              (<[service := cb]> (circuit_breakers self)))
  end.

End RateLimiter.

(** [check_multiple_limits(rate_limiter, identifier, limits)]
    (rate_limiter.py, lines 536-549) *)
Fixpoint check_multiple_limits (rate_limiter : RateLimiter.t)
    (identifier : string)
    (limits : list (RateLimitType * RateLimitRule.t)) (e : Env)
    : Res RateLimitResult.t * RateLimiter.t * Env :=
  match limits with
  | [] => (Ok RateLimiter.unlimited, rate_limiter, e)
  | (limit_type, rule) :: rest =>
      match RateLimiter.is_allowed rate_limiter identifier limit_type
              (Some rule) 1 e with
      | (Raise x, rl1, e1) => (Raise x, rl1, e1)
      | (Ok result, rl1, e1) =>
          if negb (RateLimitResult.allowed result) then (Ok result, rl1, e1)
          else check_multiple_limits rl1 identifier rest e1
      end
  end.

(** ** DDoSProtection (rate_limiter.py, lines 482-520) *)

Module DDoSProtection.

Record t := mk {
  suspicious_ips : gmap string Q;
  blocked_ips : gmap string Q
}.

Definition init : t := mk ∅ ∅.

(** Entries younger than [age] seconds at [now]. *)
Definition younger (now : Q) (age : Z) (m : gmap string Q) : gmap string Q :=
  filter (fun kv => Is_true (Qlt_bool (now - snd kv) (inject_Z age))) m.

(** [is_suspicious(client_ip)] *)
Definition is_suspicious (self : t) (client_ip : string) (e : Env)
    : bool * t * Env :=
  let (now, e1) := time_time e in
  let suspicious := younger now 3600 (suspicious_ips self) in
  let blocked := younger now 86400 (blocked_ips self) in
  match blocked !! client_ip with
  | Some _ => (true, mk suspicious blocked, e1)
  | None =>
      match suspicious !! client_ip with
      | Some flagged =>
          if Qlt_bool (now - flagged) 300
          then (true, mk suspicious (<[client_ip := now]> blocked), e1)
          else (false, mk suspicious blocked, e1)
      | None => (false, mk suspicious blocked, e1)
      end
  end.

(** [mark_suspicious(client_ip)] *)
Definition mark_suspicious (self : t) (client_ip : string) (e : Env)
    : t * Env :=
  let (now, e1) := time_time e in
  (mk (<[client_ip := now]> (suspicious_ips self)) (blocked_ips self), e1).

(** [block_ip(client_ip, duration)]: the body does not read [duration]. *)
Definition block_ip (self : t) (client_ip : string) (duration : Z) (e : Env)
    : t * Env :=
  let (now, e1) := time_time e in
  (mk (suspicious_ips self) (<[client_ip := now]> (blocked_ips self)), e1).

End DDoSProtection.

(** ** Library functions used by auth.py *)

(** [hashlib.sha256(data).hexdigest()] (FIPS 180-4), on byte strings. *)
Module SHA256.
Local Open Scope N_scope.

Definition mask32 : N := 0xffffffff.
Definition add32 (a b : N) : N := N.land (a + b) mask32.
Definition rotr (n x : N) : N :=
  N.lor (N.shiftr x n) (N.land (N.shiftl x (32 - n)) mask32).
Definition xor3 (a b c : N) : N := N.lxor (N.lxor a b) c.

Definition Ch (x y z : N) : N :=
  N.lxor (N.land x y) (N.land (N.lxor x mask32) z).
Definition Maj (x y z : N) : N :=
  xor3 (N.land x y) (N.land x z) (N.land y z).
Definition Sigma0 (x : N) : N := xor3 (rotr 2 x) (rotr 13 x) (rotr 22 x).
Definition Sigma1 (x : N) : N := xor3 (rotr 6 x) (rotr 11 x) (rotr 25 x).
Definition sigma0 (x : N) : N := xor3 (rotr 7 x) (rotr 18 x) (N.shiftr x 3).
Definition sigma1 (x : N) : N :=
  xor3 (rotr 17 x) (rotr 19 x) (N.shiftr x 10).

(** The constants of the standard are fractional parts of roots of the
    first primes: 32 bits of the cube roots of the first 64 primes for
    the rounds, of the square roots of the first 8 for the initial
    hash value. *)
Definition is_prime (n : N) : bool :=
  (1 <? n)
  && forallb (fun d => negb (n mod (N.of_nat d) =? 0))
       (List.seq 2 (N.to_nat n - 2)).

Definition first_primes (count : nat) : list N :=
  List.firstn count
    (List.filter is_prime (List.map N.of_nat (List.seq 2 400))).

(** The integer [k]-th root of [x], below 2^[bits], bit by bit. *)
Fixpoint iroot (k : N) (x : N) (bits : nat) (r : N) : N :=
  match bits with
  | O => r
  | S b =>
      let r1 := r + N.shiftl 1 (N.of_nat b) in
      iroot k x b (if r1 ^ k <=? x then r1 else r)
  end.

Definition root_bits (k : N) (p : N) : N :=
  N.land (iroot k (N.shiftl p (32 * k)) 40 0) mask32.

Definition K : list N :=
  Eval vm_compute in List.map (root_bits 3) (first_primes 64).

Definition H0 : list N :=
  Eval vm_compute in List.map (root_bits 2) (first_primes 8).

(** The [k] low bytes of [x], most significant first. *)
Fixpoint be_bytes (k : nat) (x : N) : list N :=
  match k with
  | O => []
  | S k' => N.land (N.shiftr x (8 * N.of_nat k')) 0xff :: be_bytes k' x
  end.

Definition pad (msg : list N) : list N :=
  let len := length msg in
  let zeros := ((64 - (len + 9) mod 64) mod 64)%nat in
  msg ++ [0x80] ++ List.repeat 0 zeros ++ be_bytes 8 (8 * N.of_nat len).

Fixpoint words (bytes : list N) : list N :=
  match bytes with
  | a :: b :: c :: d :: rest =>
      N.lor (N.lor (N.shiftl a 24) (N.shiftl b 16)) (N.lor (N.shiftl c 8) d)
      :: words rest
  | _ => []
  end.

(** The message schedule, newest word first. *)
Fixpoint extend (k : nat) (ws : list N) : list N :=
  match k with
  | O => ws
  | S k' =>
      let w :=
        add32 (add32 (sigma1 (List.nth 1 ws 0)) (List.nth 6 ws 0))
              (add32 (sigma0 (List.nth 14 ws 0)) (List.nth 15 ws 0)) in
      extend k' (w :: ws)
  end.

Definition schedule (block : list N) : list N :=
  List.rev (extend 48 (List.rev block)).

Record regs := mkregs { ra : N; rb : N; rc : N; rd : N;
                        re : N; rf : N; rg : N; rh : N }.

Definition round (s : regs) (kw : N * N) : regs :=
  let T1 :=
    add32 (add32 (add32 (rh s) (Sigma1 (re s)))
                 (add32 (Ch (re s) (rf s) (rg s)) (fst kw)))
          (snd kw) in
  let T2 := add32 (Sigma0 (ra s)) (Maj (ra s) (rb s) (rc s)) in
  mkregs (add32 T1 T2) (ra s) (rb s) (rc s)
         (add32 (rd s) T1) (re s) (rf s) (rg s).

Definition compress (h : regs) (block : list N) : regs :=
  let s := List.fold_left round (List.combine K (schedule block)) h in
  mkregs (add32 (ra h) (ra s)) (add32 (rb h) (rb s))
         (add32 (rc h) (rc s)) (add32 (rd h) (rd s))
         (add32 (re h) (re s)) (add32 (rf h) (rf s))
         (add32 (rg h) (rg s)) (add32 (rh h) (rh s)).

Fixpoint blocks (fuel : nat) (ws : list N) (h : regs) : regs :=
  match fuel, ws with
  | S fuel', _ :: _ =>
      blocks fuel' (List.skipn 16 ws) (compress h (List.firstn 16 ws))
  | _, _ => h
  end.

Definition digest (msg : list N) : list N :=
  let ws := words (pad msg) in
  let init (i : nat) := List.nth i H0 0 in
  let h := blocks (length ws) ws
             (mkregs (init 0%nat) (init 1%nat) (init 2%nat) (init 3%nat)
                     (init 4%nat) (init 5%nat) (init 6%nat) (init 7%nat)) in
  [ra h; rb h; rc h; rd h; re h; rf h; rg h; rh h].

Definition hex_digit (n : N) : ascii :=
  match String.get (N.to_nat n) "0123456789abcdef" with
  | Some c => c
  | None => "0"%char
  end.

Fixpoint hex (k : nat) (x : N) : string :=
  match k with
  | O => EmptyString
  | S k' =>
      String (hex_digit (N.land (N.shiftr x (4 * N.of_nat k')) 0xf))
             (hex k' x)
  end.

(** The bytes of a string ([str.encode()] of a string kept in UTF-8). *)
Definition encode (s : string) : list N :=
  List.map N_of_ascii (list_ascii_of_string s).

Definition hexdigest (s : string) : string :=
  List.fold_right (fun w acc => (hex 8 w +:+ acc)%string) EmptyString
    (digest (encode s)).

End SHA256.

(** [secrets.token_urlsafe(nbytes)]: [nbytes] random bytes in the URL-safe
    base64 alphabet, without the padding. *)
Module Secrets.
Local Open Scope N_scope.

Definition alphabet : string :=
  "ABCDEFGHIJKLMNOPQRSTUVWXYZabcdefghijklmnopqrstuvwxyz0123456789-_".

Definition b64_char (sextet : N) : ascii :=
  match String.get (N.to_nat sextet) alphabet with
  | Some c => c
  | None => "A"%char
  end.

Fixpoint sextets (bytes : list N) : list N :=
  match bytes with
  | a :: b :: c :: rest =>
      N.shiftr a 2
      :: N.lor (N.shiftl (N.land a 3) 4) (N.shiftr b 4)
      :: N.lor (N.shiftl (N.land b 15) 2) (N.shiftr c 6)
      :: N.land c 63
      :: sextets rest
  | [a; b] =>
      [N.shiftr a 2;
       N.lor (N.shiftl (N.land a 3) 4) (N.shiftr b 4);
       N.shiftl (N.land b 15) 2]
  | [a] => [N.shiftr a 2; N.shiftl (N.land a 3) 4]
  | [] => []
  end.

Definition urlsafe_b64encode (bytes : list N) : string :=
  string_of_list_ascii (List.map b64_char (sextets bytes)).

(** [secrets.token_bytes(nbytes)] *)
Definition token_bytes (nbytes : nat) (e : Env) : list N * Env :=
  (List.map (fun i => urandom e (drawn e + i)%nat mod 256) (List.seq 0 nbytes),
   mkEnv (readings e) (tick e) (urandom e) (drawn e + nbytes)
         (current_task e)).

Definition token_urlsafe (nbytes : nat) (e : Env) : string * Env :=
  let (bytes, e1) := token_bytes nbytes e in
  (urlsafe_b64encode bytes, e1).

End Secrets.

(** [s.split(sep)] for a separator of one character. *)
Fixpoint split_on (sep : ascii) (s : string) : list string :=
  match s with
  | EmptyString => [EmptyString]
  | String c s' =>
      if Ascii.eqb c sep then EmptyString :: split_on sep s'
      else
        match split_on sep s' with
        | h :: t => String c h :: t
        | [] => [String c EmptyString]
        end
  end.

(** ** Roles, key classes and records (auth.py, lines 25-83) *)

Module UserRole.
Inductive t := ANONYMOUS | BASIC | PREMIUM | DEVELOPER | ADMIN.
End UserRole.

Module APIKeyType.
Inductive t := TEMPORARY | STANDARD | PREMIUM | PERMANENT.
End APIKeyType.

Module RateLimitConfig.
Record t := mk {
  requests_per_hour : Z;
  burst_limit : Z;
  cost_multiplier : Q
}.
End RateLimitConfig.

(** [RATE_LIMITS[role]] *)
Definition RATE_LIMITS (role : UserRole.t) : RateLimitConfig.t :=
  match role with
  | UserRole.ANONYMOUS => RateLimitConfig.mk 100 20 (3 # 2)
  | UserRole.BASIC => RateLimitConfig.mk 1000 50 1
  | UserRole.PREMIUM => RateLimitConfig.mk 5000 100 (4 # 5)
  | UserRole.DEVELOPER => RateLimitConfig.mk 10000 200 (3 # 5)
  | UserRole.ADMIN => RateLimitConfig.mk 999999 999 (1 # 10)
  end.

(** Points in time ([datetime]) are seconds on the wall clock. *)
Module APIKey.
Record t := mk {
  key_id : string;
  key_hash : string;
  user_id : string;
  role : UserRole.t;
  key_type : APIKeyType.t;
  created_at : Q;
  expires_at : option Q;
  is_active : bool;
  description : string;
  ip_whitelist : list string;
  usage_count : Z;
  last_used : option Q
}.
End APIKey.

Module AuthResult.
Record t := mk {
  success : bool;
  user_id : option string;
  role : UserRole.t;
  api_key : option APIKey.t;
  error : option string;
  rate_limit : option RateLimitConfig.t
}.

(** [AuthResult(success=False, error=msg)] *)
Definition failure (msg : string) : t :=
  mk false None UserRole.ANONYMOUS None (Some msg) None.
End AuthResult.

(** ** The shared store: key records

    [SETEX] and [GET] on the records stored under ["api_key:{key_id}"];
    the JSON text of a record stands for the record. The server reads
    the wall clock when it serves a command. *)

Module KeyStore.

Record t := mk { records : gmap string (APIKey.t * Q) }.

Definition empty : t := mk ∅.

(** SETEX key seconds value *)
Definition setex (r : t) (key : string) (seconds : Z) (value : APIKey.t)
    (e : Env) : t * Env :=
  let (now, e1) := time_time e in
  (mk (<[key := (value, now + inject_Z seconds)]> (records r)), e1).

(** GET key *)
Definition get (r : t) (key : string) (e : Env) : option APIKey.t * Env :=
  let (now, e1) := time_time e in
  (match records r !! key with
   | Some (value, deadline) =>
       if Qlt_bool deadline now then None else Some value
   | None => None
   end, e1).

End KeyStore.

(** ** AuthManager (auth.py, lines 86-346) *)

Module AuthManager.

Record cache_entry := mkc { data : APIKey.t; expires : Q }.

Record t := mk {
  redis_client : option KeyStore.t;
  jwt_secret : string;
  api_key_prefix : string;
  key_cache : gmap string cache_entry;
  cache_ttl : Z
}.

(** [__init__], with the value of the JWT_SECRET variable. *)
Definition init (redis_client : option KeyStore.t) (jwt_secret : string) : t :=
  mk redis_client jwt_secret "gojjo_mcp" ∅ 300.

Definition set_redis (self : t) (r : KeyStore.t) : t :=
  mk (Some r) (jwt_secret self) (api_key_prefix self) (key_cache self)
     (cache_ttl self).

Definition set_cache (self : t) (c : gmap string cache_entry) : t :=
  mk (redis_client self) (jwt_secret self) (api_key_prefix self) c
     (cache_ttl self).

Definition store_key (key_id : string) : string :=
  ("api_key:" +:+ key_id)%string.

(** Lines 114-122: the expiry of a key class. *)
Definition expiry (key_type : APIKeyType.t) (e : Env) : option Q * Env :=
  match key_type with
  | APIKeyType.TEMPORARY =>
      let (now, e1) := time_time e in (Some (now + 86400), e1)
  | APIKeyType.STANDARD =>
      let (now, e1) := time_time e in (Some (now + 2592000), e1)
  | APIKeyType.PREMIUM =>
      let (now, e1) := time_time e in (Some (now + 31536000), e1)
  | APIKeyType.PERMANENT => (None, e)
  end.

(** [generate_api_key(user_id, role, key_type, description, ip_whitelist)] *)
Definition generate_api_key (self : t) (user_id : string)
    (role : UserRole.t) (key_type : APIKeyType.t) (description : string)
    (ip_whitelist : option (list string)) (e : Env)
    : (string * APIKey.t) * t * Env :=
  let (key_id, e1) := Secrets.token_urlsafe 16 e in
  let (raw_key, e2) := Secrets.token_urlsafe 32 e1 in
  let full_key :=
    (api_key_prefix self +:+ "_" +:+ key_id +:+ "_" +:+ raw_key)%string in
  let key_hash := SHA256.hexdigest full_key in
  let (expires_at, e3) := expiry key_type e2 in
  let (created_at, e4) := time_time e3 in
  let api_key :=
    APIKey.mk key_id key_hash user_id role key_type created_at expires_at
      true description (default [] ip_whitelist) 0 None in
  match redis_client self with
  | Some r =>
      let (r1, e5) := KeyStore.setex r (store_key key_id) (86400 * 365)
                        api_key e4 in
      ((full_key, api_key), set_redis self r1, e5)
  | None => ((full_key, api_key), self, e4)
  end.

(** Lines 170-188: the record of [key_id], from the cache while its
    entry is fresh, from the store otherwise. *)
Definition find_key (self : t) (key_id : string) (e : Env)
    : (string + APIKey.t) * Env :=
  let from_store (e : Env) : (string + APIKey.t) * Env :=
    match redis_client self with
    | Some r =>
        match KeyStore.get r (store_key key_id) e with
        | (Some key, e1) => (inr key, e1)
        | (None, e1) => (inl "API key not found"%string, e1)
        end
    | None => (inl "Authentication service unavailable"%string, e)
    end in
  match key_cache self !! key_id with
  | Some cached_key =>
      let (now, e1) := time_time e in
      if Qlt_bool now (expires cached_key) then (inr (data cached_key), e1)
      else from_store e1
  | None => from_store e
  end.

(** The write that [asyncio.create_task] schedules and nobody awaits. *)
Record task := Setex { task_key : string; task_seconds : Z;
                       task_value : APIKey.t }.

(** Lines 190-246: the checks on the record that was found. *)
Definition verify (self : t) (api_key : string) (key_id : string)
    (client_ip : option string) (api_key_obj : APIKey.t) (e : Env)
    : AuthResult.t * t * list task * Env :=
  let key_hash := SHA256.hexdigest api_key in
  if negb (String.eqb key_hash (APIKey.key_hash api_key_obj)) then
    (AuthResult.failure "Invalid API key", self, [], e)
  else if negb (APIKey.is_active api_key_obj) then
    (AuthResult.failure "API key is disabled", self, [], e)
  else
    let expired : bool * Env :=
      match APIKey.expires_at api_key_obj with
      | Some deadline =>
          let (now, e1) := time_time e in (Qlt_bool deadline now, e1)
      | None => (false, e)
      end in
    let (is_expired, e1) := expired in
    if is_expired then
      (AuthResult.failure "API key has expired", self, [], e1)
    else
      let ip_refused :=
        match APIKey.ip_whitelist api_key_obj, client_ip with
        | _ :: _, Some ip =>
            negb (String.eqb ip "")
            && negb (existsb (String.eqb ip) (APIKey.ip_whitelist api_key_obj))
        | _, _ => false
        end in
      if ip_refused then
        (AuthResult.failure "IP address not authorized", self, [], e1)
      else
        let (used_at, e2) := time_time e1 in
        let api_key_obj1 :=
          APIKey.mk (APIKey.key_id api_key_obj) (APIKey.key_hash api_key_obj)
            (APIKey.user_id api_key_obj) (APIKey.role api_key_obj)
            (APIKey.key_type api_key_obj) (APIKey.created_at api_key_obj)
            (APIKey.expires_at api_key_obj) (APIKey.is_active api_key_obj)
            (APIKey.description api_key_obj)
            (APIKey.ip_whitelist api_key_obj)
            (APIKey.usage_count api_key_obj + 1)%Z (Some used_at) in
        let (cached_at, e3) := time_time e2 in
        let self1 :=
          set_cache self
            (<[key_id := mkc api_key_obj1
                           (cached_at + inject_Z (cache_ttl self))]>
               (key_cache self)) in
        let tasks :=
          match redis_client self with
          | Some _ => [Setex (store_key key_id) (86400 * 365) api_key_obj1]
          | None => []
          end in
        (AuthResult.mk true (Some (APIKey.user_id api_key_obj1))
           (APIKey.role api_key_obj1) (Some api_key_obj1) None
           (Some (RATE_LIMITS (APIKey.role api_key_obj1))),
         self1, tasks, e3).

(** Lines 155-166: the shape of a credential; the key identifier of a
    credential of the right shape. *)
Definition parse (self : t) (api_key : string) : option string :=
  if negb (String.prefix (api_key_prefix self +:+ "_")%string api_key)
  then None
  else
    let parts := split_on "_"%char api_key in
    if negb (length parts =? 4)%nat then None
    else Some (List.nth 2 parts EmptyString).

(** [authenticate_api_key(api_key, client_ip)] *)
Definition authenticate_api_key (self : t) (api_key : string)
    (client_ip : option string) (e : Env)
    : AuthResult.t * t * list task * Env :=
  match parse self api_key with
  | None => (AuthResult.failure "Invalid API key format", self, [], e)
  | Some key_id =>
      match find_key self key_id e with
      | (inl msg, e1) => (AuthResult.failure msg, self, [], e1)
      | (inr api_key_obj, e1) =>
          verify self api_key key_id client_ip api_key_obj e1
      end
  end.


End AuthManager.

(** * Vocabulary of the properties *)

(** ** Sequences of calls on a token bucket *)








(** ** Circuit breakers that are open *)

(** A breaker of threshold 3 and cooldown 60 s that is OPEN since the
    failure recorded at time [since]. *)
Definition opened_at (cb : CircuitBreaker.t) (since : Q) : Prop :=
  CircuitBreaker.state cb = CircuitBreaker.OPEN /\
  CircuitBreaker.failure_threshold cb = 3%Z /\
  CircuitBreaker.timeout cb = 60%Z /\
  (3 <= CircuitBreaker.failure_count cb)%Z /\
  CircuitBreaker.last_failure_time cb = Some since.

(** After [k] more readings of the clock. *)
Definition later (k : nat) (e : Env) : Env :=
  mkEnv (readings e) (tick e + k) (urandom e) (drawn e) (current_task e).

(** ** Sequences of admission checks *)

(** [n] successive [is_allowed] calls with the same arguments: their
    results, and the limiter and the environment after them. *)
Fixpoint checks (n : nat) (rl : RateLimiter.t) (identifier : string)
    (limit_type : RateLimitType) (rule : option RateLimitRule.t) (cost : Q)
    (e : Env) : list (Res RateLimitResult.t) * RateLimiter.t * Env :=
  match n with
  | O => ([], rl, e)
  | S n' =>
      let '(r, rl1, e1) :=
        RateLimiter.is_allowed rl identifier limit_type rule cost e in
      let '(rs, rl2, e2) := checks n' rl1 identifier limit_type rule cost e1 in
      (r :: rs, rl2, e2)
  end.

Definition admitted (limit remaining reset_time : Z) (cost : Q)
    : Res RateLimitResult.t :=
  Ok (RateLimitResult.mk true limit remaining reset_time None cost None).

Definition denied (limit reset_time retry_after : Z) (reason : string)
    : Res RateLimitResult.t :=
  Ok (RateLimitResult.mk false limit 0 reset_time (Some retry_after) 0
        (Some reason)).

(** The results of the sliding window of one key on successive checks at
    the given times. *)
Fixpoint window_trace (window : list Q) (rule : RateLimitRule.t) (cost : Q)
    (times : list Q) : list RateLimitResult.t :=
  match times with
  | [] => []
  | now :: rest =>
      let (res, window1) := RateLimiter.sliding_window window rule cost now in
      res :: window_trace window1 rule cost rest
  end.

(** The next [n] readings of the clock. *)
Definition next_readings (n : nat) (e : Env) : list Q :=
  List.map (fun i => readings e (tick e + i)%nat) (List.seq 0 n).

(** The key of an identifier and a limit type (line 161). *)
Definition key_of (identifier : string) (ty : RateLimitType) : string :=
  (identifier +:+ ":" +:+ RateLimitType_value ty)%string.

(** ** Sequences of requests, on either variant *)

(** A request: the asyncio task that serves it and its cost. *)
Record request := mkreq { req_task : Z; req_cost : Q }.

(** The environment while the task [task] runs. *)
Definition as_task (task : Z) (e : Env) : Env :=
  mkEnv (readings e) (tick e) (urandom e) (drawn e) task.

(** The requests served one after the other by [is_allowed]: the
    results, and the limiter and the environment after them. *)
Fixpoint serve (reqs : list request) (rl : RateLimiter.t)
    (identifier : string) (limit_type : RateLimitType)
    (rule : option RateLimitRule.t) (e : Env)
    : list (Res RateLimitResult.t) * RateLimiter.t * Env :=
  match reqs with
  | [] => ([], rl, e)
  | q :: rest =>
      let '(r, rl1, e1) :=
        RateLimiter.is_allowed rl identifier limit_type rule (req_cost q)
          (as_task (req_task q) e) in
      let '(rs, rl2, e2) := serve rest rl1 identifier limit_type rule e1 in
      (r :: rs, rl2, e2)
  end.

(** What the caller compares: the allowed flag, the remaining count and
    [retry_after]. *)
Definition verdict (r : Res RateLimitResult.t)
    : option (bool * Z * option Z) :=
  match r with
  | Ok res =>
      Some (RateLimitResult.allowed res, RateLimitResult.remaining res,
            RateLimitResult.retry_after res)
  | Raise _ => None
  end.

(** The request ids that the store-backed variant gives to the requests:
    the time of the check and the task. *)
Definition request_ids (reqs : list request) (e : Env) : list Redis.member :=
  List.combine (next_readings (length reqs) e) (List.map req_task reqs).

Fixpoint distinct_members (ids : list Redis.member) : bool :=
  match ids with
  | [] => true
  | m :: rest =>
      negb (existsb (Redis.member_eqb m) rest) && distinct_members rest
  end.

(** The sorted set of one key: what [Redis.get] reads from its slot and
    what [Redis.put] leaves in it. *)
Definition slot_get (s : option Redis.zset) (now : Q) : Redis.zset :=
  match s with
  | Some z => if Redis.live z now then z else Redis.mkz [] None
  | None => Redis.mkz [] None
  end.

Definition slot_put (z : Redis.zset) : option Redis.zset :=
  match Redis.entries z with
  | [] => None
  | _ :: _ => Some z
  end.

(** The local window [w] of a key and the store [r] hold the same
    admissions after a check at time [last]: the window is in time order,
    and the sorted set of the key, while the store keeps it, carries the
    times of the window as scores, under request ids that were used. *)
Definition agree (rule : RateLimitRule.t) (key : string) (w : list Q)
    (r : Redis.t) (last : Q) (used : list Redis.member) : Prop :=
  StronglySorted Qle w /\
  Forall (fun x => 0 <= x <= last) w /\
  match Redis.zsets r !! key with
  | None => (RateLimitRule.window_seconds rule <= 0)%Z \/ w = []
  | Some z =>
      (0 < RateLimitRule.window_seconds rule)%Z /\
      List.map snd (Redis.entries z) = w /\
      Redis.expire_at z =
        Some (last + inject_Z (RateLimitRule.window_seconds rule)) /\
      Forall (fun en => In (fst en) used) (Redis.entries z)
  end.

(** The filter of ZREMRANGEBYSCORE key 0 bound. *)
Definition outside_range (bound : Q) (en : Redis.member * Q) : bool :=
  negb (Qle_bool 0 (snd en) && Qle_bool (snd en) bound).

(** ** Sequences of calls on the DDoS protection *)

Inductive ddos_call :=
| IsSuspicious (ip : string)
| MarkSuspicious (ip : string).

Definition ddos_step (d : DDoSProtection.t) (c : ddos_call) (e : Env)
    : DDoSProtection.t * Env :=
  match c with
  | IsSuspicious ip =>
      let '(_, d1, e1) := DDoSProtection.is_suspicious d ip e in (d1, e1)
  | MarkSuspicious ip => DDoSProtection.mark_suspicious d ip e
  end.

Fixpoint ddos_run (d : DDoSProtection.t) (calls : list ddos_call) (e : Env)
    : DDoSProtection.t * Env :=
  match calls with
  | [] => (d, e)
  | c :: rest => let (d1, e1) := ddos_step d c e in ddos_run d1 rest e1
  end.

(** ** Environments for the key examples *)

(** The wall clock stands at [now]; the operating system hands out the
    random bytes [bytes], then zeros. *)
Definition env_with (now : Q) (bytes : list N) : Env :=
  mkEnv (scripted [now]) 0 (fun i => List.nth i bytes 0%N) 0 0.

(** The shapes of a credential (auth.py, lines 155 and 162). *)
Definition has_prefix (self : AuthManager.t) (api_key : string) : bool :=
  String.prefix (AuthManager.api_key_prefix self +:+ "_")%string api_key.

Definition segments (api_key : string) : list string :=
  split_on "_"%char api_key.

(** * Further parts of the code, and the vocabulary of their properties *)

(** ** Runs of a circuit breaker *)

(** A protected function that returns or raises [out] whatever the
    world, and leaves the world as it is. *)
Definition answering {R : Type} (out : Res R) : unit -> Res R * unit :=
  fun w => (out, w).

(** The calls of a list of protected functions, one after the other:
    what each call returned or raised, and the breaker and the
    environment after them. *)
Fixpoint breaker_run {R : Type} (cb : CircuitBreaker.t)
    (outs : list (Res R)) (e : Env)
    : list (Res R) * CircuitBreaker.t * Env :=
  match outs with
  | [] => ([], cb, e)
  | out :: rest =>
      let '(r, cb1, _, e1) := CircuitBreaker.call cb (answering out) tt e in
      let '(rs, cb2, e2) := breaker_run cb1 rest e1 in
      (r :: rs, cb2, e2)
  end.

(** The length of the run of expected failures that ends a list of
    outcomes, counted from [count]: a success starts again at 0, an
    exception the breaker does not expect leaves the count. *)
Fixpoint failure_run {R : Type} (expected : exn -> bool) (count : Z)
    (outs : list (Res R)) : Z :=
  match outs with
  | [] => count
  | Ok _ :: rest => failure_run expected 0 rest
  | Raise x :: rest =>
      failure_run expected (if expected x then count + 1 else count)%Z rest
  end.

(** No run of expected failures reaches [threshold]. *)
Fixpoint runs_below {R : Type} (expected : exn -> bool) (threshold count : Z)
    (outs : list (Res R)) : Prop :=
  match outs with
  | [] => True
  | Ok _ :: rest => runs_below expected threshold 0 rest
  | Raise x :: rest =>
      let count1 := (if expected x then count + 1 else count)%Z in
      (count1 < threshold)%Z /\ runs_below expected threshold count1 rest
  end.

(** The breakers that [__init__] and [call] produce. *)
Inductive reachable_breaker {W R : Type} : CircuitBreaker.t -> Prop :=
| reachable_init (failure_threshold timeout : Z) (expected : exn -> bool) :
    reachable_breaker (CircuitBreaker.init failure_threshold timeout expected)
| reachable_call (cb : CircuitBreaker.t) (func : W -> Res R * W) (w : W)
    (e : Env) :
    reachable_breaker cb ->
    reachable_breaker (snd (fst (fst (CircuitBreaker.call cb func w e)))).

(** An OPEN breaker has a last failure and at least [failure_threshold]
    failures. *)
Definition open_is_justified (cb : CircuitBreaker.t) : Prop :=
  CircuitBreaker.state cb = CircuitBreaker.OPEN ->
  (exists since : Q, CircuitBreaker.last_failure_time cb = Some since) /\
  (CircuitBreaker.failure_threshold cb <= CircuitBreaker.failure_count cb)%Z.

(** ** Admissions of the local sliding window *)

Definition is_admitted (r : Res RateLimitResult.t) : bool :=
  match r with
  | Ok res => RateLimitResult.allowed res
  | Raise _ => false
  end.

(** The times of the requests that were admitted. *)
Fixpoint admitted_times (times : list Q)
    (results : list (Res RateLimitResult.t)) : list Q :=
  match times, results with
  | t :: times', r :: results' =>
      if is_admitted r then t :: admitted_times times' results'
      else admitted_times times' results'
  | _, _ => []
  end.

(** The times of [l] that lie in the window of [seconds] seconds that
    ends at [now]: those after [now - seconds]. *)
Definition recent (seconds : Z) (now : Q) (l : list Q) : list Q :=
  List.filter (fun x => Qlt_bool (now - inject_Z seconds) x) l.

(** A denial whose [retry_after] is between 1 and the window length. *)
Definition retry_after_in_window (seconds : Z) (r : Res RateLimitResult.t)
    : Prop :=
  match r with
  | Ok res =>
      RateLimitResult.allowed res = false ->
      exists retry : Z,
        RateLimitResult.retry_after res = Some retry /\
        (1 <= retry <= Z.max 1 seconds)%Z
  | Raise _ => False
  end.

(** A deque in time order with no entry after [now]. *)
Definition window_in_order (window : list Q) (now : Q) : Prop :=
  StronglySorted Qle window /\ Forall (fun x => x <= now) window.

(** The deque [window] holds the admissions [history] of the window of
    [seconds] seconds that ends at [now], at most [limit] of them. *)
Definition window_of_history (seconds limit : Z) (window history : list Q)
    (now : Q) : Prop :=
  window = recent seconds now history /\
  StronglySorted Qle history /\
  Forall (fun x => x <= now) history /\
  (Z.of_nat (length window) <= Z.max 0 limit)%Z.

(** ** Identifiers (rate_limiter.py, lines 524-533) *)

(** Truth value of an optional string argument: given and not empty. *)
Definition truthy (s : option string) : option string :=
  match s with
  | Some v => if String.eqb v "" then None else Some v
  | None => None
  end.

(** [rate_limit_key(user_id, client_ip, endpoint)] *)
Definition rate_limit_key (user_id client_ip endpoint : option string)
    : string :=
  match truthy user_id with
  | Some u => ("user:" +:+ u)%string
  | None =>
      match truthy client_ip with
      | Some ip => ("ip:" +:+ ip)%string
      | None =>
          match truthy endpoint with
          | Some ep => ("endpoint:" +:+ ep)%string
          | None => "global"%string
          end
      end
  end.

(** Whom a key is for: what [rate_limit_key] was given, first truthy
    argument first. *)
Inductive subject :=
| ForUser (user_id : string)
| ForAddress (client_ip : string)
| ForEndpoint (endpoint : string)
| ForAll.

Definition subject_of (user_id client_ip endpoint : option string) : subject :=
  match truthy user_id with
  | Some u => ForUser u
  | None =>
      match truthy client_ip with
      | Some ip => ForAddress ip
      | None =>
          match truthy endpoint with
          | Some ep => ForEndpoint ep
          | None => ForAll
          end
      end
  end.

(** ** What a limiter holds for one key *)

(** Two limiters hold the same for [key]: both use a store or neither
    does, and the sorted set, the deque and the bucket of the key are
    the same. *)
Definition same_for_key (key : string) (a b : RateLimiter.t) : Prop :=
  match RateLimiter.redis_client a, RateLimiter.redis_client b with
  | Some r, Some r' => Redis.zsets r !! key = Redis.zsets r' !! key
  | None, None => True
  | _, _ => False
  end /\
  RateLimiter.local_windows a !! key = RateLimiter.local_windows b !! key /\
  RateLimiter.local_buckets a !! (key +:+ ":bucket")%string =
    RateLimiter.local_buckets b !! (key +:+ ":bucket")%string.

(** ** Tokens granted by a bucket *)


(** The tokens a request asks of the bucket (line 251). *)
Definition tokens_needed (q : request) : Z := py_int (req_cost q).

(** The key of the bucket of an identifier and a limit type (line 245). *)
Definition bucket_key_of (identifier : string) (ty : RateLimitType) : string :=
  (key_of identifier ty +:+ ":bucket")%string.


(** ** Outcomes of an authentication *)

(** The result of an [authenticate_api_key] call, and the manager
    after it. *)
Definition result_of
    (out : AuthResult.t * AuthManager.t * list AuthManager.task * Env)
    : AuthResult.t := fst (fst (fst out)).

Definition manager_after
    (out : AuthResult.t * AuthManager.t * list AuthManager.task * Env)
    : AuthManager.t := snd (fst (fst out)).

(** The manager [self] reading another state of the shared store. *)
Definition with_store (self : AuthManager.t) (store : KeyStore.t)
    : AuthManager.t := AuthManager.set_redis self store.

(** Lines 213-214: the allow-list refuses a client address that is
    given, not empty and not in a list that is not empty. *)
Definition ip_refused (record : APIKey.t) (client_ip : option string) : bool :=
  match APIKey.ip_whitelist record, client_ip with
  | _ :: _, Some ip =>
      negb (String.eqb ip "")
      && negb (existsb (String.eqb ip) (APIKey.ip_whitelist record))
  | _, _ => false
  end.

(** Line 206: the expiry date of the record has passed at [now]. *)
Definition expired_at (record : APIKey.t) (now : Q) : bool :=
  match APIKey.expires_at record with
  | Some deadline => Qlt_bool deadline now
  | None => false
  end.

(** The record after a successful use at [used_at] (lines 221-222). *)
Definition used (record : APIKey.t) (used_at : Q) : APIKey.t :=
  APIKey.mk (APIKey.key_id record) (APIKey.key_hash record)
    (APIKey.user_id record) (APIKey.role record) (APIKey.key_type record)
    (APIKey.created_at record) (APIKey.expires_at record)
    (APIKey.is_active record) (APIKey.description record)
    (APIKey.ip_whitelist record) (APIKey.usage_count record + 1)%Z
    (Some used_at).

(** ** Roles (auth.py, lines 431-451) *)

Definition UserRole_eqb (a b : UserRole.t) : bool :=
  match a, b with
  | UserRole.ANONYMOUS, UserRole.ANONYMOUS
  | UserRole.BASIC, UserRole.BASIC
  | UserRole.PREMIUM, UserRole.PREMIUM
  | UserRole.DEVELOPER, UserRole.DEVELOPER
  | UserRole.ADMIN, UserRole.ADMIN => true
  | _, _ => false
  end.

(** [role_hierarchy] of [has_role]; every role is a key of it. *)
Definition role_hierarchy (role : UserRole.t) : Z :=
  match role with
  | UserRole.ANONYMOUS => 0
  | UserRole.BASIC => 1
  | UserRole.PREMIUM => 2
  | UserRole.DEVELOPER => 3
  | UserRole.ADMIN => 4
  end.

(** [is_admin(auth_result)] *)
Definition is_admin (auth_result : AuthResult.t) : bool :=
  AuthResult.success auth_result
  && UserRole_eqb (AuthResult.role auth_result) UserRole.ADMIN.

(** [has_role(auth_result, required_role)] *)
Definition has_role (auth_result : AuthResult.t) (required_role : UserRole.t)
    : bool :=
  if negb (AuthResult.success auth_result) then false
  else
    let user_level := role_hierarchy (AuthResult.role auth_result) in
    let required_level := role_hierarchy required_role in
    (required_level <=? user_level)%Z.

(** The result for a request without credentials (lines 268-272). *)
Definition anonymous_access : AuthResult.t :=
  AuthResult.mk true None UserRole.ANONYMOUS None None
    (Some (RATE_LIMITS UserRole.ANONYMOUS)).

(** ** The secured server (secure_mcp_server.py, lines 196-252) *)

Module SecureServer.

(** The parts of the server that [check_rate_limits] uses, and the
    [CLIENT_IP] variable of the process environment. *)
Record t := mk {
  rate_limiter : RateLimiter.t;
  ddos_protection : DDoSProtection.t;
  CLIENT_IP : option string
}.

(** [os.getenv('CLIENT_IP', '127.0.0.1')] *)
Definition getenv_CLIENT_IP (self : t) : string :=
  default "127.0.0.1"%string (CLIENT_IP self).

(** [RateLimitRule(limit, window_seconds, burst_limit=burst)] *)
Definition burst_rule (limit window_seconds burst : Z) : RateLimitRule.t :=
  RateLimitRule.mk limit window_seconds (Some burst) 1 false.

(** Lines 217-243: the limits of a role; none for ADMIN, for whom the
    function returns True there. *)
Definition role_limits (role : UserRole.t)
    : option (list (RateLimitType * RateLimitRule.t)) :=
  match role with
  | UserRole.ANONYMOUS =>
      Some [(REQUESTS_PER_MINUTE, burst_rule 10 60 15);
            (REQUESTS_PER_HOUR, burst_rule 100 3600 120)]
  | UserRole.BASIC =>
      Some [(REQUESTS_PER_MINUTE, burst_rule 50 60 75);
            (REQUESTS_PER_HOUR, burst_rule 1000 3600 1200)]
  | UserRole.PREMIUM =>
      Some [(REQUESTS_PER_MINUTE, burst_rule 100 60 150);
            (REQUESTS_PER_HOUR, burst_rule 5000 3600 6000)]
  | UserRole.DEVELOPER =>
      Some [(REQUESTS_PER_MINUTE, burst_rule 200 60 300);
            (REQUESTS_PER_HOUR, burst_rule 10000 3600 12000)]
  | UserRole.ADMIN => None
  end.

(** [check_rate_limits(auth_result, endpoint, cost)]; the body reads
    neither [endpoint] (beyond passing it to [is_suspicious], which
    ignores it) nor [cost]. *)
Definition check_rate_limits (self : t) (auth_result : AuthResult.t)
    (endpoint : string) (cost : Q) (e : Env) : Res bool * t * Env :=
  let identifier :=
    match truthy (AuthResult.user_id auth_result) with
    | Some _ => rate_limit_key (AuthResult.user_id auth_result) None None
    | None => rate_limit_key None (Some (getenv_CLIENT_IP self)) None
    end in
  let client_ip := getenv_CLIENT_IP self in
  let '(suspicious, ddos1, e1) :=
    DDoSProtection.is_suspicious (ddos_protection self) client_ip e in
  if suspicious then
    (Ok false, mk (rate_limiter self) ddos1 (CLIENT_IP self), e1)
  else
    match role_limits (AuthResult.role auth_result) with
    | None => (Ok true, mk (rate_limiter self) ddos1 (CLIENT_IP self), e1)
    | Some rate_limits =>
        match check_multiple_limits (rate_limiter self) identifier
                rate_limits e1 with
        | (Raise x, rl1, e2) => (Raise x, mk rl1 ddos1 (CLIENT_IP self), e2)
        | (Ok result, rl1, e2) =>
            if negb (RateLimitResult.allowed result) then
              let (ddos2, e3) :=
                DDoSProtection.mark_suspicious ddos1 client_ip e2 in
              (Ok false, mk rl1 ddos2 (CLIENT_IP self), e3)
            else (Ok true, mk rl1 ddos1 (CLIENT_IP self), e2)
        end
    end.

End SecureServer.

(** ** The sorted sets of the cost limiter

    The members are [f"{now}:{cost}"], kept as the pair they are
    formatted from. Their byte order, by which the store orders the
    entries of one score, is not determined by the numbers: it is the
    parameter [before] of ZRANGE. As for [Redis], every command is
    served at the time [now] of the request that sends it, and the
    store answers in bytes ([decode()] is applied to a member). *)

Module CostStore.

Definition member : Type := Q * Q.

Definition member_eqb (a b : member) : bool :=
  Qeq_bool (fst a) (fst b) && Qeq_bool (snd a) (snd b).

Record zset := mkz {
  entries : list (member * Q);   (* (member, score) *)
  expire_at : option Q
}.

Record t := mk { zsets : gmap string zset }.

Definition empty : t := mk ∅.

Definition live (z : zset) (now : Q) : bool :=
  match expire_at z with
  | Some d => negb (Qlt_bool d now)
  | None => true
  end.

Definition get (r : t) (key : string) (now : Q) : zset :=
  match zsets r !! key with
  | Some z => if live z now then z else mkz [] None
  | None => mkz [] None
  end.

Definition put (r : t) (key : string) (z : zset) : t :=
  match entries z with
  | [] => mk (delete key (zsets r))
  | _ :: _ => mk (<[key := z]> (zsets r))
  end.

(** ZREMRANGEBYSCORE key lo hi: both bounds inclusive. *)
Definition zremrangebyscore (r : t) (key : string) (lo hi now : Q) : t :=
  let z := get r key now in
  put r key
    (mkz (List.filter
            (fun en => negb (Qle_bool lo (snd en) && Qle_bool (snd en) hi))
            (entries z))
         (expire_at z)).

(** ZADD key score member *)
Definition zadd (r : t) (key : string) (m : member) (score now : Q) : t :=
  let z := get r key now in
  put r key
    (mkz (if existsb (fun en => member_eqb m (fst en)) (entries z)
          then List.map
                 (fun en => if member_eqb m (fst en) then (fst en, score)
                            else en)
                 (entries z)
          else entries z ++ [(m, score)])
         (expire_at z)).

(** EXPIRE key seconds *)
Definition expire (r : t) (key : string) (seconds : Z) (now : Q) : t :=
  let z := get r key now in
  match entries z with
  | [] => put r key z
  | _ :: _ =>
      if (seconds <=? 0)%Z then mk (delete key (zsets r))
      else put r key (mkz (entries z) (Some (now + inject_Z seconds)))
  end.

(** The place of an entry among entries in the order of the store: by
    score, and by member among equal scores. *)
Fixpoint place (before : member -> member -> bool) (en : member * Q)
    (sorted : list (member * Q)) : list (member * Q) :=
  match sorted with
  | [] => [en]
  | x :: rest =>
      if Qlt_bool (snd en) (snd x)
         || (Qeq_bool (snd en) (snd x) && before (fst en) (fst x))
      then en :: sorted
      else x :: place before en rest
  end.

(** ZRANGE key 0 -1 WITHSCORES *)
Definition zrange_all (before : member -> member -> bool) (r : t)
    (key : string) (now : Q) : list (member * Q) :=
  List.fold_right (place before) [] (entries (get r key now)).

End CostStore.

(** ** CostBasedRateLimiter (rate_limiter.py, lines 357-479) *)

Module CostBasedRateLimiter.

Record t := mk {
  redis_client : option CostStore.t;
  cost_windows : gmap string (list (Q * Q))    (* (time, cost) *)
}.

(** [__init__] *)
Definition init (redis_client : option CostStore.t) : t := mk redis_client ∅.

(** [sum(...)]: from 0, left to right. *)
Definition sum_of (costs : list Q) : Q :=
  List.fold_left Qplus costs 0.

(** Lines 449-450: [while cost_window and cost_window[0][0] <= bound]. *)
Fixpoint pop_expired (cost_window : list (Q * Q)) (bound : Q)
    : list (Q * Q) :=
  match cost_window with
  | [] => []
  | x :: rest =>
      if Qle_bool (fst x) bound then pop_expired rest bound else cost_window
  end.

Definition refusal (budget : Q) (window_seconds : Z) (now : Q)
    (retry_after : Z) : RateLimitResult.t :=
  RateLimitResult.mk false (py_int budget) 0
    (py_int (now + inject_Z window_seconds)) (Some (Z.max 1 retry_after)) 0
    (Some "Cost budget exceeded"%string).

Definition admission (cost budget current_cost : Q) (window_seconds : Z)
    (now : Q) : RateLimitResult.t :=
  RateLimitResult.mk true (py_int budget)
    (py_int (budget - current_cost - cost))
    (py_int (now + inject_Z window_seconds)) None cost None.

(** [_local_cost_limit(key, cost, budget, window_seconds, now)];
    [self.cost_windows] is a [defaultdict(list)]. *)
Definition _local_cost_limit (self : t) (key : string) (cost budget : Q)
    (window_seconds : Z) (now : Q) : RateLimitResult.t * t :=
  let cost_window :=
    pop_expired (default [] (cost_windows self !! key))
      (now - inject_Z window_seconds) in
  let current_cost := sum_of (List.map snd cost_window) in
  if Qle_bool (current_cost + cost) budget then
    (admission cost budget current_cost window_seconds now,
     mk (redis_client self)
        (<[key := cost_window ++ [(now, cost)]]> (cost_windows self)))
  else
    let oldest_time :=
      match cost_window with x :: _ => fst x | [] => now end in
    let retry_after :=
      py_int (oldest_time + inject_Z window_seconds - now) in
    (refusal budget window_seconds now retry_after,
     mk (redis_client self) (<[key := cost_window]> (cost_windows self))).

(** [_redis_cost_limit(key, cost, budget, window_seconds, now)], on
    the store [r]. *)
Definition _redis_cost_limit (before : CostStore.member -> CostStore.member -> bool)
    (r : CostStore.t) (key : string) (cost budget : Q) (window_seconds : Z)
    (now : Q) : RateLimitResult.t * CostStore.t :=
  let r1 :=
    CostStore.zremrangebyscore r key 0 (now - inject_Z window_seconds) now in
  let cost_entries := CostStore.zrange_all before r1 key now in
  let current_cost := sum_of (List.map snd cost_entries) in
  if Qle_bool (current_cost + cost) budget then
    let r2 := CostStore.zadd r1 key (now, cost) cost now in
    let r3 := CostStore.expire r2 key window_seconds now in
    (admission cost budget current_cost window_seconds now, r3)
  else
    let retry_after :=
      match cost_entries with
      | oldest_entry :: _ =>
          py_int (fst (fst oldest_entry) + inject_Z window_seconds - now)
      | [] => window_seconds
      end in
    (refusal budget window_seconds now retry_after, r1).

(** [consume_cost(identifier, cost, budget, window_seconds)] *)
Definition consume_cost (before : CostStore.member -> CostStore.member -> bool)
    (self : t) (identifier : string) (cost budget : Q) (window_seconds : Z)
    (e : Env) : RateLimitResult.t * t * Env :=
  let key := ("cost:" +:+ identifier)%string in
  let (now, e1) := time_time e in
  match redis_client self with
  | Some r =>
      let (res, r1) :=
        _redis_cost_limit before r key cost budget window_seconds now in
      (res, mk (Some r1) (cost_windows self), e1)
  | None =>
      let (res, self1) :=
        _local_cost_limit self key cost budget window_seconds now in
      (res, self1, e1)
  end.

End CostBasedRateLimiter.

(** ** Sequences of cost requests *)

(** The requests of the given costs, served one after the other for
    one identifier under one budget and window: the results, and the
    limiter and the environment after them. *)
Fixpoint consume_costs (before : CostStore.member -> CostStore.member -> bool)
    (costs : list Q) (self : CostBasedRateLimiter.t) (identifier : string)
    (budget : Q) (window_seconds : Z) (e : Env)
    : list RateLimitResult.t * CostBasedRateLimiter.t * Env :=
  match costs with
  | [] => ([], self, e)
  | cost :: rest =>
      let '(r, self1, e1) :=
        CostBasedRateLimiter.consume_cost before self identifier cost budget
          window_seconds e in
      let '(rs, self2, e2) :=
        consume_costs before rest self1 identifier budget window_seconds e1 in
      (r :: rs, self2, e2)
  end.

(** The costs that were admitted, with their times. *)
Fixpoint admitted_costs (times costs : list Q)
    (results : list RateLimitResult.t) : list (Q * Q) :=
  match times, costs, results with
  | t :: times', c :: costs', r :: results' =>
      if RateLimitResult.allowed r
      then (t, c) :: admitted_costs times' costs' results'
      else admitted_costs times' costs' results'
  | _, _, _ => []
  end.

(** The entries of [l] whose time lies in the window of [seconds]
    seconds that ends at [now]. *)
Definition recent_costs (seconds : Z) (now : Q) (l : list (Q * Q))
    : list (Q * Q) :=
  List.filter (fun en => Qlt_bool (now - inject_Z seconds) (fst en)) l.

(** The sum of the costs of entries. *)
Definition spent (l : list (Q * Q)) : Q :=
  CostBasedRateLimiter.sum_of (List.map snd l).

(** Entries in time order. *)
Definition by_time (a b : Q * Q) : Prop := fst a <= fst b.

(** The list [cost_window] holds the admissions [history] of the window
    that ends at [now], and they are within the budget. *)
Definition costs_of_history (seconds : Z) (budget : Q)
    (cost_window history : list (Q * Q)) (now : Q) : Prop :=
  cost_window = recent_costs seconds now history /\
  StronglySorted by_time history /\
  Forall (fun en => fst en <= now /\ 0 <= snd en) history /\
  spent cost_window <= Qmax 0 budget.

(** The admissions of requests at [times] of [costs], each answered as
    if nothing had been spent before it. *)
Fixpoint unspent_admissions (times costs : list Q) (budget : Q)
    (window_seconds : Z) : list RateLimitResult.t :=
  match times, costs with
  | t :: times', c :: costs' =>
      CostBasedRateLimiter.admission c budget 0 window_seconds t
      :: unspent_admissions times' costs' budget window_seconds
  | _, _ => []
  end.

(** The sorted set of [key] holds scores between 0 and [top] only. *)
Definition scores_within (top : Q) (r : CostStore.t) (key : string) : Prop :=
  match CostStore.zsets r !! key with
  | Some z => Forall (fun en => 0 <= snd en <= top) (CostStore.entries z)
  | None => True
  end.

(** ** Protected calls (rate_limiter.py, lines 326-354) *)

(** [str(n)] of an [int], and of an [Optional[int]]. *)
Definition str_int (n : Z) : string :=
  DecimalString.NilZero.string_of_int (Z.to_int n).

Definition str_optional_int (n : option Z) : string :=
  match n with
  | Some n => str_int n
  | None => "None"
  end.

Definition rate_limit_message (retry_after : option Z) : string :=
  ("API rate limit exceeded. Retry after "
   +:+ str_optional_int retry_after +:+ "s")%string.

Definition unavailable_message (service : string) : string :=
  ("External API temporarily unavailable: " +:+ service)%string.

(** The breaker of a service after a call: the object in the
    dictionary is the one the call has changed. *)
Definition set_breaker (self : RateLimiter.t) (service : string)
    (cb : CircuitBreaker.t) : RateLimiter.t :=
  RateLimiter.mk (RateLimiter.redis_client self)
    (RateLimiter.local_buckets self) (RateLimiter.local_windows self)
    (<[service := cb]> (RateLimiter.circuit_breakers self)).

(** [api_call_with_protection(service, identifier, func)]; [func] acts
    on a world [W], as for [CircuitBreaker.call]. *)
Definition api_call_with_protection {W R : Type} (self : RateLimiter.t)
    (service identifier : string) (func : W -> Res R * W) (w : W) (e : Env)
    : Res R * RateLimiter.t * W * Env :=
  match RateLimiter.is_allowed self identifier API_CALLS_PER_HOUR None 1 e with
  | (Raise x, self1, e1) => (Raise x, self1, w, e1)
  | (Ok rate_limit_result, self1, e1) =>
      if negb (RateLimitResult.allowed rate_limit_result) then
        (Raise (Exception
                  (rate_limit_message
                     (RateLimitResult.retry_after rate_limit_result))),
         self1, w, e1)
      else
        let (circuit_breaker, self2) :=
          RateLimiter.get_circuit_breaker self1 service in
        let '(result, circuit_breaker1, w1, e2) :=
          CircuitBreaker.call circuit_breaker func w e1 in
        let self3 := set_breaker self2 service circuit_breaker1 in
        match result with
        | Ok r => (Ok r, self3, w1, e2)
        | Raise x =>
            if CircuitBreaker.is_Exception x
            then (Raise (Exception (unavailable_message service)),
                  self3, w1, e2)
            else (Raise x, self3, w1, e2)
        end
  end.

(** ** The shape of generated keys *)

(** How often a character occurs in a text. *)
Fixpoint occurrences (c : ascii) (s : string) : nat :=
  match s with
  | EmptyString => 0
  | String c' s' =>
      if Ascii.eqb c' c then S (occurrences c s') else occurrences c s'
  end.

(** The two random texts of [generate_api_key] (lines 107-108). *)
Definition drawn_key_id (e : Env) : string := fst (Secrets.token_urlsafe 16 e).

Definition drawn_raw_key (e : Env) : string :=
  fst (Secrets.token_urlsafe 32 (snd (Secrets.token_urlsafe 16 e))).

(** * Properties *)

(** ** Arithmetic helpers *)

Lemma Qlt_bool_iff (a b : Q) : Qlt_bool a b = true <-> a < b.
Proof.
  unfold Qlt_bool. rewrite negb_true_iff.
  split; intros H.
  - apply Qnot_le_lt. intros Hle. apply Qle_bool_iff in Hle. congruence.
  - destruct (Qle_bool b a) eqn:E; [|reflexivity].
    apply Qle_bool_iff in E. lra.
Qed.

Lemma Qlt_bool_false_iff (a b : Q) : Qlt_bool a b = false <-> b <= a.
Proof.
  unfold Qlt_bool. rewrite negb_false_iff. apply Qle_bool_iff.
Qed.

Lemma Qle_bool_false_iff (a b : Q) : Qle_bool a b = false <-> b < a.
Proof.
  split; intros H.
  - apply Qnot_le_lt. intros Hle. apply Qle_bool_iff in Hle. congruence.
  - destruct (Qle_bool a b) eqn:E; [|reflexivity].
    apply Qle_bool_iff in E. lra.
Qed.

(** A scripted clock does not run backwards when its script does not. *)
Lemma scripted_tail (x y : Q) (l : list Q) (i : nat) :
  scripted (x :: y :: l) (S i) = scripted (y :: l) i.
Proof. reflexivity. Qed.

Lemma scripted_single (x : Q) (i : nat) : scripted [x] i = x.
Proof. destruct i as [|[|i]]; reflexivity. Qed.

Lemma scripted_head_le (l : list Q) :
  forall x i, nondecreasing (x :: l) = true -> x <= scripted (x :: l) i.
Proof.
  induction l as [|y l IH]; intros x i H.
  - rewrite scripted_single. lra.
  - simpl in H. apply andb_true_iff in H as [Hxy H].
    apply Qle_bool_iff in Hxy.
    destruct i as [|i]; [unfold scripted; simpl; lra|].
    rewrite scripted_tail. specialize (IH y i H). lra.
Qed.

Lemma scripted_monotone (l : list Q) :
  nondecreasing l = true -> monotone_clock (env_at l).
Proof.
  unfold monotone_clock, env_at; simpl.
  induction l as [|x l IH]; intros H i j Hij.
  - unfold scripted. destruct i, j; simpl; lra.
  - destruct l as [|y l].
    + rewrite !scripted_single. lra.
    + destruct i as [|i].
      * change (scripted (x :: y :: l) 0%nat) with x.
        apply scripted_head_le. exact H.
      * destruct j as [|j]; [lia|].
        rewrite !scripted_tail. simpl in H.
        apply andb_true_iff in H as [_ H].
        apply IH; [exact H | lia].
Qed.

(** ** TokenBucket *)

Section TokenBucketFacts.

Import TokenBucket.


(** What one [consume] does to the fields of the bucket. *)
Lemma consume_fields (b : t) (n : Z) (e : Env) :
  let now := readings e (tick e) in
  let refilled := tokens (refill b now) in
  consume b n e =
    (Qle_bool (inject_Z n) refilled,
     mk (capacity b) (refill_rate b)
        (if Qle_bool (inject_Z n) refilled then refilled - inject_Z n
         else refilled)
        now,
     snd (time_time e)).
Proof.
  unfold consume; simpl.
  destruct (Qle_bool _ _); reflexivity.
Qed.



End TokenBucketFacts.





(** ** CircuitBreaker *)

Section CircuitBreakerFacts.

Import CircuitBreaker.
Context {W R : Type}.
Implicit Types (func : W -> Res R * W) (cb : t) (w : W) (e : Env).

Lemma later_later (j k : nat) e : later k (later j e) = later (j + k) e.
Proof. unfold later; simpl. f_equal. lia. Qed.

Lemma time_time_later e : time_time e = (readings e (tick e), later 1 e).
Proof. unfold time_time, later. rewrite Nat.add_1_r. reflexivity. Qed.

(** A failure of a breaker that is not OPEN. *)
Lemma call_failure cb func w e x w1 :
  state cb <> OPEN -> func w = (Raise x, w1) ->
  expected_exception cb x = true ->
  call cb func w e = (Raise x, fst (on_failure cb e), w1, later 1 e).
Proof.
  intros Hs Hf Hx. unfold call, before_call.
  destruct (state cb) eqn:E; try congruence;
    rewrite Hf, Hx; unfold on_failure; rewrite time_time_later; reflexivity.
Qed.

(** While the cooldown runs, the call is refused and nothing moves. *)
Lemma call_rejected cb since func w e :
  opened_at cb since ->
  readings e (tick e) - since <= 60 ->
  call cb func w e =
    (Raise (CircuitOpenError (60 - (readings e (S (tick e)) - since))),
     cb, w, later 2 e).
Proof.
  intros (Hs & _ & Ht & _ & Hl) Hnow.
  unfold call, before_call. rewrite Hs, Hl, Ht, time_time_later.
  assert (Qlt_bool (inject_Z 60) (readings e (tick e) - since) = false) as ->.
  { apply Qlt_bool_false_iff. exact Hnow. }
  rewrite time_time_later, later_later. simpl.
  rewrite Nat.add_1_r. reflexivity.
Qed.

(** After the cooldown one call is let through, HALF_OPEN. *)
Lemma before_call_trial cb since e :
  opened_at cb since ->
  60 < readings e (tick e) - since ->
  before_call cb e = (Ok (set_state cb HALF_OPEN), later 1 e).
Proof.
  intros (Hs & _ & Ht & _ & Hl) Hnow.
  unfold before_call. rewrite Hs, Hl, Ht, time_time_later.
  assert (Qlt_bool (inject_Z 60) (readings e (tick e) - since) = true) as ->.
  { apply Qlt_bool_iff. exact Hnow. }
  reflexivity.
Qed.

End CircuitBreakerFacts.

(** C3. A breaker with [failure_threshold=3] and a cooldown of 60 s
    starts CLOSED with failure count 0.
    - Three consecutive failing calls leave it OPEN, with the third
      failure as last failure.
    - While it is OPEN and no more than 60 s have passed since the last
      failure, a call is refused: the protected function is not run (the
      world is returned as it was, whatever the function), the breaker
      does not change, and the exception reports a remaining cooldown of
      at most 60 (the clock not running backwards).
    - The first call after the cooldown is let through HALF_OPEN. If it
      succeeds the breaker is CLOSED with failure count 0; if it fails
      the breaker is OPEN again, since the time of the new failure. *)
Theorem circuit_breaker_cycle {W R : Type} :
  (forall (f1 f2 f3 : W -> Res R * W) (w w1 w2 w3 : W) (x1 x2 x3 : exn)
          (e : Env),
      f1 w = (Raise x1, w1) -> f2 w1 = (Raise x2, w2) ->
      f3 w2 = (Raise x3, w3) ->
      CircuitBreaker.is_Exception x1 = true ->
      CircuitBreaker.is_Exception x2 = true ->
      CircuitBreaker.is_Exception x3 = true ->
      let cb0 := CircuitBreaker.init 3 60 CircuitBreaker.is_Exception in
      let '(_, cb1, _, e1) := CircuitBreaker.call cb0 f1 w e in
      let '(_, cb2, _, e2) := CircuitBreaker.call cb1 f2 w1 e1 in
      let '(_, cb3, _, e3) := CircuitBreaker.call cb2 f3 w2 e2 in
      CircuitBreaker.state cb0 = CircuitBreaker.CLOSED /\
      CircuitBreaker.failure_count cb0 = 0%Z /\
      CircuitBreaker.state cb1 = CircuitBreaker.CLOSED /\
      CircuitBreaker.state cb2 = CircuitBreaker.CLOSED /\
      CircuitBreaker.failure_count cb3 = 3%Z /\
      opened_at cb3 (readings e (tick e + 2)%nat) /\
      e3 = later 3 e) /\
  (forall (cb : CircuitBreaker.t) (since : Q) (func : W -> Res R * W)
          (w : W) (e : Env),
      opened_at cb since ->
      readings e (tick e) - since <= 60 ->
      since <= readings e (S (tick e)) ->
      exists remaining : Q,
        CircuitBreaker.call cb func w e =
          (Raise (CircuitOpenError remaining), cb, w, later 2 e) /\
        remaining <= 60) /\
  (forall (cb : CircuitBreaker.t) (since : Q) (func : W -> Res R * W)
          (w : W) (e : Env),
      opened_at cb since ->
      60 < readings e (tick e) - since ->
      (exists trial : CircuitBreaker.t,
          CircuitBreaker.before_call cb e = (Ok trial, later 1 e) /\
          CircuitBreaker.state trial = CircuitBreaker.HALF_OPEN) /\
      (forall (r : R) (w1 : W),
          func w = (Ok r, w1) ->
          exists cb1 : CircuitBreaker.t,
            CircuitBreaker.call cb func w e = (Ok r, cb1, w1, later 1 e) /\
            CircuitBreaker.state cb1 = CircuitBreaker.CLOSED /\
            CircuitBreaker.failure_count cb1 = 0%Z) /\
      (forall (x : exn) (w1 : W),
          func w = (Raise x, w1) ->
          CircuitBreaker.expected_exception cb x = true ->
          exists cb1 : CircuitBreaker.t,
            CircuitBreaker.call cb func w e = (Raise x, cb1, w1, later 2 e) /\
            opened_at cb1 (readings e (S (tick e))))).
Proof.
  split; [|split].
  - intros f1 f2 f3 w w1 w2 w3 x1 x2 x3 e H1 H2 H3 X1 X2 X3. cbv zeta.
    rewrite (call_failure _ f1 w e x1 w1); [|discriminate|exact H1|exact X1].
    rewrite (call_failure _ f2 w1 _ x2 w2); [|discriminate|exact H2|exact X2].
    rewrite (call_failure _ f3 w2 _ x3 w3); [|discriminate|exact H3|exact X3].
    rewrite !later_later. unfold opened_at; simpl.
    repeat split; try reflexivity; try lia.
  - intros cb since func w e Hop Hnow Hclock.
    exists (60 - (readings e (S (tick e)) - since)). split.
    + apply call_rejected; assumption.
    + lra.
  - intros cb since func w e Hop Hnow.
    pose proof (before_call_trial cb since e Hop Hnow) as Hbefore.
    destruct Hop as (Hs & Hth & Ht & Hc & Hl).
    split; [|split].
    + eexists. split; [exact Hbefore | reflexivity].
    + intros r w1 Hf. eexists. split.
      * unfold CircuitBreaker.call. rewrite Hbefore, Hf. reflexivity.
      * split; reflexivity.
    + intros x w1 Hf Hx.
      exists (fst (CircuitBreaker.on_failure
                     (CircuitBreaker.set_state cb CircuitBreaker.HALF_OPEN)
                     (later 1 e))).
      split.
      * unfold CircuitBreaker.call. rewrite Hbefore, Hf.
        change (CircuitBreaker.expected_exception
                  (CircuitBreaker.set_state cb CircuitBreaker.HALF_OPEN) x)
          with (CircuitBreaker.expected_exception cb x).
        rewrite Hx. unfold CircuitBreaker.on_failure.
        rewrite time_time_later, later_later. reflexivity.
      * unfold opened_at; simpl. rewrite Hth.
        assert ((3 <=? CircuitBreaker.failure_count cb + 1)%Z = true) as ->
          by (apply Z.leb_le; lia).
        repeat split; try assumption; try lia.
        rewrite Nat.add_1_r. reflexivity.
Qed.

(** The cycle on a service that counts how often it is called: three
    failures at t = 0, 1, 2; a refused call at t = 30; a trial at t = 63. *)
Lemma circuit_breaker_cycle_witness :
  let fails (n : nat) : Res unit * nat := (Raise (Exception "down"), S n) in
  let works (n : nat) : Res unit * nat := (Ok tt, S n) in
  let e := env_at [0; 1; 2; 30; 31; 63; 64] in
  let opened :=
    CircuitBreaker.mk 3 60 CircuitBreaker.is_Exception 3 (Some 2)
      CircuitBreaker.OPEN in
  (let cb0 := CircuitBreaker.init 3 60 CircuitBreaker.is_Exception in
   let '(_, cb1, _, e1) := CircuitBreaker.call cb0 fails 0%nat e in
   let '(_, cb2, _, e2) := CircuitBreaker.call cb1 fails 1%nat e1 in
   let '(_, cb3, _, e3) := CircuitBreaker.call cb2 fails 2%nat e2 in
   CircuitBreaker.state cb0 = CircuitBreaker.CLOSED /\
   CircuitBreaker.failure_count cb0 = 0%Z /\
   CircuitBreaker.state cb1 = CircuitBreaker.CLOSED /\
   CircuitBreaker.state cb2 = CircuitBreaker.CLOSED /\
   CircuitBreaker.failure_count cb3 = 3%Z /\
   opened_at cb3 (readings e (tick e + 2)%nat) /\
   e3 = later 3 e) /\
  (exists remaining : Q,
      CircuitBreaker.call opened works 3%nat (later 3 e) =
        (Raise (CircuitOpenError remaining), opened, 3%nat,
         later 2 (later 3 e)) /\
      remaining <= 60) /\
  (exists cb4 : CircuitBreaker.t,
      CircuitBreaker.call opened works 3%nat (later 5 e) =
        (Ok tt, cb4, 4%nat, later 1 (later 5 e)) /\
      CircuitBreaker.state cb4 = CircuitBreaker.CLOSED /\
      CircuitBreaker.failure_count cb4 = 0%Z) /\
  (exists cb4 : CircuitBreaker.t,
      CircuitBreaker.call opened fails 3%nat (later 5 e) =
        (Raise (Exception "down"), cb4, 4%nat, later 2 (later 5 e)) /\
      opened_at cb4 64).
Proof.
  intros fails works e opened.
  destruct (@circuit_breaker_cycle nat unit) as (Hopen & Hrej & Htrial).
  assert (opened_at opened 2) as Hopened.
  { unfold opened_at, opened; simpl. repeat split; lia. }
  split; [|split; [|split]].
  - apply (Hopen fails fails fails 0%nat 1%nat 2%nat 3%nat
             (Exception "down") (Exception "down") (Exception "down") e);
      reflexivity.
  - apply (Hrej opened 2 works 3%nat (later 3 e) Hopened).
    + vm_compute. discriminate.
    + vm_compute. discriminate.
  - destruct (Htrial opened 2 works 3%nat (later 5 e) Hopened)
      as (_ & Hok & _); [vm_compute; reflexivity|].
    apply (Hok tt 4%nat). reflexivity.
  - destruct (Htrial opened 2 fails 3%nat (later 5 e) Hopened)
      as (_ & _ & Hfail); [vm_compute; reflexivity|].
    apply (Hfail (Exception "down") 4%nat); reflexivity.
Defined.

(** ** RateLimiter: the local sliding window *)

Section LocalWindowFacts.

Import RateLimiter.

(** Without a store and without a burst allowance, [is_allowed] is one
    step of the sliding window of its key. *)
Lemma is_allowed_window (rl : t) (identifier : string) (ty : RateLimitType)
    (rule : RateLimitRule.t) (cost : Q) (e : Env) :
  redis_client rl = None -> RateLimitRule.has_burst rule = false ->
  is_allowed rl identifier ty (Some rule) cost e =
    (Ok (fst (sliding_window
                (default [] (local_windows rl !! key_of identifier ty))
                rule cost (readings e (tick e)))),
     set_window rl (key_of identifier ty)
       (snd (sliding_window
               (default [] (local_windows rl !! key_of identifier ty))
               rule cost (readings e (tick e)))),
     later 1 e).
Proof.
  intros Hr Hb. unfold is_allowed. rewrite time_time_later, Hr.
  unfold _local_rate_limit, window_rate_limit.
  fold (key_of identifier ty).
  unfold RateLimitRule.has_burst in Hb.
  destruct (RateLimitRule.burst_limit rule) as [b|].
  - apply negb_false_iff in Hb. rewrite Hb.
    destruct (sliding_window _ _ _ _); reflexivity.
  - destruct (sliding_window _ _ _ _); reflexivity.
Qed.

Lemma set_window_lookup (rl : t) (k : string) (w : list Q) :
  local_windows (set_window rl k w) !! k = Some w.
Proof. simpl. apply lookup_insert_eq. Qed.

Lemma next_readings_S (n : nat) (e : Env) :
  next_readings (S n) e = readings e (tick e) :: next_readings n (later 1 e).
Proof.
  unfold next_readings. simpl. rewrite Nat.add_0_r. f_equal.
  rewrite <- seq_shift, map_map. apply map_ext.
  intros i. f_equal. lia.
Qed.

(** Successive checks of one key are the trace of its window. *)
Lemma checks_window (identifier : string) (ty : RateLimitType)
    (rule : RateLimitRule.t) (cost : Q) (n : nat) :
  RateLimitRule.has_burst rule = false ->
  forall (rl : t) (e : Env),
    redis_client rl = None ->
    fst (fst (checks n rl identifier ty (Some rule) cost e)) =
      List.map Ok
        (window_trace (default [] (local_windows rl !! key_of identifier ty))
           rule cost (next_readings n e)).
Proof.
  intros Hb. induction n as [|n IH]; intros rl e Hr; [reflexivity|].
  rewrite next_readings_S.
  cbn [checks window_trace]. rewrite is_allowed_window by assumption.
  destruct (sliding_window _ rule cost (readings e (tick e)))
    as [res w1] eqn:Esw.
  cbn [fst snd].
  specialize (IH (set_window rl (key_of identifier ty) w1) (later 1 e) Hr).
  rewrite set_window_lookup in IH. cbn [default] in IH.
  destruct (checks n _ identifier ty (Some rule) cost (later 1 e))
    as [[rs rl2] e2].
  cbn [fst snd List.map] in *. rewrite IH. reflexivity.
Qed.

End LocalWindowFacts.

(** C5. With no store configured, a rule of limit 3 and window 60 s
    without burst allowance, unit cost and a fresh window: three checks
    at t=0 are allowed, a fourth at t=0 is denied with [retry_after] 60
    (the oldest entry 0, plus the window 60, minus the time 0), and a
    check at t=61 is allowed again, all entries being pruned (the
    remaining quota is back at 2). *)
Theorem sliding_window_scenario
    (rl : RateLimiter.t) (identifier : string) (ty : RateLimitType) (e : Env) :
  RateLimiter.redis_client rl = None ->
  default [] (RateLimiter.local_windows rl !! key_of identifier ty) = [] ->
  (forall i : nat, (i < 5)%nat ->
     readings e (tick e + i)%nat = List.nth i [0; 0; 0; 0; 61] 0) ->
  fst (fst (checks 5 rl identifier ty (Some (RateLimitRule.plain 3 60)) 1 e)) =
    [ admitted 3 2 60 1; admitted 3 1 60 1; admitted 3 0 60 1;
      denied 3 60 60 "Sliding window limit exceeded";
      admitted 3 2 121 1 ].
Proof.
  intros Hr Hfresh Ht.
  rewrite checks_window by (reflexivity || assumption).
  rewrite Hfresh.
  assert (next_readings 5 e = [0; 0; 0; 0; 61]) as ->.
  { unfold next_readings. cbn [List.seq List.map].
    rewrite (Ht 0%nat), (Ht 1%nat), (Ht 2%nat), (Ht 3%nat), (Ht 4%nat) by lia.
    reflexivity. }
  reflexivity.
Qed.

Lemma sliding_window_scenario_witness :
  fst (fst (checks 5 (RateLimiter.init None) "client" REQUESTS_PER_MINUTE
              (Some (RateLimitRule.plain 3 60)) 1
              (env_at [0; 0; 0; 0; 61]))) =
    [ admitted 3 2 60 1; admitted 3 1 60 1; admitted 3 0 60 1;
      denied 3 60 60 "Sliding window limit exceeded";
      admitted 3 2 121 1 ].
Proof.
  apply (sliding_window_scenario (RateLimiter.init None) "client"
           REQUESTS_PER_MINUTE (env_at [0; 0; 0; 0; 61])).
  - reflexivity.
  - reflexivity.
  - intros i Hi.
    do 5 (destruct i as [|i]; [reflexivity|]). lia.
Defined.

(** ** check_multiple_limits *)

(** The rules are tried in order and the first denial is returned at
    once: the rules behind it are not evaluated. *)
Lemma check_multiple_limits_first_denial
    (rl : RateLimiter.t) (identifier : string) (ty : RateLimitType)
    (rule : RateLimitRule.t)
    (rest : list (RateLimitType * RateLimitRule.t)) (e : Env)
    (res : RateLimitResult.t) (rl1 : RateLimiter.t) (e1 : Env) :
  RateLimiter.is_allowed rl identifier ty (Some rule) 1 e = (Ok res, rl1, e1) ->
  RateLimitResult.allowed res = false ->
  check_multiple_limits rl identifier ((ty, rule) :: rest) e = (Ok res, rl1, e1).
Proof.
  intros H Hden. simpl. rewrite H, Hden. reflexivity.
Qed.

Lemma check_multiple_limits_pass
    (rl : RateLimiter.t) (identifier : string) (ty : RateLimitType)
    (rule : RateLimitRule.t)
    (rest : list (RateLimitType * RateLimitRule.t)) (e : Env)
    (res : RateLimitResult.t) (rl1 : RateLimiter.t) (e1 : Env) :
  RateLimiter.is_allowed rl identifier ty (Some rule) 1 e = (Ok res, rl1, e1) ->
  RateLimitResult.allowed res = true ->
  check_multiple_limits rl identifier ((ty, rule) :: rest) e =
    check_multiple_limits rl1 identifier rest e1.
Proof.
  intros H Hok. simpl. rewrite H, Hok. reflexivity.
Qed.

(** C6, evaluated. One client, a rule of 1 request per second before a
    rule of 1 request per hour, every check at t=100. The first round
    passes both rules. In the second round both rules deny: the
    per-second rule with [retry_after] 1, the per-hour rule with
    [retry_after] 3600. The caller is given the per-second denial, which
    is not the most restrictive one. *)
Theorem first_denial_not_most_restrictive :
  let per_second := RateLimitRule.plain 1 1 in
  let per_hour := RateLimitRule.plain 1 3600 in
  let limits :=
    [(REQUESTS_PER_SECOND, per_second); (REQUESTS_PER_HOUR, per_hour)] in
  let '(first, rl1, e1) :=
    check_multiple_limits (RateLimiter.init None) "client" limits
      (env_at [100]) in
  let '(second, _, _) := check_multiple_limits rl1 "client" limits e1 in
  let '(hourly, _, _) :=
    RateLimiter.is_allowed rl1 "client" REQUESTS_PER_HOUR (Some per_hour) 1 e1 in
  first = Ok RateLimiter.unlimited /\
  second = denied 1 101 1 "Sliding window limit exceeded" /\
  hourly = denied 1 3700 3600 "Sliding window limit exceeded".
Proof.
  vm_compute. repeat split.
Qed.

(** ** RateLimiter: the store-backed window against the local one *)

Section StoreFacts.

Import RateLimiter.

Lemma py_int_compat (x y : Q) : x == y -> py_int x = py_int y.
Proof.
  intros H. unfold py_int.
  rewrite (Qfloor_comp _ _ H), (Qceiling_comp _ _ H).
  assert (Qle_bool 0 x = Qle_bool 0 y) as ->
    by (apply Qleb_comp; [reflexivity | exact H]).
  reflexivity.
Qed.

Lemma py_int_inject_Z (z : Z) : py_int (inject_Z z) = z.
Proof.
  unfold py_int. rewrite Qfloor_Z, Qceiling_Z.
  destruct (Qle_bool 0 (inject_Z z)); reflexivity.
Qed.

Lemma lookup_put (r : Redis.t) (key : string) (z : Redis.zset) :
  Redis.zsets (Redis.put r key z) !! key = slot_put z.
Proof.
  unfold Redis.put, slot_put. destruct (Redis.entries z); simpl.
  - apply lookup_delete_eq.
  - apply lookup_insert_eq.
Qed.

Lemma get_slot (r : Redis.t) (key : string) (now : Q) :
  Redis.get r key now = slot_get (Redis.zsets r !! key) now.
Proof. reflexivity. Qed.

Lemma slot_get_live (s : option Redis.zset) (now : Q) :
  Redis.live (slot_get s now) now = true.
Proof.
  unfold slot_get. destruct s as [z|]; [|reflexivity].
  destruct (Redis.live z now) eqn:E; [exact E | reflexivity].
Qed.

(** Reading back what was just written, while it is live. *)
Lemma slot_get_put (z : Redis.zset) (now : Q) :
  Redis.live z now = true ->
  Redis.entries (slot_get (slot_put z) now) = Redis.entries z /\
  Redis.live (slot_get (slot_put z) now) now = true /\
  (Redis.entries z <> [] -> slot_get (slot_put z) now = z).
Proof.
  intros Hl. unfold slot_put, slot_get.
  destruct (Redis.entries z) eqn:E.
  - simpl. repeat split. congruence.
  - rewrite Hl. rewrite E. repeat split. exact Hl.
Qed.

(** On a window in time order, popping the expired head entries
    removes exactly the entries that are not younger than the bound. *)
Lemma popleft_expired_filter (w : list Q) (bound : Q) :
  StronglySorted Qle w ->
  popleft_expired w bound =
    List.filter (fun x => negb (Qle_bool x bound)) w.
Proof.
  induction 1 as [|x w Hs IH Hall]; [reflexivity|].
  simpl. destruct (Qle_bool x bound) eqn:E; simpl; [exact IH|].
  f_equal. apply Qle_bool_false_iff in E.
  clear IH Hs. induction w as [|y w IHw]; [reflexivity|].
  inversion Hall as [|? ? Hy Hw]; subst. simpl.
  assert (Qle_bool y bound = false) as ->
    by (apply Qle_bool_false_iff; lra).
  simpl. f_equal. apply IHw. exact Hw.
Qed.

Lemma popleft_expired_all (w : list Q) (bound : Q) :
  Forall (fun x => x <= bound) w -> popleft_expired w bound = [].
Proof.
  induction 1 as [|x w Hx _ IH]; [reflexivity|].
  simpl. apply Qle_bool_iff in Hx. rewrite Hx. exact IH.
Qed.

Lemma popleft_expired_sorted (w : list Q) (bound : Q) :
  StronglySorted Qle w -> StronglySorted Qle (popleft_expired w bound).
Proof.
  induction 1 as [|x w Hs IH Hall]; [constructor|].
  simpl. destruct (Qle_bool x bound); [exact IH|].
  constructor; assumption.
Qed.

Lemma popleft_expired_Forall (P : Q -> Prop) (w : list Q) (bound : Q) :
  Forall P w -> Forall P (popleft_expired w bound).
Proof.
  induction 1 as [|x w Hx Hw IH]; [constructor|].
  simpl. destruct (Qle_bool x bound); [exact IH|].
  constructor; assumption.
Qed.

(** The filter of ZREMRANGEBYSCORE 0 bound, on scores that are not
    negative. *)
Lemma store_filter_scores (es : list (Redis.member * Q)) (bound : Q) :
  Forall (fun x => 0 <= x) (List.map snd es) ->
  List.map snd
    (List.filter
       (fun en => negb (Qle_bool 0 (snd en) && Qle_bool (snd en) bound)) es) =
  List.filter (fun x => negb (Qle_bool x bound)) (List.map snd es).
Proof.
  induction es as [|en es IH]; intros Hall; [reflexivity|].
  inversion Hall as [|? ? Hx Hrest]; subst. simpl.
  apply Qle_bool_iff in Hx. rewrite Hx. simpl.
  destruct (Qle_bool (snd en) bound); simpl; rewrite IH by exact Hrest;
    reflexivity.
Qed.

Lemma filter_Forall_In (used : list Redis.member)
    (f : Redis.member * Q -> bool) (es : list (Redis.member * Q)) :
  Forall (fun en => In (fst en) used) es ->
  Forall (fun en => In (fst en) used) (List.filter f es).
Proof.
  induction 1 as [|en es Hen _ IH]; [constructor|].
  simpl. destruct (f en); [constructor; assumption | exact IH].
Qed.

(** The entry of lowest score of entries in time order is the first. *)
Lemma lowest_sorted (en : Redis.member * Q) (es : list (Redis.member * Q)) :
  Forall (fun x => snd en <= x) (List.map snd es) ->
  Redis.lowest en es = en.
Proof.
  induction es as [|en' es IH]; intros Hall; [reflexivity|].
  inversion Hall as [|? ? Hx Hrest]; subst. simpl.
  assert (Qlt_bool (snd en') (snd en) = false) as ->
    by (apply Qlt_bool_false_iff; exact Hx).
  apply IH. exact Hrest.
Qed.

Lemma member_eqb_refl (m : Redis.member) : Redis.member_eqb m m = true.
Proof.
  unfold Redis.member_eqb. rewrite Z.eqb_refl, andb_true_r.
  apply Qeq_bool_iff. reflexivity.
Qed.

Lemma member_eqb_sym (a b : Redis.member) :
  Redis.member_eqb a b = Redis.member_eqb b a.
Proof.
  unfold Redis.member_eqb. rewrite (Z.eqb_sym (snd a)). f_equal.
  destruct (Qeq_bool (fst a) (fst b)) eqn:E1,
           (Qeq_bool (fst b) (fst a)) eqn:E2; try reflexivity.
  - apply Qeq_bool_iff in E1. symmetry in E1. apply Qeq_bool_iff in E1.
    congruence.
  - apply Qeq_bool_iff in E2. symmetry in E2. apply Qeq_bool_iff in E2.
    congruence.
Qed.

(** A request id that was not used before is not in the sorted set. *)
Lemma fresh_not_stored (id : Redis.member) (used : list Redis.member)
    (es : list (Redis.member * Q)) :
  (forall u, In u used -> Redis.member_eqb id u = false) ->
  Forall (fun en => In (fst en) used) es ->
  existsb (fun en => Redis.member_eqb id (fst en)) es = false /\
  List.filter (fun en => negb (Redis.member_eqb id (fst en))) es = es.
Proof.
  intros Hfresh. induction 1 as [|en es Hen _ [IH1 IH2]]; [split; reflexivity|].
  simpl. rewrite (Hfresh _ Hen). simpl. rewrite IH1, IH2. split; reflexivity.
Qed.

Lemma filter_fresh_last (id : Redis.member) (score : Q)
    (es : list (Redis.member * Q)) :
  List.filter (fun en => negb (Redis.member_eqb id (fst en))) es = es ->
  List.filter (fun en => negb (Redis.member_eqb id (fst en)))
    (es ++ [(id, score)]) = es.
Proof.
  intros H. rewrite List.filter_app, H. simpl.
  rewrite member_eqb_refl. simpl. apply app_nil_r.
Qed.

(** The slot of the key after the pipeline, and the count it returns. *)
Lemma lookup_pipeline (r : Redis.t) (key : string) (rule : RateLimitRule.t)
    (id : Redis.member) (now : Q) :
  let W := RateLimitRule.window_seconds rule in
  let E1 :=
    List.filter (outside_range (now - inject_Z W))
      (Redis.entries (slot_get (Redis.zsets r !! key) now)) in
  existsb (fun en => Redis.member_eqb id (fst en)) E1 = false ->
  snd (pipeline r key rule id now) = Z.of_nat (length E1) /\
  Redis.zsets (fst (pipeline r key rule id now)) !! key =
    if (W <=? 0)%Z then None
    else Some (Redis.mkz (E1 ++ [(id, now)]) (Some (now + inject_Z W))).
Proof.
  intros W E1 Hfresh. unfold pipeline. cbn [fst snd]. fold W.
  set (z0 := slot_get (Redis.zsets r !! key) now) in *.
  set (r1 := Redis.zremrangebyscore r key 0 (now - inject_Z W) now).
  assert (Redis.zsets r1 !! key = slot_put (Redis.mkz E1 (Redis.expire_at z0)))
    as H1 by apply lookup_put.
  assert (Redis.live (Redis.mkz E1 (Redis.expire_at z0)) now = true) as Hl1
    by exact (slot_get_live (Redis.zsets r !! key) now).
  destruct (slot_get_put _ now Hl1) as (Hent1 & Hlive1 & _).
  cbn [Redis.entries] in Hent1.
  split.
  - unfold Redis.zcard. rewrite get_slot, H1, Hent1. reflexivity.
  - set (r2 := Redis.zadd r1 key id now now).
    set (z1 := slot_get (slot_put (Redis.mkz E1 (Redis.expire_at z0))) now)
      in *.
    assert (Redis.zsets r2 !! key =
              Some (Redis.mkz (E1 ++ [(id, now)]) (Redis.expire_at z1)))
      as H2.
    { unfold r2, Redis.zadd. rewrite lookup_put, get_slot, H1.
      fold z1. rewrite Hent1, Hfresh. unfold slot_put. cbn [Redis.entries].
      destruct (E1 ++ [(id, now)]) eqn:E; [|reflexivity].
      destruct E1; discriminate E. }
    unfold Redis.expire. rewrite get_slot, H2.
    assert (slot_get
              (Some (Redis.mkz (E1 ++ [(id, now)]) (Redis.expire_at z1))) now
            = Redis.mkz (E1 ++ [(id, now)]) (Redis.expire_at z1)) as ->.
    { unfold slot_get.
      change (Redis.live (Redis.mkz (E1 ++ [(id, now)]) (Redis.expire_at z1))
                now) with (Redis.live z1 now).
      rewrite Hlive1. reflexivity. }
    cbn [Redis.entries].
    destruct (E1 ++ [(id, now)]) as [|en es] eqn:E;
      [destruct E1; discriminate E|].
    fold W. destruct (W <=? 0)%Z.
    + simpl. apply lookup_delete_eq.
    + rewrite lookup_put. reflexivity.
Qed.

(** The slot of the key after the compensating ZREM, and what ZRANGE
    reads from it. *)
Lemma lookup_compensate (r3 : Redis.t) (key : string) (W : Z)
    (id : Redis.member) (now : Q) (E1 : list (Redis.member * Q)) :
  Redis.zsets r3 !! key =
    (if (W <=? 0)%Z then None
     else Some (Redis.mkz (E1 ++ [(id, now)]) (Some (now + inject_Z W)))) ->
  List.filter (fun en => negb (Redis.member_eqb id (fst en))) E1 = E1 ->
  let r4 := Redis.zrem r3 key id now in
  Redis.zsets r4 !! key =
    (if (W <=? 0)%Z then None
     else slot_put (Redis.mkz E1 (Some (now + inject_Z W)))) /\
  Redis.zrange_first r4 key now =
    match (if (W <=? 0)%Z then [] else E1) with
    | [] => []
    | en :: es => [Redis.lowest en es]
    end.
Proof.
  intros H3 Hfilter r4.
  assert (Redis.zsets r4 !! key =
            (if (W <=? 0)%Z then None
             else slot_put (Redis.mkz E1 (Some (now + inject_Z W)))))
    as H4.
  { unfold r4, Redis.zrem. rewrite lookup_put, get_slot, H3.
    destruct (W <=? 0)%Z eqn:EW; [reflexivity|].
    apply Z.leb_gt in EW.
    assert (Redis.live
              (Redis.mkz (E1 ++ [(id, now)]) (Some (now + inject_Z W))) now
            = true) as Hl.
    { unfold Redis.live; simpl. apply negb_true_iff.
      apply Qlt_bool_false_iff.
      assert (0 < inject_Z W)
        by (change 0 with (inject_Z 0); rewrite <- Zlt_Qlt; exact EW).
      lra. }
    unfold slot_get. rewrite Hl. cbn [Redis.entries Redis.expire_at].
    rewrite filter_fresh_last by exact Hfilter. reflexivity. }
  split; [exact H4|].
  unfold Redis.zrange_first. rewrite get_slot, H4.
  destruct (W <=? 0)%Z eqn:EW; [reflexivity|].
  apply Z.leb_gt in EW.
  assert (Redis.live (Redis.mkz E1 (Some (now + inject_Z W))) now = true)
    as Hl.
  { unfold Redis.live; simpl. apply negb_true_iff.
    apply Qlt_bool_false_iff.
    assert (0 < inject_Z W)
      by (change 0 with (inject_Z 0); rewrite <- Zlt_Qlt; exact EW).
    lra. }
  destruct (slot_get_put _ now Hl) as (Hent & _).
  rewrite Hent. reflexivity.
Qed.

End StoreFacts.

Section StoreAgreement.

Import RateLimiter.

Lemma sorted_snoc (p : list Q) (x : Q) :
  StronglySorted Qle p -> Forall (fun y => y <= x) p ->
  StronglySorted Qle (p ++ [x]).
Proof.
  induction 1 as [|y p Hs IH Hall]; intros Hle; simpl.
  - repeat constructor.
  - inversion Hle as [|? ? Hy Hp]; subst.
    constructor; [apply IH; exact Hp|].
    apply List.Forall_app. split; [exact Hall | repeat constructor; exact Hy].
Qed.

(** The entries that the pipeline keeps are those of the pruned window. *)
Lemma pruned_entries (rule : RateLimitRule.t) (key : string) (w : list Q)
    (r : Redis.t) (last : Q) (used : list Redis.member) (now : Q) :
  agree rule key w r last used -> last <= now ->
  let bound := now - inject_Z (RateLimitRule.window_seconds rule) in
  let E1 :=
    List.filter (outside_range bound)
      (Redis.entries (slot_get (Redis.zsets r !! key) now)) in
  List.map snd E1 = popleft_expired w bound /\
  Forall (fun en => In (fst en) used) E1.
Proof.
  intros (Hsorted & Hrange & Hslot) Hlast bound E1. subst E1.
  destruct (Redis.zsets r !! key) as [z|].
  - destruct Hslot as (HW & Hmap & Hexp & Hused).
    unfold slot_get. destruct (Redis.live z now) eqn:El.
    + split; [|apply filter_Forall_In; exact Hused].
      unfold outside_range. rewrite store_filter_scores.
      * rewrite Hmap. symmetry. apply popleft_expired_filter. exact Hsorted.
      * rewrite Hmap. eapply List.Forall_impl; [|exact Hrange].
        intros x [Hx _]. exact Hx.
    + simpl. split; [|constructor]. symmetry.
      apply popleft_expired_all.
      unfold Redis.live in El. rewrite Hexp in El.
      apply negb_false_iff, Qlt_bool_iff in El.
      eapply List.Forall_impl; [|exact Hrange].
      intros x [_ Hx]. unfold bound. lra.
  - simpl. split; [|constructor]. symmetry.
    destruct Hslot as [HW | ->]; [|reflexivity].
    apply popleft_expired_all.
    assert (inject_Z (RateLimitRule.window_seconds rule) <= 0) as HW'
      by (change 0 with (inject_Z 0); rewrite <- Zle_Qle; exact HW).
    eapply List.Forall_impl; [|exact Hrange].
    intros x [_ Hx]. unfold bound. lra.
Qed.

(** One check: the store-backed variant and the local window give the
    same verdict and stay in agreement. *)
Lemma store_step_agrees (rule : RateLimitRule.t) (key : string)
    (w : list Q) (r : Redis.t) (last : Q) (used : list Redis.member)
    (cost now : Q) (e : Env) :
  RateLimitRule.cost_per_request rule == 1 ->
  agree rule key w r last used ->
  last <= now -> 0 <= now ->
  (forall u, In u used ->
             Redis.member_eqb (now, current_task e) u = false) ->
  verdict (Ok (fst (_redis_rate_limit r key rule cost now e))) =
    verdict (Ok (fst (sliding_window w rule cost now))) /\
  agree rule key (snd (sliding_window w rule cost now))
    (snd (_redis_rate_limit r key rule cost now e)) now
    ((now, current_task e) :: used).
Proof.
  intros Hcpr Hagree Hlast Hnow Hfresh.
  destruct (pruned_entries rule key w r last used now Hagree Hlast)
    as [Hmap Hused].
  destruct Hagree as (Hsorted & Hrange & _).
  set (W := RateLimitRule.window_seconds rule) in *.
  set (id := (now, current_task e)) in *.
  set (E1 := List.filter (outside_range (now - inject_Z W))
               (Redis.entries (slot_get (Redis.zsets r !! key) now))) in *.
  set (p := popleft_expired w (now - inject_Z W)) in *.
  destruct (fresh_not_stored id used E1 Hfresh Hused) as [Hex Hfil].
  destruct (lookup_pipeline r key rule id now Hex) as [Hcount H3].
  fold W E1 in Hcount, H3.
  assert (StronglySorted Qle p) as Hp_sorted
    by (apply popleft_expired_sorted; exact Hsorted).
  assert (Forall (fun x => 0 <= x <= last) p) as Hp_range
    by (apply popleft_expired_Forall; exact Hrange).
  assert (length E1 = length p) as Hlen
    by (rewrite <- Hmap; symmetry; apply List.length_map).
  assert ((W <= 0)%Z -> p = []) as Hp_nil.
  { intros HW. apply popleft_expired_all.
    assert (inject_Z W <= 0) as HW'
      by (change 0 with (inject_Z 0); rewrite <- Zle_Qle; exact HW).
    eapply List.Forall_impl; [|exact Hrange]. intros x [_ Hx]. lra. }
  assert (py_int (now + inject_Z W - now) = W) as Hempty.
  { rewrite <- (py_int_inject_Z W) at 2. apply py_int_compat. ring. }
  unfold _redis_rate_limit, sliding_window. fold W id p.
  destruct (pipeline r key rule id now) as [r3 cnt].
  cbn [fst snd] in Hcount, H3. subst cnt. rewrite Hlen.
  assert (Qle_bool
            (inject_Z (Z.of_nat (length p))
             * RateLimitRule.cost_per_request rule + cost)
            (inject_Z (RateLimitRule.limit rule)) =
          Qle_bool (inject_Z (Z.of_nat (length p)) + cost)
            (inject_Z (RateLimitRule.limit rule))) as ->.
  { apply Qleb_comp; [|reflexivity]. rewrite Hcpr. ring. }
  destruct (Qle_bool (inject_Z (Z.of_nat (length p)) + cost)
              (inject_Z (RateLimitRule.limit rule))).
  - (* admitted *)
    cbn [fst snd verdict RateLimitResult.allowed RateLimitResult.remaining
         RateLimitResult.retry_after].
    split.
    + do 3 f_equal. apply py_int_compat. rewrite Hcpr. ring.
    + split; [|split].
      * apply sorted_snoc; [exact Hp_sorted|].
        eapply List.Forall_impl; [|exact Hp_range]. intros x [_ Hx]. lra.
      * apply List.Forall_app. split.
        -- eapply List.Forall_impl; [|exact Hp_range]. intros x [Hx Hx']. lra.
        -- repeat constructor; lra.
      * rewrite H3. destruct (W <=? 0)%Z eqn:EW.
        -- left. apply Z.leb_le. exact EW.
        -- apply Z.leb_gt in EW. cbn [Redis.entries Redis.expire_at].
           split; [exact EW|]. split; [|split; [reflexivity|]].
           ++ rewrite List.map_app, Hmap. reflexivity.
           ++ apply List.Forall_app. split.
              ** eapply List.Forall_impl; [|exact Hused].
                 intros en Hen. right. exact Hen.
              ** constructor; [left; reflexivity | constructor].
  - (* denied *)
    destruct (lookup_compensate r3 key W id now E1 H3 Hfil) as [H4 Hz].
    cbn [fst snd verdict RateLimitResult.allowed RateLimitResult.remaining
         RateLimitResult.retry_after].
    rewrite Hz. split.
    + do 3 f_equal.
      destruct (W <=? 0)%Z eqn:EW.
      * apply Z.leb_le in EW. rewrite (Hp_nil EW). rewrite Hempty.
        reflexivity.
      * destruct E1 as [|en es].
        -- simpl in Hmap. rewrite <- Hmap. rewrite Hempty. reflexivity.
        -- simpl in Hmap. rewrite <- Hmap. rewrite <- Hmap in Hp_sorted.
           inversion Hp_sorted as [|? ? _ Hall]; subst.
           rewrite (lowest_sorted en es Hall). reflexivity.
    + split; [exact Hp_sorted|]. split.
      * eapply List.Forall_impl; [|exact Hp_range]. intros x [Hx Hx']. lra.
      * rewrite H4. destruct (W <=? 0)%Z eqn:EW.
        -- left. apply Z.leb_le. exact EW.
        -- apply Z.leb_gt in EW. unfold slot_put. cbn [Redis.entries].
           destruct E1 as [|en es] eqn:EE.
           ++ right. rewrite <- Hmap. reflexivity.
           ++ cbn [Redis.entries Redis.expire_at].
              split; [exact EW|]. split; [exact Hmap|].
              split; [reflexivity|].
              eapply List.Forall_impl; [|exact Hused].
              intros en' Hen. right. exact Hen.
Qed.

(** With a store, [is_allowed] is one step of [_redis_rate_limit]. *)
Lemma is_allowed_store (rl : t) (r : Redis.t) (identifier : string)
    (ty : RateLimitType) (rule : RateLimitRule.t) (cost : Q) (e : Env) :
  redis_client rl = Some r ->
  is_allowed rl identifier ty (Some rule) cost e =
    (Ok (fst (_redis_rate_limit r (key_of identifier ty) rule cost
                (readings e (tick e)) (later 1 e))),
     set_redis rl
       (snd (_redis_rate_limit r (key_of identifier ty) rule cost
               (readings e (tick e)) (later 1 e))),
     later 1 e).
Proof.
  intros Hr. unfold is_allowed. rewrite time_time_later, Hr.
  fold (key_of identifier ty).
  destruct (_redis_rate_limit _ _ _ _ _ _); reflexivity.
Qed.

Lemma request_ids_cons (q : request) (rest : list request) (e : Env) :
  request_ids (q :: rest) e =
    (readings e (tick e), req_task q)
    :: request_ids rest (later 1 (as_task (req_task q) e)).
Proof.
  unfold request_ids. cbn [length List.map].
  rewrite next_readings_S. reflexivity.
Qed.

Lemma existsb_false_In (id : Redis.member) (ids : list Redis.member) :
  existsb (Redis.member_eqb id) ids = false ->
  forall m, In m ids -> Redis.member_eqb m id = false.
Proof.
  induction ids as [|x ids IH]; intros H m Hin; [destruct Hin|].
  simpl in H. apply orb_false_iff in H as [Hx Hrest].
  destruct Hin as [<- | Hin].
  - rewrite member_eqb_sym. exact Hx.
  - apply IH; assumption.
Qed.

(** The two variants give the same verdicts along a sequence of
    requests, from states that agree. *)
Lemma serve_agrees (identifier : string) (ty : RateLimitType)
    (rule : RateLimitRule.t) :
  RateLimitRule.has_burst rule = false ->
  RateLimitRule.cost_per_request rule == 1 ->
  forall (reqs : list request) (local store : t) (r : Redis.t)
         (last : Q) (used : list Redis.member) (e : Env),
    redis_client local = None -> redis_client store = Some r ->
    agree rule (key_of identifier ty)
      (default [] (local_windows local !! key_of identifier ty))
      r last used ->
    monotone_clock e ->
    last <= readings e (tick e) -> 0 <= readings e (tick e) ->
    Forall (fun m => forall u, In u used -> Redis.member_eqb m u = false)
      (request_ids reqs e) ->
    distinct_members (request_ids reqs e) = true ->
    List.map verdict
      (fst (fst (serve reqs store identifier ty (Some rule) e))) =
    List.map verdict
      (fst (fst (serve reqs local identifier ty (Some rule) e))).
Proof.
  intros Hb Hcpr. induction reqs as [|q rest IH];
    intros local store r last used e Hl Hs Hagree Hm Hlast Hnow Hfresh Hdist;
    [reflexivity|].
  rewrite request_ids_cons in Hfresh, Hdist.
  inversion Hfresh as [|? ? Hid Hrest]; subst.
  cbn [distinct_members] in Hdist.
  apply andb_true_iff in Hdist as [Hnew Hdist].
  apply negb_true_iff in Hnew.
  cbn [serve].
  rewrite (is_allowed_store store r) by exact Hs.
  rewrite (is_allowed_window local) by assumption.
  set (e0 := as_task (req_task q) e) in *.
  change (readings e0 (tick e0)) with (readings e (tick e)).
  set (now := readings e (tick e)) in *.
  destruct (store_step_agrees rule (key_of identifier ty) _ r last used
              (req_cost q) now (later 1 e0) Hcpr Hagree Hlast Hnow Hid)
    as [Hv Hagree'].
  set (res_s := _redis_rate_limit r (key_of identifier ty) rule (req_cost q)
                  now (later 1 e0)) in *.
  set (res_l := sliding_window
                  (default [] (local_windows local !! key_of identifier ty))
                  rule (req_cost q) now) in *.
  specialize (IH (set_window local (key_of identifier ty) (snd res_l))
                 (set_redis store (snd res_s)) (snd res_s) now
                 ((now, req_task q) :: used) (later 1 e0)).
  rewrite set_window_lookup in IH. cbn [default] in IH.
  assert (now <= readings e (tick e + 1)%nat) as Hnext
    by (apply Hm; lia).
  specialize (IH Hl eq_refl Hagree' Hm Hnext ltac:(simpl; lra)).
  assert (Forall
            (fun m => forall u, In u ((now, req_task q) :: used) ->
                                Redis.member_eqb m u = false)
            (request_ids rest (later 1 e0))) as Hfresh'.
  { apply List.Forall_forall. intros m Hin u [<- | Hu].
    - apply (existsb_false_In _ _ Hnew). exact Hin.
    - rewrite List.Forall_forall in Hrest. apply (Hrest m Hin u Hu). }
  specialize (IH Hfresh' Hdist).
  destruct (serve rest (set_redis store (snd res_s)) identifier ty
              (Some rule) (later 1 e0)) as [[rs_s rl_s] e_s].
  destruct (serve rest (set_window local (key_of identifier ty) (snd res_l))
              identifier ty (Some rule) (later 1 e0)) as [[rs_l rl_l] e_l].
  cbn [fst snd List.map] in *. rewrite IH, Hv. reflexivity.
Qed.

End StoreAgreement.

(** C4, as it is stated, fails. Two requests at t=0 under a rule of
    limit 1 per 60 s with a burst allowance of 2: the local variant
    serves them from a token bucket of capacity 2 and admits both, the
    store-backed variant has no bucket and denies the second. Three
    requests at t=0 under a rule of limit 3 per 60 s with
    [cost_per_request] 2: the local variant ignores the weight and admits
    the three, the store-backed variant counts every earlier request
    twice and denies the third. *)
Lemma store_and_local_differ :
  let burst := RateLimitRule.mk 1 60 (Some 2%Z) 1 false in
  let weighted := RateLimitRule.mk 3 60 None 2 false in
  let reqs := [mkreq 1 1; mkreq 2 1; mkreq 3 1] in
  let run (redis_client : option Redis.t) (rule : RateLimitRule.t)
          (reqs : list request) :=
    List.map verdict
      (fst (fst (serve reqs (RateLimiter.init redis_client) "client"
                   REQUESTS_PER_MINUTE (Some rule) (env_at [0])))) in
  (run None burst (List.firstn 2 reqs) =
     [Some (true, 1%Z, None); Some (true, 0%Z, None)] /\
   run (Some Redis.empty) burst (List.firstn 2 reqs) =
     [Some (true, 0%Z, None); Some (false, 0%Z, Some 60%Z)]) /\
  (run None weighted reqs =
     [Some (true, 2%Z, None); Some (true, 1%Z, None);
      Some (true, 0%Z, None)] /\
   run (Some Redis.empty) weighted reqs =
     [Some (true, 2%Z, None); Some (true, 0%Z, None);
      Some (false, 0%Z, Some 60%Z)]).
Proof.
  vm_compute. repeat split.
Qed.

(** Why the agreement below asks for distinct request ids, for a clock
    that does not run backwards and for times that are not negative.
    - Three requests of one task at one time share their request id: the
      compensating ZREM of the second removes the entry of the first,
      and the store-backed variant admits the third.
    - With the times 10, 5, 66 the local deque is out of order and keeps
      the entry 5 behind the entry 10, while the store has dropped the
      key, whose expiry was set at time 5.
    - ZREMRANGEBYSCORE starts at score 0 and keeps an entry of negative
      score: with the times -100, -50, -35 the local window drops the
      entry -100 and the store keeps it. *)
Lemma store_and_local_differ_outside_the_conditions :
  let run (redis_client : option Redis.t) (rule : RateLimitRule.t)
          (reqs : list request) (times : list Q) :=
    List.map verdict
      (fst (fst (serve reqs (RateLimiter.init redis_client) "client"
                   REQUESTS_PER_MINUTE (Some rule) (env_at times)))) in
  let same_task := [mkreq 1 1; mkreq 1 1; mkreq 1 1] in
  let tasks := [mkreq 1 1; mkreq 2 1; mkreq 3 1] in
  (run None (RateLimitRule.plain 1 60) same_task [0] =
     [Some (true, 0%Z, None); Some (false, 0%Z, Some 60%Z);
      Some (false, 0%Z, Some 60%Z)] /\
   run (Some Redis.empty) (RateLimitRule.plain 1 60) same_task [0] =
     [Some (true, 0%Z, None); Some (false, 0%Z, Some 60%Z);
      Some (true, 0%Z, None)]) /\
  (List.nth 2 (run None (RateLimitRule.plain 2 60) tasks [10; 5; 66]) None =
     Some (false, 0%Z, Some 4%Z) /\
   List.nth 2 (run (Some Redis.empty) (RateLimitRule.plain 2 60) tasks
                 [10; 5; 66]) None =
     Some (true, 1%Z, None)) /\
  (List.nth 2 (run None (RateLimitRule.plain 2 60) tasks [-100; -50; -35])
     None =
     Some (true, 0%Z, None) /\
   List.nth 2 (run (Some Redis.empty) (RateLimitRule.plain 2 60) tasks
                 [-100; -50; -35]) None =
     Some (false, 0%Z, Some 1%Z)).
Proof.
  vm_compute. repeat split.
Qed.

(** C4, amended. For every identifier, limit type and rule without burst
    allowance and with [cost_per_request] 1, and every sequence of
    requests of any costs, served one after the other from fresh state
    at times that are not negative and do not decrease, under request
    ids that are pairwise distinct: the store-backed variant and the
    local variant return the same allowed flag, remaining count and
    [retry_after] for every request. *)
Theorem store_window_agrees_with_local_window
    (identifier : string) (ty : RateLimitType) (rule : RateLimitRule.t)
    (reqs : list request) (e : Env) :
  RateLimitRule.has_burst rule = false ->
  RateLimitRule.cost_per_request rule == 1 ->
  monotone_clock e ->
  0 <= readings e (tick e) ->
  distinct_members (request_ids reqs e) = true ->
  List.map verdict
    (fst (fst (serve reqs (RateLimiter.init (Some Redis.empty)) identifier ty
                 (Some rule) e))) =
  List.map verdict
    (fst (fst (serve reqs (RateLimiter.init None) identifier ty
                 (Some rule) e))).
Proof.
  intros Hb Hcpr Hm Hnow Hdist.
  apply (serve_agrees identifier ty rule Hb Hcpr reqs
           (RateLimiter.init None) (RateLimiter.init (Some Redis.empty))
           Redis.empty (readings e (tick e)) [] e);
    try reflexivity; try assumption.
  - split; [constructor|]. split; [constructor|]. right. reflexivity.
  - lra.
  - apply List.Forall_forall. intros m _ u [].
Qed.

Lemma store_window_agrees_with_local_window_witness :
  let reqs := [mkreq 1 1; mkreq 2 1; mkreq 3 1; mkreq 4 1; mkreq 5 (1 # 2)] in
  let e := env_at [0; 10; 20; 65; 70] in
  List.map verdict
    (fst (fst (serve reqs (RateLimiter.init (Some Redis.empty)) "client"
                 REQUESTS_PER_MINUTE (Some (RateLimitRule.plain 2 60)) e))) =
  List.map verdict
    (fst (fst (serve reqs (RateLimiter.init None) "client"
                 REQUESTS_PER_MINUTE (Some (RateLimitRule.plain 2 60)) e))).
Proof.
  apply (store_window_agrees_with_local_window "client" REQUESTS_PER_MINUTE
           (RateLimitRule.plain 2 60)).
  - reflexivity.
  - reflexivity.
  - apply scripted_monotone. reflexivity.
  - vm_compute. discriminate.
  - reflexivity.
Defined.

(** ** DDoSProtection *)

Section DDoSFacts.

Import DDoSProtection.

Lemma younger_lookup (now : Q) (age : Z) (m : gmap string Q)
    (k : string) (ts : Q) :
  younger now age m !! k = Some ts <->
  m !! k = Some ts /\ now - ts < inject_Z age.
Proof.
  unfold younger. rewrite map_lookup_filter_Some. simpl.
  rewrite Is_true_true, Qlt_bool_iff. reflexivity.
Qed.

(** A blocked address within its 24 hours is reported at once; the
    maps are pruned and nothing else changes. *)
Lemma is_suspicious_blocked (d : t) (ip : string) (e : Env) (b : Q) :
  blocked_ips d !! ip = Some b ->
  readings e (tick e) - b < 86400 ->
  is_suspicious d ip e =
    (true,
     mk (younger (readings e (tick e)) 3600 (suspicious_ips d))
        (younger (readings e (tick e)) 86400 (blocked_ips d)),
     later 1 e).
Proof.
  intros Hb Hage. unfold is_suspicious. rewrite time_time_later.
  assert (younger (readings e (tick e)) 86400 (blocked_ips d) !! ip = Some b)
    as -> by (apply younger_lookup; split; assumption).
  reflexivity.
Qed.

(** Every call made within 24 hours of the block keeps the block. *)
Lemma ddos_step_keeps_block (d : t) (c : ddos_call) (e : Env)
    (ip : string) (b : Q) :
  blocked_ips d !! ip = Some b ->
  readings e (tick e) - b < 86400 ->
  blocked_ips (fst (ddos_step d c e)) !! ip = Some b /\
  snd (ddos_step d c e) = later 1 e.
Proof.
  intros Hb Hage. destruct c as [ip0|ip0]; unfold ddos_step.
  - unfold is_suspicious. rewrite time_time_later.
    set (now := readings e (tick e)) in *.
    assert (younger now 86400 (blocked_ips d) !! ip = Some b) as Hkept
      by (apply younger_lookup; split; assumption).
    destruct (younger now 86400 (blocked_ips d) !! ip0) as [b0|] eqn:E0;
      [simpl; split; [exact Hkept | reflexivity]|].
    assert (ip0 <> ip) as Hne by (intros ->; congruence).
    destruct (younger now 3600 (suspicious_ips d) !! ip0) as [f|];
      [destruct (Qlt_bool (now - f) 300)|]; simpl;
      (split; [|reflexivity]); try exact Hkept.
    rewrite lookup_insert_ne by exact Hne. exact Hkept.
  - unfold mark_suspicious. rewrite time_time_later. simpl.
    split; [exact Hb | reflexivity].
Qed.

Lemma ddos_run_keeps_block (calls : list ddos_call) (ip : string) (b : Q) :
  forall (d : t) (e : Env),
    blocked_ips d !! ip = Some b ->
    (forall i : nat, (i < length calls)%nat ->
                     readings e (tick e + i)%nat - b < 86400) ->
    blocked_ips (fst (ddos_run d calls e)) !! ip = Some b /\
    snd (ddos_run d calls e) = later (length calls) e.
Proof.
  induction calls as [|c rest IH]; intros d e Hb Hages.
  - simpl. split; [exact Hb|]. unfold later. destruct e; simpl.
    rewrite Nat.add_0_r. reflexivity.
  - assert (readings e (tick e) - b < 86400) as H0.
    { specialize (Hages 0%nat). rewrite Nat.add_0_r in Hages.
      apply Hages. simpl. lia. }
    destruct (ddos_step_keeps_block d c e ip b Hb H0) as [Hb1 He1].
    simpl. destruct (ddos_step d c e) as [d1 e1]. simpl in Hb1, He1.
    subst e1.
    destruct (IH d1 (later 1 e) Hb1) as [Hb2 He2].
    { intros i Hi. simpl.
      replace (tick e + 1 + i)%nat with (tick e + S i)%nat by lia.
      apply Hages. simpl. lia. }
    split; [exact Hb2|]. rewrite He2, later_later. reflexivity.
Qed.

End DDoSFacts.

(** C9. [mark_suspicious(ip)] at time [t], then [is_suspicious(ip)] at
    time [t'].
    - The call prunes first: it keeps the suspicion entries younger than
      3600 s and no block entry of 86400 s or more remains.
    - If [t' - t < 300], the call returns true and [ip] is blocked
      afterwards, since [t'] or, when it was blocked already, since its
      block time [b]; thereafter, along any calls of [is_suspicious] and
      [mark_suspicious] made within 86400 s of [b], every
      [is_suspicious(ip)] made within 86400 s of [b] returns true.
    - Any address that is blocked since less than 86400 s is reported
      true at once, the state being only pruned. *)
Theorem ddos_escalation (d : DDoSProtection.t) (ip : string) (e : Env) :
  let t := readings e (tick e) in
  let t' := readings e (S (tick e)) in
  let (d1, e1) := DDoSProtection.mark_suspicious d ip e in
  let '(res, d2, e2) := DDoSProtection.is_suspicious d1 ip e1 in
  (DDoSProtection.suspicious_ips d2 =
     DDoSProtection.younger t' 3600 (DDoSProtection.suspicious_ips d1) /\
   (forall (k : string) (ts : Q),
       DDoSProtection.blocked_ips d2 !! k = Some ts -> t' - ts < 86400)) /\
  (t' - t < 300 ->
   res = true /\
   exists b : Q,
     DDoSProtection.blocked_ips d2 !! ip = Some b /\
     t' - b < 86400 /\
     (b = t' \/ DDoSProtection.blocked_ips d !! ip = Some b) /\
     forall calls : list ddos_call,
       (forall i : nat, (i <= length calls)%nat ->
                        readings e (tick e + 2 + i)%nat - b < 86400) ->
       let (d3, e3) := ddos_run d2 calls e2 in
       fst (fst (DDoSProtection.is_suspicious d3 ip e3)) = true) /\
  (forall (d' : DDoSProtection.t) (ip' : string) (e' : Env) (b : Q),
      DDoSProtection.blocked_ips d' !! ip' = Some b ->
      readings e' (tick e') - b < 86400 ->
      DDoSProtection.is_suspicious d' ip' e' =
        (true,
         DDoSProtection.mk
           (DDoSProtection.younger (readings e' (tick e')) 3600
              (DDoSProtection.suspicious_ips d'))
           (DDoSProtection.younger (readings e' (tick e')) 86400
              (DDoSProtection.blocked_ips d')),
         later 1 e')).
Proof.
  intros t t'. unfold DDoSProtection.mark_suspicious.
  rewrite time_time_later. fold t.
  unfold DDoSProtection.is_suspicious. rewrite time_time_later.
  change (readings (later 1 e) (tick (later 1 e)))
    with (readings e (tick e + 1)%nat).
  replace (tick e + 1)%nat with (S (tick e)) by lia. fold t'.
  cbn [DDoSProtection.suspicious_ips DDoSProtection.blocked_ips].
  set (susp := DDoSProtection.younger t' 3600
                 (<[ip := t]> (DDoSProtection.suspicious_ips d))).
  set (blocked := DDoSProtection.younger t' 86400
                    (DDoSProtection.blocked_ips d)).
  assert (forall k ts, blocked !! k = Some ts -> t' - ts < 86400) as Hyoung.
  { intros k ts H. apply younger_lookup in H as [_ H]. exact H. }
  assert (forall calls (d2 : DDoSProtection.t) (b : Q),
            DDoSProtection.blocked_ips d2 !! ip = Some b ->
            (forall i : nat, (i <= length calls)%nat ->
                             readings e (tick e + 2 + i)%nat - b < 86400) ->
            let (d3, e3) := ddos_run d2 calls (later 1 (later 1 e)) in
            fst (fst (DDoSProtection.is_suspicious d3 ip e3)) = true)
    as Hafter.
  { intros calls d2 b Hb Hages.
    destruct (ddos_run_keeps_block calls ip b d2 (later 1 (later 1 e)) Hb)
      as [Hb3 He3].
    { intros i Hi. simpl.
      replace (tick e + 1 + 1 + i)%nat with (tick e + 2 + i)%nat by lia.
      apply Hages. lia. }
    destruct (ddos_run d2 calls (later 1 (later 1 e))) as [d3 e3].
    simpl in Hb3, He3. subst e3.
    rewrite (is_suspicious_blocked d3 ip _ b Hb3); [reflexivity|].
    simpl.
    replace (tick e + 1 + 1 + length calls)%nat
      with (tick e + 2 + length calls)%nat by lia.
    apply Hages. lia. }
  destruct (blocked !! ip) as [b|] eqn:Eb.
  - split; [split; [reflexivity | exact Hyoung]|]. split.
    + intros _. split; [reflexivity|]. exists b.
      split; [exact Eb|]. split; [apply (Hyoung ip b Eb)|]. split.
      * right. apply younger_lookup in Eb as [Eb _]. exact Eb.
      * intros calls Hages. apply (Hafter calls _ b); [exact Eb | exact Hages].
    + intros d' ip' e' b'. apply is_suspicious_blocked.
  - destruct (susp !! ip) as [f|] eqn:Ef.
    + apply younger_lookup in Ef as [Ef Hf].
      rewrite lookup_insert_eq in Ef. injection Ef as <-.
      destruct (Qlt_bool (t' - t) 300) eqn:E300.
      * split; [split; [reflexivity|]|].
        { cbn [DDoSProtection.blocked_ips]. intros k ts H.
          destruct (decide (ip = k)) as [<-|Hne].
          - rewrite lookup_insert_eq in H. injection H as <-. lra.
          - rewrite lookup_insert_ne in H by exact Hne.
            apply (Hyoung k ts H). }
        split; [|intros d' ip' e' b'; apply is_suspicious_blocked].
        intros _. split; [reflexivity|]. exists t'.
        cbn [DDoSProtection.blocked_ips]. rewrite lookup_insert_eq.
        split; [reflexivity|]. split; [lra|]. split; [left; reflexivity|].
        intros calls Hages. apply (Hafter calls _ t'); [|exact Hages].
        cbn [DDoSProtection.blocked_ips]. apply lookup_insert_eq.
      * split; [split; [reflexivity | exact Hyoung]|].
        split; [|intros d' ip' e' b'; apply is_suspicious_blocked].
        intros H300. apply Qlt_bool_iff in H300. congruence.
    + split; [split; [reflexivity | exact Hyoung]|].
      split; [|intros d' ip' e' b'; apply is_suspicious_blocked].
      intros H300. exfalso.
      assert (susp !! ip = Some t) as Hs.
      { apply younger_lookup. split; [apply lookup_insert_eq|].
        change (inject_Z 3600) with 3600. lra. }
      congruence.
Qed.

(** An address flagged at t=0 and checked at t=100 is blocked; after a
    check of another address at t=200 and a new flag at t=5000 it is
    still reported at t=80000. *)
Lemma ddos_escalation_witness :
  let e := env_at [0; 100; 200; 5000; 80000] in
  let (d1, e1) :=
    DDoSProtection.mark_suspicious DDoSProtection.init "10.0.0.1" e in
  let '(res, d2, e2) := DDoSProtection.is_suspicious d1 "10.0.0.1" e1 in
  res = true /\
  let (d3, e3) :=
    ddos_run d2 [IsSuspicious "10.0.0.2"; MarkSuspicious "10.0.0.1"] e2 in
  fst (fst (DDoSProtection.is_suspicious d3 "10.0.0.1" e3)) = true.
Proof.
  intros e.
  pose proof (ddos_escalation DDoSProtection.init "10.0.0.1" e) as H.
  cbv zeta in H. revert H.
  destruct (DDoSProtection.mark_suspicious DDoSProtection.init "10.0.0.1" e)
    as [d1 e1].
  destruct (DDoSProtection.is_suspicious d1 "10.0.0.1" e1) as [[res d2] e2].
  intros (_ & H & _).
  destruct H as (Hres & b & _ & _ & Hsince & Hcalls);
    [vm_compute; reflexivity|].
  split; [exact Hres|]. apply Hcalls.
  destruct Hsince as [-> | Hold]; [|discriminate Hold].
  intros i Hi.
  destruct i as [|[|[|i]]]; [vm_compute; reflexivity .. |simpl in Hi; lia].
Defined.

(** ** AuthManager *)

Section AuthFacts.

Import AuthManager.

(** A credential that fails the shape checks is refused by its format,
    before any lookup. *)
Lemma authenticate_malformed (self : t) (api_key : string)
    (client_ip : option string) (e : Env) :
  has_prefix self api_key = false \/ length (segments api_key) <> 4%nat ->
  authenticate_api_key self api_key client_ip e =
    (AuthResult.failure "Invalid API key format", self, [], e).
Proof.
  intros H. unfold authenticate_api_key, parse.
  fold (has_prefix self api_key). fold (segments api_key).
  destruct (has_prefix self api_key); [|reflexivity].
  destruct H as [H | H]; [discriminate H|].
  apply Nat.eqb_neq in H. rewrite H. reflexivity.
Qed.

(** The key identifier of a credential of the right shape is its third
    segment. *)
Lemma parse_well_formed (self : t) (api_key : string) :
  has_prefix self api_key = true -> length (segments api_key) = 4%nat ->
  parse self api_key = Some (List.nth 2 (segments api_key) EmptyString).
Proof.
  intros Hp Hl. unfold parse.
  fold (has_prefix self api_key). fold (segments api_key).
  rewrite Hp. apply Nat.eqb_eq in Hl. rewrite Hl. reflexivity.
Qed.

(** A record whose hash is not the hash of the credential is refused
    as an invalid key. *)
Lemma verify_mismatch (self : t) (api_key key_id : string)
    (client_ip : option string) (record : APIKey.t) (e : Env) :
  SHA256.hexdigest api_key <> APIKey.key_hash record ->
  verify self api_key key_id client_ip record e =
    (AuthResult.failure "Invalid API key", self, [], e).
Proof.
  intros H. unfold verify.
  apply String.eqb_neq in H. rewrite H. reflexivity.
Qed.

End AuthFacts.

(** C1, evaluated. The random bytes 0, 0, 63 and then zeros give the key
    identifier "AAA_AAAAAAAAAAAAAAAAAA": the credential has five
    segments, its third segment is not the key identifier, and
    authentication of the credential that was just generated, with the
    record stored, not expired and without allow-list, fails with the
    format error. *)
Theorem generated_key_with_underscore_is_rejected :
  let mgr := AuthManager.init (Some KeyStore.empty) "secret" in
  let e := env_with 1000 [0; 0; 63]%N in
  let '((K, R), mgr1, e1) :=
    AuthManager.generate_api_key mgr "u1" UserRole.BASIC APIKeyType.STANDARD
      "" None e in
  let '(result, _, _, _) := AuthManager.authenticate_api_key mgr1 K None e1 in
  K = ("gojjo_mcp_AAA_AAAAAAAAAAAAAAAAAA_"
       +:+ "AAAAAAAAAAAAAAAAAAAAAAAAAAAAAAAAAAAAAAAAAAA")%string /\
  APIKey.key_id R = "AAA_AAAAAAAAAAAAAAAAAA"%string /\
  APIKey.user_id R = "u1"%string /\
  APIKey.role R = UserRole.BASIC /\
  APIKey.ip_whitelist R = [] /\
  APIKey.expires_at R = Some (1000 + 2592000) /\
  (exists r1 : KeyStore.t,
      AuthManager.redis_client mgr1 = Some r1 /\
      fst (KeyStore.get r1 (AuthManager.store_key (APIKey.key_id R)) e1)
        = Some R) /\
  segments K =
    ["gojjo"; "mcp"; "AAA"; "AAAAAAAAAAAAAAAAAA";
     "AAAAAAAAAAAAAAAAAAAAAAAAAAAAAAAAAAAAAAAAAAA"]%string /\
  result = AuthResult.failure "Invalid API key format".
Proof.
  vm_compute. repeat split. eexists. split; reflexivity.
Qed.

(** C2, as it is stated, fails. A key is generated and stored; the
    credential with its last character altered is of the right shape,
    resolves to the stored record and fails on the hash with the reason
    "Invalid API key"; a credential of three segments and a credential
    with another prefix fail with the reason "Invalid API key format".
    The caller tells the two failures apart. *)
Lemma format_and_mismatch_reasons_differ :
  let mgr := AuthManager.init (Some KeyStore.empty) "secret" in
  let e := env_with 1000 [] in
  let '((K, R), mgr1, e1) :=
    AuthManager.generate_api_key mgr "u1" UserRole.BASIC APIKeyType.STANDARD
      "" None e in
  let altered :=
    ("gojjo_mcp_AAAAAAAAAAAAAAAAAAAAAA_"
     +:+ "AAAAAAAAAAAAAAAAAAAAAAAAAAAAAAAAAAAAAAAAAAB")%string in
  let reason (api_key : string) :=
    AuthResult.error
      (fst (fst (fst (AuthManager.authenticate_api_key mgr1 api_key None e1))))
  in
  K = ("gojjo_mcp_AAAAAAAAAAAAAAAAAAAAAA_"
       +:+ "AAAAAAAAAAAAAAAAAAAAAAAAAAAAAAAAAAAAAAAAAAA")%string /\
  AuthManager.parse mgr1 altered = Some (APIKey.key_id R) /\
  fst (AuthManager.find_key mgr1 (APIKey.key_id R) e1) = inr R /\
  reason altered = Some "Invalid API key"%string /\
  reason "gojjo_mcp_AAAAAAAAAAAAAAAAAAAAAA" =
    Some "Invalid API key format"%string /\
  reason "gojjo-mcp-AAAAAAAAAAAAAAAAAAAAAA-AAAA" =
    Some "Invalid API key format"%string /\
  reason altered <> reason "gojjo_mcp_AAAAAAAAAAAAAAAAAAAAAA".
Proof.
  vm_compute. repeat split. discriminate.
Qed.

(** C2, amended. For every malformed credential (wrong prefix, or not
    four segments) and every credential of the right shape whose
    identifier resolves to a record with another hash, both results have
    [success=False] and carry no identity, the anonymous role, no key
    record and no rate-limit profile, and neither call changes the
    manager or schedules a write; the reasons are not the same: "Invalid
    API key format" for the malformed credential, "Invalid API key" for
    the hash mismatch. *)
Theorem failures_differ_only_in_reason
    (self : AuthManager.t) (malformed credential : string)
    (ip ip' : option string) (e e' e1 : Env) (record : APIKey.t) :
  has_prefix self malformed = false \/ length (segments malformed) <> 4%nat ->
  has_prefix self credential = true ->
  length (segments credential) = 4%nat ->
  AuthManager.find_key self (List.nth 2 (segments credential) EmptyString) e'
    = (inr record, e1) ->
  SHA256.hexdigest credential <> APIKey.key_hash record ->
  AuthManager.authenticate_api_key self malformed ip e =
    (AuthResult.mk false None UserRole.ANONYMOUS None
       (Some "Invalid API key format"%string) None, self, [], e) /\
  AuthManager.authenticate_api_key self credential ip' e' =
    (AuthResult.mk false None UserRole.ANONYMOUS None
       (Some "Invalid API key"%string) None, self, [], e1) /\
  AuthResult.error
    (fst (fst (fst (AuthManager.authenticate_api_key self malformed ip e))))
  <> AuthResult.error
       (fst (fst (fst (AuthManager.authenticate_api_key self credential ip'
                         e')))).
Proof.
  intros Hbad Hp Hl Hfind Hhash.
  assert (AuthManager.authenticate_api_key self credential ip' e' =
            (AuthResult.failure "Invalid API key", self, [], e1)) as Hw.
  { unfold AuthManager.authenticate_api_key.
    rewrite (parse_well_formed self credential Hp Hl), Hfind.
    apply verify_mismatch. exact Hhash. }
  rewrite (authenticate_malformed self malformed ip e Hbad), Hw.
  split; [reflexivity|]. split; [reflexivity|].
  simpl. discriminate.
Qed.

Lemma failures_differ_only_in_reason_witness :
  let generated :=
    AuthManager.generate_api_key (AuthManager.init (Some KeyStore.empty) "secret")
      "u1" UserRole.BASIC APIKeyType.STANDARD "" None (env_with 1000 []) in
  let self := snd (fst generated) in
  let e := snd generated in
  let altered :=
    ("gojjo_mcp_AAAAAAAAAAAAAAAAAAAAAA_"
     +:+ "AAAAAAAAAAAAAAAAAAAAAAAAAAAAAAAAAAAAAAAAAAB")%string in
  AuthManager.authenticate_api_key self "gojjo_mcp_AAAAAAAAAAAAAAAAAAAAAA"
    None e =
    (AuthResult.mk false None UserRole.ANONYMOUS None
       (Some "Invalid API key format"%string) None, self, [], e) /\
  AuthManager.authenticate_api_key self altered None e =
    (AuthResult.mk false None UserRole.ANONYMOUS None
       (Some "Invalid API key"%string) None, self, [], later 1 e) /\
  AuthResult.error
    (fst (fst (fst (AuthManager.authenticate_api_key self
                      "gojjo_mcp_AAAAAAAAAAAAAAAAAAAAAA" None e))))
  <> AuthResult.error
       (fst (fst (fst (AuthManager.authenticate_api_key self altered None e)))).
Proof.
  intros generated self e altered.
  apply (failures_differ_only_in_reason self
           "gojjo_mcp_AAAAAAAAAAAAAAAAAAAAAA" altered None None e e (later 1 e)
           (snd (fst (fst generated)))).
  - right. vm_compute. discriminate.
  - vm_compute. reflexivity.
  - vm_compute. reflexivity.
  - vm_compute. reflexivity.
  - vm_compute. discriminate.
Defined.

(** The round trip holds for the generated keys that do parse: when the
    credential has four segments, the third being the key identifier,
    the record is still stored and its expiry is not passed,
    authentication succeeds with the owner and the role of the key. The
    generated keys that fail are those that do not parse: a key
    identifier or a secret with an underscore in it. *)
Lemma round_trip_when_four_segments
    (store : KeyStore.t) (secret user_id description : string)
    (role : UserRole.t) (key_type : APIKeyType.t)
    (client_ip : option string) (e : Env) :
  let mgr := AuthManager.init (Some store) secret in
  let '((K, R), mgr1, e1) :=
    AuthManager.generate_api_key mgr user_id role key_type description None e
  in
  length (segments K) = 4%nat ->
  List.nth 2 (segments K) EmptyString = APIKey.key_id R ->
  (exists r1 : KeyStore.t,
      AuthManager.redis_client mgr1 = Some r1 /\
      fst (KeyStore.get r1 (AuthManager.store_key (APIKey.key_id R)) e1)
        = Some R) ->
  (forall deadline : Q,
      APIKey.expires_at R = Some deadline ->
      readings e1 (S (tick e1)) <= deadline) ->
  let '(result, _, _, _) :=
    AuthManager.authenticate_api_key mgr1 K client_ip e1 in
  AuthResult.success result = true /\
  AuthResult.user_id result = Some user_id /\
  AuthResult.role result = role.
Proof.
  intros mgr.
  destruct (AuthManager.generate_api_key mgr user_id role key_type
              description None e) as [[[K R] mgr1] e1] eqn:Egen.
  intros Hlen Hnth (r1 & Hr1 & Hget) Hexp.
  assert (has_prefix mgr1 K = true /\ AuthManager.key_cache mgr1 = ∅ /\
          APIKey.key_hash R = SHA256.hexdigest K /\
          APIKey.is_active R = true /\ APIKey.ip_whitelist R = [] /\
          APIKey.user_id R = user_id /\ APIKey.role R = role)
    as (Hp & Hcache & Hhash & Hact & Hips & Huser & Hrole).
  { unfold AuthManager.generate_api_key in Egen.
    destruct (Secrets.token_urlsafe 16 e) as [key_id e2].
    destruct (Secrets.token_urlsafe 32 e2) as [raw_key e3].
    destruct (AuthManager.expiry key_type e3) as [expires_at e4].
    destruct (time_time e4) as [created_at e5].
    cbn [AuthManager.redis_client mgr AuthManager.init] in Egen.
    destruct (KeyStore.setex store _ _ _ e5) as [r2 e6].
    injection Egen as <- <- <- <-.
    split; [|repeat split; reflexivity].
    unfold has_prefix. simpl.
    destruct (key_id +:+ "_" +:+ raw_key)%string; reflexivity. }
  unfold AuthManager.authenticate_api_key.
  rewrite (parse_well_formed mgr1 K Hp Hlen), Hnth.
  unfold AuthManager.find_key. rewrite Hcache, lookup_empty, Hr1.
  destruct (KeyStore.get r1 (AuthManager.store_key (APIKey.key_id R)) e1)
    as [found e2] eqn:Eget.
  cbn [fst] in Hget. subst found.
  assert (e2 = later 1 e1) as ->.
  { unfold KeyStore.get in Eget. rewrite time_time_later in Eget.
    injection Eget as _ <-. reflexivity. }
  unfold AuthManager.verify.
  rewrite Hhash, String.eqb_refl, Hact, Hips. cbn [negb].
  destruct (APIKey.expires_at R) as [deadline|] eqn:Ed.
  - rewrite time_time_later.
    assert (Qlt_bool deadline (readings (later 1 e1) (tick (later 1 e1)))
            = false) as ->.
    { apply Qlt_bool_false_iff. simpl.
      replace (tick e1 + 1)%nat with (S (tick e1)) by lia.
      apply Hexp. reflexivity. }
    rewrite !time_time_later. cbn. rewrite Huser, Hrole. auto.
  - rewrite !time_time_later. cbn. rewrite Huser, Hrole. auto.
Qed.

(** * Further properties *)

(** ** TokenBucket: the wait time *)



(** ** CircuitBreaker: what every breaker keeps *)

Section BreakerInvariant.

Import CircuitBreaker.
Context {W R : Type}.

Lemma before_call_not_open (cb cb1 : t) (e e1 : Env) :
  before_call cb e = (Ok cb1, e1) ->
  state cb1 <> OPEN /\ failure_threshold cb1 = failure_threshold cb /\
  failure_count cb1 = failure_count cb.
Proof.
  unfold before_call. destruct (state cb) eqn:Es.
  - intros H. injection H as <- _. rewrite Es. repeat split. discriminate.
  - destruct (time_time e) as [now e2].
    destruct (last_failure_time cb) as [since|]; [|discriminate].
    destruct (Qlt_bool _ _).
    + intros H. injection H as <- _. simpl. repeat split. discriminate.
    + destruct (time_time e2). discriminate.
  - intros H. injection H as <- _. rewrite Es. repeat split. discriminate.
Qed.

Lemma call_keeps_justified (cb : t) (func : W -> Res R * W) (w : W)
    (e : Env) :
  open_is_justified cb ->
  open_is_justified (snd (fst (fst (call cb func w e)))).
Proof.
  intros Hinv. unfold call.
  destruct (before_call cb e) as [[cb1|x] e1] eqn:Eb; [|exact Hinv].
  destruct (before_call_not_open cb cb1 e e1 Eb) as (Hstate & Hth & Hcount).
  destruct (func w) as [[r|x] w1]; cbn [fst snd].
  - unfold open_is_justified, on_success. simpl.
    destruct (state cb1); intros H; try discriminate H.
    exfalso. apply Hstate. reflexivity.
  - destruct (expected_exception cb1 x).
    + unfold on_failure. destruct (time_time e1) as [now e2]. cbn [fst snd].
      unfold open_is_justified. simpl.
      destruct (failure_threshold cb1 <=? failure_count cb1 + 1)%Z eqn:El.
      * intros _. split; [eexists; reflexivity|]. apply Z.leb_le. exact El.
      * intros H. exfalso. apply Hstate. exact H.
    + intros H. exfalso. apply Hstate. exact H.
Qed.

End BreakerInvariant.

(** X2. Every breaker that [__init__] and [call] produce, whatever the
    protected functions did, keeps this: when it is OPEN it has a last
    failure time and at least [failure_threshold] failures on its count.
    So the subtraction [time.time() - self.last_failure_time] of [call]
    never meets [None]: [call] raises no [TypeError] of its own. *)
Theorem open_breaker_has_a_failure_time {W R : Type}
    (cb : CircuitBreaker.t) :
  @reachable_breaker W R cb ->
  (CircuitBreaker.state cb = CircuitBreaker.OPEN ->
   (exists since : Q, CircuitBreaker.last_failure_time cb = Some since) /\
   (CircuitBreaker.failure_threshold cb <= CircuitBreaker.failure_count cb)%Z)
  /\
  (forall e : Env, fst (CircuitBreaker.before_call cb e) <> Raise TypeError).
Proof.
  intros Hreach.
  assert (open_is_justified cb) as Hinv.
  { induction Hreach as [T timeout expected | cb func w e _ IH].
    - intros H. discriminate H.
    - apply call_keeps_justified. exact IH. }
  split; [exact Hinv|].
  intros e. unfold CircuitBreaker.before_call.
  destruct (CircuitBreaker.state cb) eqn:Es; try (simpl; discriminate).
  destruct (Hinv Es) as [[since Hsince] _]. rewrite Hsince.
  destruct (time_time e) as [now e1].
  destruct (Qlt_bool _ _); [simpl; discriminate|].
  destruct (time_time e1). simpl. discriminate.
Qed.

Lemma open_breaker_has_a_failure_time_witness :
  let failing (w : unit) : Res unit * unit := (Raise (Exception "down"), w) in
  let cb0 := CircuitBreaker.init 1 60 CircuitBreaker.is_Exception in
  let cb1 :=
    snd (fst (fst (CircuitBreaker.call cb0 failing tt (env_at [7])))) in
  (CircuitBreaker.state cb1 = CircuitBreaker.OPEN ->
   (exists since : Q, CircuitBreaker.last_failure_time cb1 = Some since) /\
   (CircuitBreaker.failure_threshold cb1 <= CircuitBreaker.failure_count cb1)%Z)
  /\
  (forall e : Env, fst (CircuitBreaker.before_call cb1 e) <> Raise TypeError).
Proof.
  intros failing cb0 cb1.
  apply (@open_breaker_has_a_failure_time unit unit cb1).
  apply (reachable_call cb0 failing tt (env_at [7])).
  apply reachable_init.
Defined.

(** X3. The failures that open a breaker are consecutive ones. From a
    fresh breaker, along any outcomes of the protected function in
    which no run of expected failures reaches [failure_threshold]
    (a success ends a run, an exception the breaker does not expect
    neither adds to it nor ends it), no call is refused: every call
    returns or raises what the function did, the breaker is CLOSED at
    the end, and its count is the length of the run of failures that
    ends the outcomes. *)
Theorem breaker_stays_closed {R : Type}
    (failure_threshold timeout : Z) (expected : exn -> bool)
    (outs : list (Res R)) (e : Env) :
  runs_below expected failure_threshold 0 outs ->
  let '(results, cb, _) :=
    breaker_run (CircuitBreaker.init failure_threshold timeout expected)
      outs e in
  results = outs /\
  CircuitBreaker.state cb = CircuitBreaker.CLOSED /\
  CircuitBreaker.failure_count cb = failure_run expected 0 outs.
Proof.
  intros Hruns.
  assert (forall (outs : list (Res R)) (cb : CircuitBreaker.t) (e : Env),
            CircuitBreaker.state cb = CircuitBreaker.CLOSED ->
            CircuitBreaker.failure_threshold cb = failure_threshold ->
            CircuitBreaker.expected_exception cb = expected ->
            runs_below expected failure_threshold
              (CircuitBreaker.failure_count cb) outs ->
            let '(results, cb1, _) := breaker_run cb outs e in
            results = outs /\
            CircuitBreaker.state cb1 = CircuitBreaker.CLOSED /\
            CircuitBreaker.failure_count cb1 =
              failure_run expected (CircuitBreaker.failure_count cb) outs)
    as Hgen.
  { clear. induction outs as [|out rest IH]; intros cb e Hs Hth Hex Hruns.
    - simpl. auto.
    - cbn [breaker_run]. unfold CircuitBreaker.call, CircuitBreaker.before_call.
      rewrite Hs. unfold answering.
      destruct out as [r|x].
      + cbn [runs_below failure_run] in *.
        specialize (IH (CircuitBreaker.on_success cb) e).
        unfold CircuitBreaker.on_success in *. rewrite Hs in *.
        cbn [CircuitBreaker.state CircuitBreaker.failure_threshold
             CircuitBreaker.expected_exception CircuitBreaker.failure_count]
          in IH.
        specialize (IH eq_refl Hth Hex Hruns).
        destruct (breaker_run _ rest e) as [[rs cb2] e2].
        destruct IH as (-> & Hs2 & Hc2). auto.
      + cbn [runs_below failure_run] in *. rewrite Hex.
        destruct Hruns as [Hlt Hruns].
        destruct (expected x).
        * unfold CircuitBreaker.on_failure.
          destruct (time_time e) as [now e1].
          assert ((CircuitBreaker.failure_threshold cb
                   <=? CircuitBreaker.failure_count cb + 1)%Z = false) as El
            by (apply Z.leb_gt; lia).
          rewrite El, Hs.
          match goal with
          | |- context [breaker_run ?c rest e1] => specialize (IH c e1)
          end.
          cbn [CircuitBreaker.state CircuitBreaker.failure_threshold
               CircuitBreaker.expected_exception CircuitBreaker.failure_count]
            in IH.
          specialize (IH eq_refl Hth Hex Hruns).
          destruct (breaker_run _ rest e1) as [[rs cb2] e2].
          destruct IH as (-> & Hs2 & Hc2). auto.
        * specialize (IH cb e Hs Hth Hex Hruns).
          destruct (breaker_run cb rest e) as [[rs cb2] e2].
          destruct IH as (-> & Hs2 & Hc2). auto. }
  apply (Hgen outs (CircuitBreaker.init failure_threshold timeout expected) e);
    try reflexivity. exact Hruns.
Qed.

Lemma breaker_stays_closed_witness :
  let down : Res nat := Raise (Exception "down") in
  let outs := [down; down; Ok 1%nat; down; down; Ok 2%nat; down] in
  let '(results, cb, _) :=
    breaker_run (CircuitBreaker.init 3 60 CircuitBreaker.is_Exception) outs
      (env_at [0]) in
  results = outs /\
  CircuitBreaker.state cb = CircuitBreaker.CLOSED /\
  CircuitBreaker.failure_count cb =
    failure_run CircuitBreaker.is_Exception 0 outs.
Proof.
  intros down outs.
  apply (breaker_stays_closed 3 60 CircuitBreaker.is_Exception outs
           (env_at [0])).
  simpl. repeat split; lia.
Defined.

(** ** DDoSProtection: the answer and the frame of [is_suspicious] *)

Section SuspicionFacts.

Import DDoSProtection.

(** When [is_suspicious] reports an address. *)
Lemma is_suspicious_reports (d : t) (ip : string) (e : Env) :
  let now := readings e (tick e) in
  fst (fst (is_suspicious d ip e)) = true <->
  (exists b : Q, blocked_ips d !! ip = Some b /\ now - b < 86400) \/
  (exists f : Q, suspicious_ips d !! ip = Some f /\ now - f < 300).
Proof.
  intros now. unfold is_suspicious. rewrite time_time_later. fold now.
  destruct (younger now 86400 (blocked_ips d) !! ip) as [b|] eqn:Eb.
  - cbn [fst]. split; [|reflexivity]. intros _. left. exists b.
    apply younger_lookup in Eb. exact Eb.
  - assert (~ exists b, blocked_ips d !! ip = Some b /\ now - b < 86400)
      as Hnb.
    { intros [b Hb]. apply younger_lookup in Hb. congruence. }
    destruct (younger now 3600 (suspicious_ips d) !! ip) as [f|] eqn:Ef.
    + apply younger_lookup in Ef as [Ef _].
      destruct (Qlt_bool (now - f) 300) eqn:E300; cbn [fst].
      * split; [|reflexivity]. intros _. right. exists f.
        apply Qlt_bool_iff in E300. auto.
      * split; [discriminate|]. intros [Hb | [f' [Hf' H300]]]; [tauto|].
        rewrite Ef in Hf'. injection Hf' as <-.
        apply Qlt_bool_false_iff in E300. lra.
    + cbn [fst]. split; [discriminate|].
      intros [Hb | [f [Hf H300]]]; [tauto|].
      assert (younger now 3600 (suspicious_ips d) !! ip = Some f) as Hs.
      { apply younger_lookup. split; [exact Hf|]. unfold inject_Z. lra. }
      congruence.
Qed.

End SuspicionFacts.

(** X4. [is_suspicious(ip)] at time [now] answers true exactly when [ip]
    is blocked since less than 86400 s or was flagged less than 300 s
    ago. Whatever the answer, the entries of every other address are
    only pruned: no other address is flagged or blocked by the call,
    and [ip] itself is flagged afterwards only if it was before. *)
Theorem is_suspicious_answer
    (d : DDoSProtection.t) (ip : string) (e : Env) :
  let now := readings e (tick e) in
  let '(answer, d1, _) := DDoSProtection.is_suspicious d ip e in
  (answer = true <->
   (exists b : Q, DDoSProtection.blocked_ips d !! ip = Some b /\
                  now - b < 86400) \/
   (exists f : Q, DDoSProtection.suspicious_ips d !! ip = Some f /\
                  now - f < 300)) /\
  (forall (k : string) (f : Q),
      DDoSProtection.suspicious_ips d1 !! k = Some f <->
      DDoSProtection.suspicious_ips d !! k = Some f /\ now - f < 3600) /\
  (forall (k : string) (b : Q),
      k <> ip ->
      DDoSProtection.blocked_ips d1 !! k = Some b <->
      DDoSProtection.blocked_ips d !! k = Some b /\ now - b < 86400).
Proof.
  intros now. unfold DDoSProtection.is_suspicious.
  rewrite time_time_later. fold now.
  set (susp := DDoSProtection.younger now 3600 (DDoSProtection.suspicious_ips d)).
  set (blocked := DDoSProtection.younger now 86400
                    (DDoSProtection.blocked_ips d)).
  assert (forall k f, susp !! k = Some f <->
                      DDoSProtection.suspicious_ips d !! k = Some f /\
                      now - f < 3600) as Hsusp
    by (intros k f; apply younger_lookup).
  assert (forall k b, blocked !! k = Some b <->
                      DDoSProtection.blocked_ips d !! k = Some b /\
                      now - b < 86400) as Hblocked
    by (intros k b; apply younger_lookup).
  destruct (blocked !! ip) as [b|] eqn:Eb.
  - cbn [DDoSProtection.suspicious_ips DDoSProtection.blocked_ips].
    split; [|split; [exact Hsusp | intros k b' _; apply Hblocked]].
    split; [|reflexivity]. intros _. left. exists b. apply Hblocked. exact Eb.
  - assert (~ exists b, DDoSProtection.blocked_ips d !! ip = Some b /\
                        now - b < 86400) as Hnb.
    { intros [b Hb]. apply Hblocked in Hb. congruence. }
    destruct (susp !! ip) as [f|] eqn:Ef.
    + destruct (Qlt_bool (now - f) 300) eqn:E300;
        cbn [DDoSProtection.suspicious_ips DDoSProtection.blocked_ips].
      * split; [|split; [exact Hsusp|]].
        -- split; [|reflexivity]. intros _. right. exists f.
           apply Hsusp in Ef as [Ef _]. apply Qlt_bool_iff in E300. auto.
        -- intros k b Hne. rewrite lookup_insert_ne by congruence.
           apply Hblocked.
      * split; [|split; [exact Hsusp | intros k b' _; apply Hblocked]].
        split; [discriminate|]. intros [Hb | [f' [Hf' H300]]]; [tauto|].
        apply Hsusp in Ef as [Ef _]. rewrite Ef in Hf'. injection Hf' as <-.
        apply Qlt_bool_false_iff in E300. lra.
    + cbn [DDoSProtection.suspicious_ips DDoSProtection.blocked_ips].
      split; [|split; [exact Hsusp | intros k b' _; apply Hblocked]].
      split; [discriminate|]. intros [Hb | [f [Hf H300]]]; [tauto|].
      assert (susp !! ip = Some f) as Hs.
      { apply Hsusp. split; [exact Hf|]. lra. }
      congruence.
Qed.

(** X5. [block_ip(ip, duration)] blocks for 86400 s whatever [duration]
    says: after it, [is_suspicious(ip)] answers true at every time less
    than 86400 s after the block, and, for an address that is not
    flagged, false at every time 86400 s or more after it, also when
    [duration] is longer. *)
Theorem block_ip_lasts_a_day
    (d : DDoSProtection.t) (ip : string) (duration : Z) (e : Env) :
  let blocked_at := readings e (tick e) in
  let now := readings e (S (tick e)) in
  let (d1, e1) := DDoSProtection.block_ip d ip duration e in
  let '(answer, _, _) := DDoSProtection.is_suspicious d1 ip e1 in
  (now - blocked_at < 86400 -> answer = true) /\
  (86400 <= now - blocked_at ->
   DDoSProtection.suspicious_ips d !! ip = None ->
   answer = false).
Proof.
  intros blocked_at now. unfold DDoSProtection.block_ip.
  rewrite time_time_later. fold blocked_at.
  pose proof (is_suspicious_reports
                (DDoSProtection.mk (DDoSProtection.suspicious_ips d)
                   (<[ip := blocked_at]> (DDoSProtection.blocked_ips d)))
                ip (later 1 e)) as Hanswer.
  cbv zeta in Hanswer.
  change (readings (later 1 e) (tick (later 1 e)))
    with (readings e (tick e + 1)%nat) in Hanswer.
  replace (tick e + 1)%nat with (S (tick e)) in Hanswer by lia.
  fold now in Hanswer.
  destruct (DDoSProtection.is_suspicious _ ip (later 1 e))
    as [[answer d2] e2].
  cbn [fst DDoSProtection.suspicious_ips DDoSProtection.blocked_ips]
    in Hanswer.
  rewrite lookup_insert_eq in Hanswer.
  split.
  - intros Hyoung. apply Hanswer. left. exists blocked_at. auto.
  - intros Hold Hclean. destruct answer; [|reflexivity].
    destruct Hanswer as [Hanswer _].
    destruct (Hanswer eq_refl) as [[b [Hb Hage]] | [f [Hf _]]].
    + injection Hb as <-. lra.
    + congruence.
Qed.

(** ** RateLimiter: the local sliding window along any requests *)

Section LocalWindowBounds.

Import RateLimiter.

Lemma popleft_expired_head (w : list Q) (bound x : Q) (rest : list Q) :
  popleft_expired w bound = x :: rest -> bound < x.
Proof.
  induction w as [|y w IH]; simpl; [discriminate|].
  destruct (Qle_bool y bound) eqn:E; [exact IH|].
  intros H. injection H as <- _. apply Qle_bool_false_iff. exact E.
Qed.

Lemma py_int_between (v : Q) (hi : Z) :
  0 <= v -> v <= inject_Z hi -> (0 <= py_int v <= hi)%Z.
Proof.
  intros Hlo Hhi. unfold py_int.
  assert (Qle_bool 0 v = true) as -> by (apply Qle_bool_iff; exact Hlo).
  split.
  - change 0%Z with (Qfloor 0). apply Qfloor_resp_le. exact Hlo.
  - rewrite <- (Qfloor_Z hi). apply Qfloor_resp_le. exact Hhi.
Qed.

(** One step keeps the deque in time order, and a denial tells a
    [retry_after] within the window. *)
Lemma sliding_window_in_order (w : list Q) (rule : RateLimitRule.t)
    (cost prev now : Q) :
  window_in_order w prev -> prev <= now ->
  window_in_order (snd (sliding_window w rule cost now)) now /\
  retry_after_in_window (RateLimitRule.window_seconds rule)
    (Ok (fst (sliding_window w rule cost now))).
Proof.
  intros [Hsorted Hle] Hnow. unfold sliding_window.
  set (W := RateLimitRule.window_seconds rule).
  set (p := popleft_expired w (now - inject_Z W)).
  assert (StronglySorted Qle p) as Hp
    by (apply popleft_expired_sorted; exact Hsorted).
  assert (Forall (fun x => x <= now) p) as Hpl.
  { apply popleft_expired_Forall. eapply List.Forall_impl; [|exact Hle].
    intros x Hx. simpl in Hx. lra. }
  destruct (Qle_bool _ _); cbn [fst snd retry_after_in_window
                                  RateLimitResult.allowed
                                  RateLimitResult.retry_after].
  - split; [|discriminate]. split.
    + apply sorted_snoc; assumption.
    + apply List.Forall_app. split; [exact Hpl|]. repeat constructor. lra.
  - split; [split; assumption|]. intros _. eexists. split; [reflexivity|].
    destruct p as [|x rest] eqn:Ep.
    + assert (py_int (now + inject_Z W - now) = W) as ->.
      { rewrite <- (py_int_inject_Z W) at 2. apply py_int_compat. ring. }
      lia.
    + apply popleft_expired_head in Ep.
      inversion Hpl as [|? ? Hx _]; subst.
      assert (0 <= x + inject_Z W - now) as H0 by lra.
      assert (x + inject_Z W - now <= inject_Z W) as H1 by lra.
      pose proof (py_int_between _ W H0 H1). lia.
Qed.

Lemma serve_local_step (rl : t) (identifier : string) (ty : RateLimitType)
    (rule : RateLimitRule.t) (q : request) (rest : list request) (e : Env) :
  redis_client rl = None -> RateLimitRule.has_burst rule = false ->
  let w := default [] (local_windows rl !! key_of identifier ty) in
  let now := readings e (tick e) in
  let step := sliding_window w rule (req_cost q) now in
  let rl1 := set_window rl (key_of identifier ty) (snd step) in
  let e1 := later 1 (as_task (req_task q) e) in
  fst (fst (serve (q :: rest) rl identifier ty (Some rule) e)) =
    Ok (fst step) :: fst (fst (serve rest rl1 identifier ty (Some rule) e1)) /\
  redis_client rl1 = None /\
  default [] (local_windows rl1 !! key_of identifier ty) = snd step.
Proof.
  intros Hr Hb w now step rl1 e1. cbn [serve].
  rewrite (is_allowed_window rl) by assumption.
  change (readings (as_task (req_task q) e) (tick (as_task (req_task q) e)))
    with now.
  fold w. fold step. fold rl1. fold e1.
  destruct (serve rest rl1 identifier ty (Some rule) e1) as [[rs rl2] e2].
  cbn [fst snd]. split; [reflexivity|]. split; [exact Hr|].
  unfold rl1. rewrite set_window_lookup. reflexivity.
Qed.

Lemma serve_retry_after (identifier : string) (ty : RateLimitType)
    (rule : RateLimitRule.t) :
  RateLimitRule.has_burst rule = false ->
  forall (reqs : list request) (rl : t) (e : Env) (prev : Q),
    redis_client rl = None ->
    window_in_order (default [] (local_windows rl !! key_of identifier ty))
      prev ->
    monotone_clock e -> prev <= readings e (tick e) ->
    Forall (retry_after_in_window (RateLimitRule.window_seconds rule))
      (fst (fst (serve reqs rl identifier ty (Some rule) e))).
Proof.
  intros Hb. induction reqs as [|q rest IH]; intros rl e prev Hr Hw Hm Hprev;
    [constructor|].
  destruct (serve_local_step rl identifier ty rule q rest e Hr Hb)
    as (-> & Hr1 & Hw1).
  destruct (sliding_window_in_order _ rule (req_cost q) prev
              (readings e (tick e)) Hw Hprev) as [Hw' Hretry].
  constructor; [exact Hretry|].
  apply (IH _ _ (readings e (tick e))).
  - exact Hr1.
  - rewrite Hw1. exact Hw'.
  - exact Hm.
  - simpl. apply Hm. lia.
Qed.

End LocalWindowBounds.

(** X6. Without a store and without burst allowance, along any requests
    of any costs served for one key from a fresh window on a clock that
    does not run backwards, the limiter raises nothing and every denial
    carries a [retry_after] of at least 1 and at most the window length
    (at most 1 for a window of less than a second). *)
Theorem window_retry_after_within_window
    (rl : RateLimiter.t) (identifier : string) (ty : RateLimitType)
    (rule : RateLimitRule.t) (reqs : list request) (e : Env) :
  RateLimiter.redis_client rl = None ->
  RateLimitRule.has_burst rule = false ->
  default [] (RateLimiter.local_windows rl !! key_of identifier ty) = [] ->
  monotone_clock e ->
  Forall (retry_after_in_window (RateLimitRule.window_seconds rule))
    (fst (fst (serve reqs rl identifier ty (Some rule) e))).
Proof.
  intros Hr Hb Hfresh Hm.
  apply (serve_retry_after identifier ty rule Hb reqs rl e
           (readings e (tick e))); try assumption.
  - rewrite Hfresh. split; constructor.
  - lra.
Qed.

Lemma window_retry_after_within_window_witness :
  Forall (retry_after_in_window 60)
    (fst (fst (serve [mkreq 1 1; mkreq 2 1; mkreq 3 1; mkreq 4 (1 # 2)]
                 (RateLimiter.init None) "client" REQUESTS_PER_MINUTE
                 (Some (RateLimitRule.plain 2 60))
                 (env_at [0; (1 # 2); 10; 61])))).
Proof.
  apply (window_retry_after_within_window (RateLimiter.init None) "client"
           REQUESTS_PER_MINUTE (RateLimitRule.plain 2 60)).
  - reflexivity.
  - reflexivity.
  - reflexivity.
  - apply scripted_monotone. reflexivity.
Defined.

Section LocalWindowHistory.

Import RateLimiter.

Lemma recent_sorted (seconds : Z) (now : Q) (l : list Q) :
  StronglySorted Qle l -> StronglySorted Qle (recent seconds now l).
Proof.
  induction 1 as [|x l Hs IH Hall]; [constructor|].
  unfold recent in *. simpl. destruct (Qlt_bool _ x); [|exact IH].
  constructor; [exact IH|].
  apply List.Forall_forall. intros y Hy. apply List.filter_In in Hy as [Hy _].
  rewrite List.Forall_forall in Hall. apply Hall. exact Hy.
Qed.

(** Pruning at a later time what was pruned at an earlier one. *)
Lemma recent_recent (seconds : Z) (prev now : Q) (l : list Q) :
  prev <= now ->
  List.filter (fun x => negb (Qle_bool x (now - inject_Z seconds)))
    (recent seconds prev l) = recent seconds now l.
Proof.
  intros Hle. unfold recent. induction l as [|x l IH]; [reflexivity|].
  simpl. destruct (Qlt_bool (now - inject_Z seconds) x) eqn:En.
  - apply Qlt_bool_iff in En.
    assert (Qlt_bool (prev - inject_Z seconds) x = true) as ->
      by (apply Qlt_bool_iff; lra).
    simpl. unfold Qlt_bool in IH.
    assert (Qle_bool x (now - inject_Z seconds) = false) as ->
      by (apply Qle_bool_false_iff; exact En).
    simpl. f_equal. exact IH.
  - apply Qlt_bool_false_iff in En.
    destruct (Qlt_bool (prev - inject_Z seconds) x); [|exact IH].
    simpl.
    assert (Qle_bool x (now - inject_Z seconds) = true) as ->
      by (apply Qle_bool_iff; exact En).
    simpl. exact IH.
Qed.

Lemma recent_snoc (seconds : Z) (now : Q) (l : list Q) :
  (0 < seconds)%Z ->
  recent seconds now (l ++ [now]) = recent seconds now l ++ [now].
Proof.
  intros HW. unfold recent. rewrite List.filter_app. simpl.
  assert (Qlt_bool (now - inject_Z seconds) now = true) as ->; [|reflexivity].
  apply Qlt_bool_iff.
  assert (0 < inject_Z seconds)
    by (change 0 with (inject_Z 0); rewrite <- Zlt_Qlt; exact HW).
  lra.
Qed.

(** One step keeps the deque equal to the admissions of the trailing
    window, and at most [limit] of them. *)
Lemma sliding_window_history (w history : list Q) (rule : RateLimitRule.t)
    (cost prev now : Q) :
  (0 < RateLimitRule.window_seconds rule)%Z -> 1 <= cost ->
  window_of_history (RateLimitRule.window_seconds rule)
    (RateLimitRule.limit rule) w history prev ->
  prev <= now ->
  let step := sliding_window w rule cost now in
  window_of_history (RateLimitRule.window_seconds rule)
    (RateLimitRule.limit rule) (snd step)
    (history ++ (if RateLimitResult.allowed (fst step) then [now] else []))
    now.
Proof.
  intros HW Hcost (Hw & Hsorted & Hle & Hlen) Hnow step.
  set (W := RateLimitRule.window_seconds rule) in *.
  assert (popleft_expired w (now - inject_Z W) = recent W now history) as Hp.
  { rewrite popleft_expired_filter
      by (rewrite Hw; apply recent_sorted; exact Hsorted).
    rewrite Hw. apply recent_recent. exact Hnow. }
  assert (Forall (fun x => x <= now) history) as Hle'.
  { eapply List.Forall_impl; [|exact Hle]. intros x Hx. simpl in Hx. lra. }
  assert (Z.of_nat (length (recent W now history))
          <= Z.max 0 (RateLimitRule.limit rule))%Z as Hlen'.
  { rewrite <- Hp.
    assert (length (popleft_expired w (now - inject_Z W)) <= length w)%nat.
    { clear. induction w as [|x w IH]; simpl; [lia|].
      destruct (Qle_bool x _); simpl; lia. }
    lia. }
  subst step. unfold sliding_window. fold W. rewrite Hp.
  destruct (Qle_bool _ _) eqn:Efits; cbn [fst snd RateLimitResult.allowed].
  - apply Qle_bool_iff in Efits.
    split; [symmetry; apply recent_snoc; exact HW|].
    split; [apply sorted_snoc; assumption|].
    split.
    + apply List.Forall_app. split; [exact Hle'|]. repeat constructor. lra.
    + rewrite List.length_app. simpl.
      assert (inject_Z (Z.of_nat (length (recent W now history))) + 1
              <= inject_Z (RateLimitRule.limit rule)) as H by lra.
      change 1 with (inject_Z 1) in H.
      rewrite <- inject_Z_plus, <- Zle_Qle in H. lia.
  - rewrite app_nil_r. repeat split; assumption.
Qed.

Lemma last_cons (l : list Q) :
  forall x d : Q, List.last (x :: l) d = List.last l x.
Proof.
  induction l as [|y l IH]; intros x d; [reflexivity|].
  change (List.last (x :: y :: l) d) with (List.last (y :: l) d).
  rewrite (IH y d), (IH y x). reflexivity.
Qed.

Lemma serve_history (identifier : string) (ty : RateLimitType)
    (rule : RateLimitRule.t) :
  RateLimitRule.has_burst rule = false ->
  (0 < RateLimitRule.window_seconds rule)%Z ->
  forall (reqs : list request) (rl : t) (e : Env) (history : list Q)
         (prev : Q),
    redis_client rl = None ->
    window_of_history (RateLimitRule.window_seconds rule)
      (RateLimitRule.limit rule)
      (default [] (local_windows rl !! key_of identifier ty)) history prev ->
    monotone_clock e -> prev <= readings e (tick e) ->
    Forall (fun q => 1 <= req_cost q) reqs ->
    let results := fst (fst (serve reqs rl identifier ty (Some rule) e)) in
    let times := next_readings (length reqs) e in
    (Z.of_nat
       (length (recent (RateLimitRule.window_seconds rule)
                  (List.last times prev)
                  (history ++ admitted_times times results)))
     <= Z.max 0 (RateLimitRule.limit rule))%Z.
Proof.
  intros Hb HW.
  induction reqs as [|q rest IH];
    intros rl e history prev Hr Hinv Hm Hprev Hcosts results times.
  - subst results times. simpl. rewrite app_nil_r.
    destruct Hinv as (<- & _ & _ & Hlen). exact Hlen.
  - inversion Hcosts as [|? ? Hq Hrest]; subst.
    subst results times.
    destruct (serve_local_step rl identifier ty rule q rest e Hr Hb)
      as (-> & Hr1 & Hw1).
    cbn [length]. rewrite next_readings_S, last_cons.
    cbn [admitted_times is_admitted].
    set (now := readings e (tick e)) in *.
    pose proof (sliding_window_history _ history rule (req_cost q) prev now
                  HW Hq Hinv Hprev) as Hinv'.
    cbv zeta in Hinv'. rewrite <- Hw1 in Hinv'.
    match type of Hw1 with
    | default [] (local_windows ?rl1 !! _) = _ =>
        specialize (IH rl1 (later 1 (as_task (req_task q) e)) _ now Hr1 Hinv'
                      Hm)
    end.
    assert (now <= readings e (tick e + 1)%nat) as Hnext by (apply Hm; lia).
    specialize (IH Hnext Hrest). cbv zeta in IH.
    destruct (RateLimitResult.allowed
                (fst (sliding_window _ rule (req_cost q) now))).
    + rewrite <- List.app_assoc in IH. exact IH.
    + rewrite app_nil_r in IH. exact IH.
Qed.

End LocalWindowHistory.

(** X7. Without a store and without burst allowance, for a window of
    positive length and requests of cost 1 or more served for one key
    from a fresh window on a clock that does not run backwards: after
    any such requests, the admitted ones among them whose time lies in
    the window that ends at the last request number at most [limit]
    (none when [limit] is negative). *)
Theorem window_admits_at_most_limit
    (rl : RateLimiter.t) (identifier : string) (ty : RateLimitType)
    (rule : RateLimitRule.t) (reqs : list request) (e : Env) :
  RateLimiter.redis_client rl = None ->
  RateLimitRule.has_burst rule = false ->
  default [] (RateLimiter.local_windows rl !! key_of identifier ty) = [] ->
  (0 < RateLimitRule.window_seconds rule)%Z ->
  monotone_clock e ->
  Forall (fun q => 1 <= req_cost q) reqs ->
  let results := fst (fst (serve reqs rl identifier ty (Some rule) e)) in
  let times := next_readings (length reqs) e in
  (Z.of_nat
     (length (recent (RateLimitRule.window_seconds rule)
                (List.last times 0%Q) (admitted_times times results)))
   <= Z.max 0 (RateLimitRule.limit rule))%Z.
Proof.
  intros Hr Hb Hfresh HW Hm Hcosts results times.
  destruct reqs as [|q rest]; [subst results times; simpl; lia|].
  pose proof (serve_history identifier ty rule Hb HW (q :: rest) rl e []
                (readings e (tick e)) Hr) as H.
  rewrite Hfresh in H.
  assert (window_of_history (RateLimitRule.window_seconds rule)
            (RateLimitRule.limit rule) [] [] (readings e (tick e))) as Hinv.
  { split; [reflexivity|]. split; [constructor|]. split; [constructor|].
    simpl. lia. }
  specialize (H Hinv Hm ltac:(lra) Hcosts). cbv zeta in H.
  subst results times. cbn [app] in H.
  cbn [length] in *. rewrite next_readings_S, last_cons in *. exact H.
Qed.

Lemma window_admits_at_most_limit_witness :
  let reqs := [mkreq 1 1; mkreq 2 1; mkreq 3 1; mkreq 4 2; mkreq 5 1] in
  let e := env_at [0; 10; 20; 65; 70] in
  let results :=
    fst (fst (serve reqs (RateLimiter.init None) "client" REQUESTS_PER_MINUTE
                (Some (RateLimitRule.plain 2 60)) e)) in
  let times := next_readings (length reqs) e in
  (Z.of_nat (length (recent 60 (List.last times 0%Q)
                       (admitted_times times results)))
   <= Z.max 0 2)%Z.
Proof.
  intros reqs e.
  apply (window_admits_at_most_limit (RateLimiter.init None) "client"
           REQUESTS_PER_MINUTE (RateLimitRule.plain 2 60) reqs e).
  - reflexivity.
  - reflexivity.
  - reflexivity.
  - reflexivity.
  - apply scripted_monotone. reflexivity.
  - repeat constructor; vm_compute; discriminate.
Defined.

(** ** RateLimiter: one key per identifier and limit type *)

Section Keys.

Lemma list_ascii_of_string_app (s t : string) :
  list_ascii_of_string (s +:+ t) =
  list_ascii_of_string s ++ list_ascii_of_string t.
Proof.
  induction s as [|c s IH]; [reflexivity|]. simpl. f_equal. exact IH.
Qed.

Lemma list_ascii_of_string_inj (s t : string) :
  list_ascii_of_string s = list_ascii_of_string t -> s = t.
Proof.
  intros H. rewrite <- (string_of_list_ascii_of_string s),
              <- (string_of_list_ascii_of_string t), H. reflexivity.
Qed.

(** Two texts with a common end: the shorter of two endings ends the
    longer one. *)
Lemma common_ending (l1 l2 t1 t2 : list ascii) :
  l1 ++ t1 = l2 ++ t2 ->
  let n := Nat.min (length t1) (length t2) in
  List.firstn n (List.rev t1) = List.firstn n (List.rev t2).
Proof.
  intros H n. apply (f_equal (@List.rev ascii)) in H.
  rewrite !List.rev_app_distr in H.
  apply (f_equal (List.firstn n)) in H.
  rewrite !List.firstn_app, !List.length_rev in H.
  replace (n - length t1)%nat with 0%nat in H by lia.
  replace (n - length t2)%nat with 0%nat in H by lia.
  simpl in H. rewrite !app_nil_r in H. exact H.
Qed.

Lemma string_app_inv_tail (s1 s2 t : string) :
  (s1 +:+ t)%string = (s2 +:+ t)%string -> s1 = s2.
Proof.
  intros H. apply list_ascii_of_string_inj.
  apply (f_equal list_ascii_of_string) in H.
  rewrite !list_ascii_of_string_app in H.
  apply List.app_inv_tail in H. exact H.
Qed.

Lemma string_app_inv_head (p s1 s2 : string) :
  (p +:+ s1)%string = (p +:+ s2)%string -> s1 = s2.
Proof.
  induction p as [|c p IH]; simpl; intros H; [exact H|].
  injection H as H. exact (IH H).
Qed.

(** Line 161: the key tells the identifier and the limit type. *)
Lemma key_of_inj (id1 id2 : string) (ty1 ty2 : RateLimitType) :
  key_of id1 ty1 = key_of id2 ty2 -> id1 = id2 /\ ty1 = ty2.
Proof.
  unfold key_of. intros H.
  assert (ty1 = ty2) as <-.
  { apply (f_equal list_ascii_of_string) in H.
    rewrite !list_ascii_of_string_app in H.
    apply common_ending in H.
    destruct ty1, ty2; try reflexivity; vm_compute in H; discriminate H. }
  split; [|reflexivity].
  apply (string_app_inv_tail id1 id2 (":" +:+ RateLimitType_value ty1)).
  exact H.
Qed.

End Keys.

(** X8. [rate_limit_key] gives different keys to different subjects: a
    user, an address, an endpoint and the global key never share a key,
    and two users (addresses, endpoints) share one only if they are the
    same; the first argument that is given and not empty decides. *)
Theorem rate_limit_key_tells_the_subject
    (user_id client_ip endpoint user_id' client_ip' endpoint' : option string) :
  rate_limit_key user_id client_ip endpoint =
    rate_limit_key user_id' client_ip' endpoint' <->
  subject_of user_id client_ip endpoint =
    subject_of user_id' client_ip' endpoint'.
Proof.
  unfold rate_limit_key, subject_of.
  destruct (truthy user_id) as [u|], (truthy user_id') as [u'|],
           (truthy client_ip) as [c|], (truthy client_ip') as [c'|],
           (truthy endpoint) as [p|], (truthy endpoint') as [p'|];
    (split; intros H;
     [ first [ discriminate H
             | reflexivity
             | apply string_app_inv_head in H; subst; reflexivity ]
     | first [ discriminate H
             | reflexivity
             | injection H as H; subst; reflexivity ] ]).
Qed.

(** ** RateLimiter: requests for different keys do not meet *)

Section KeyIsolation.

Import RateLimiter.

Lemma lookup_put_other (r : Redis.t) (key k : string) (z : Redis.zset) :
  k <> key -> Redis.zsets (Redis.put r key z) !! k = Redis.zsets r !! k.
Proof.
  intros Hk. unfold Redis.put. destruct (Redis.entries z); simpl.
  - apply lookup_delete_ne. congruence.
  - apply lookup_insert_ne. congruence.
Qed.

Lemma get_same (r r' : Redis.t) (key : string) (now : Q) :
  Redis.zsets r !! key = Redis.zsets r' !! key ->
  Redis.get r key now = Redis.get r' key now.
Proof. intros H. unfold Redis.get. rewrite H. reflexivity. Qed.

Lemma expire_same (r r' : Redis.t) (key : string) (seconds : Z) (now : Q) :
  Redis.zsets r !! key = Redis.zsets r' !! key ->
  Redis.zsets (Redis.expire r key seconds now) !! key =
    Redis.zsets (Redis.expire r' key seconds now) !! key.
Proof.
  intros H. unfold Redis.expire. rewrite (get_same r r' key now H).
  destruct (Redis.entries (Redis.get r' key now)).
  - rewrite !lookup_put. reflexivity.
  - destruct (seconds <=? 0)%Z.
    + simpl. rewrite !lookup_delete_eq. reflexivity.
    + rewrite !lookup_put. reflexivity.
Qed.

Lemma expire_other (r : Redis.t) (key k : string) (seconds : Z) (now : Q) :
  k <> key ->
  Redis.zsets (Redis.expire r key seconds now) !! k = Redis.zsets r !! k.
Proof.
  intros Hk. unfold Redis.expire.
  destruct (Redis.entries (Redis.get r key now)).
  - apply lookup_put_other, Hk.
  - destruct (seconds <=? 0)%Z.
    + simpl. apply lookup_delete_ne. congruence.
    + apply lookup_put_other, Hk.
Qed.

(** The pipeline reads and writes the sorted set of its key only. *)
Lemma pipeline_same (r r' : Redis.t) (key : string) (rule : RateLimitRule.t)
    (id : Redis.member) (now : Q) :
  Redis.zsets r !! key = Redis.zsets r' !! key ->
  Redis.zsets (fst (pipeline r key rule id now)) !! key =
    Redis.zsets (fst (pipeline r' key rule id now)) !! key /\
  snd (pipeline r key rule id now) = snd (pipeline r' key rule id now).
Proof.
  intros H. unfold pipeline. cbn [fst snd].
  assert (Redis.zsets
            (Redis.zremrangebyscore r key 0
               (now - inject_Z (RateLimitRule.window_seconds rule)) now)
            !! key =
          Redis.zsets
            (Redis.zremrangebyscore r' key 0
               (now - inject_Z (RateLimitRule.window_seconds rule)) now)
            !! key) as H1.
  { unfold Redis.zremrangebyscore. rewrite (get_same r r' key now H).
    rewrite !lookup_put. reflexivity. }
  split.
  - apply expire_same. unfold Redis.zadd.
    rewrite (get_same _ _ key now H1), !lookup_put. reflexivity.
  - unfold Redis.zcard. rewrite (get_same _ _ key now H1). reflexivity.
Qed.

Lemma pipeline_other (r : Redis.t) (key k : string) (rule : RateLimitRule.t)
    (id : Redis.member) (now : Q) :
  k <> key ->
  Redis.zsets (fst (pipeline r key rule id now)) !! k = Redis.zsets r !! k.
Proof.
  intros Hk. unfold pipeline. cbn [fst].
  rewrite expire_other by exact Hk.
  unfold Redis.zadd. rewrite lookup_put_other by exact Hk.
  unfold Redis.zremrangebyscore. apply lookup_put_other, Hk.
Qed.

Lemma store_limit_same (r r' : Redis.t) (key : string)
    (rule : RateLimitRule.t) (cost now : Q) (e : Env) :
  Redis.zsets r !! key = Redis.zsets r' !! key ->
  fst (_redis_rate_limit r key rule cost now e) =
    fst (_redis_rate_limit r' key rule cost now e).
Proof.
  intros H. unfold _redis_rate_limit.
  destruct (pipeline_same r r' key rule (now, current_task e) now H)
    as [Hs Hc].
  destruct (pipeline r key rule (now, current_task e) now) as [r1 c1].
  destruct (pipeline r' key rule (now, current_task e) now) as [r1' c1'].
  cbn [fst snd] in Hs, Hc. subst c1'.
  destruct (Qle_bool _ _); [reflexivity|]. cbn [fst].
  assert (Redis.zrange_first (Redis.zrem r1 key (now, current_task e) now)
            key now =
          Redis.zrange_first (Redis.zrem r1' key (now, current_task e) now)
            key now) as ->; [|reflexivity].
  unfold Redis.zrange_first.
  rewrite (get_same (Redis.zrem r1 key (now, current_task e) now)
             (Redis.zrem r1' key (now, current_task e) now) key now);
    [reflexivity|].
  unfold Redis.zrem. rewrite (get_same _ _ key now Hs), !lookup_put.
  reflexivity.
Qed.

Lemma store_limit_other (r : Redis.t) (key k : string)
    (rule : RateLimitRule.t) (cost now : Q) (e : Env) :
  k <> key ->
  Redis.zsets (snd (_redis_rate_limit r key rule cost now e)) !! k =
    Redis.zsets r !! k.
Proof.
  intros Hk. unfold _redis_rate_limit.
  pose proof (pipeline_other r key k rule (now, current_task e) now Hk) as Hp.
  destruct (pipeline r key rule (now, current_task e) now) as [r1 c1].
  cbn [fst] in Hp.
  destruct (Qle_bool _ _); cbn [snd]; [exact Hp|].
  unfold Redis.zrem. rewrite lookup_put_other by exact Hk. exact Hp.
Qed.

(** What [is_allowed] answers for a key is read off what the limiter
    holds for that key. *)
Lemma is_allowed_same (a b : t) (identifier : string) (ty : RateLimitType)
    (rule : option RateLimitRule.t) (cost : Q) (e : Env) :
  same_for_key (key_of identifier ty) a b ->
  fst (fst (is_allowed a identifier ty rule cost e)) =
    fst (fst (is_allowed b identifier ty rule cost e)).
Proof.
  unfold same_for_key, key_of. intros (Hr & Hw & Hb). unfold is_allowed.
  destruct (match rule with Some r => Some r | None => default_rules ty end)
    as [rl|]; [|reflexivity].
  destruct (time_time e) as [now e1].
  destruct (redis_client a) as [r|], (redis_client b) as [r'|];
    try contradiction.
  - pose proof (store_limit_same r r' _ rl cost now e1 Hr) as Hs.
    destruct (_redis_rate_limit r _ rl cost now e1),
             (_redis_rate_limit r' _ rl cost now e1).
    cbn [fst] in *. congruence.
  - unfold _local_rate_limit, window_rate_limit, bucket_rate_limit.
    rewrite Hw, Hb.
    destruct (RateLimitRule.burst_limit rl) as [burst|].
    + destruct (burst =? 0)%Z.
      * destruct (sliding_window _ rl cost now). reflexivity.
      * destruct (local_buckets b !! _) as [bk|].
        -- destruct (TokenBucket.consume bk (py_int cost) e1) as [[ok b1] e2].
           destruct ok; [reflexivity|].
           destruct (TokenBucket.get_wait_time b1 (py_int cost)); reflexivity.
        -- destruct (RateLimitRule.window_seconds rl =? 0)%Z; [reflexivity|].
           destruct (TokenBucket.init _ _ e1) as [bk e1'].
           destruct (TokenBucket.consume bk (py_int cost) e1') as [[ok b1] e2].
           destruct ok; [reflexivity|].
           destruct (TokenBucket.get_wait_time b1 (py_int cost)); reflexivity.
    + destruct (sliding_window _ rl cost now). reflexivity.
Qed.

(** A check for one key leaves what the limiter holds for any other
    key. *)
Lemma is_allowed_other (a : t) (identifier : string) (ty : RateLimitType)
    (rule : option RateLimitRule.t) (cost : Q) (e : Env) (k : string) :
  k <> key_of identifier ty ->
  same_for_key k (snd (fst (is_allowed a identifier ty rule cost e))) a.
Proof.
  unfold key_of. intros Hk.
  assert ((k +:+ ":bucket")%string <>
          ((identifier +:+ ":" +:+ RateLimitType_value ty) +:+ ":bucket")%string)
    as Hkb.
  { intros E. apply string_app_inv_tail in E. contradiction. }
  assert (forall x : t, same_for_key k x x) as Hrefl.
  { intros x. unfold same_for_key. destruct (redis_client x); auto. }
  unfold is_allowed.
  destruct (match rule with Some r => Some r | None => default_rules ty end)
    as [rl|]; [|apply Hrefl].
  destruct (time_time e) as [now e1].
  destruct (redis_client a) as [r|] eqn:Er.
  - pose proof (store_limit_other r _ k rl cost now e1 Hk) as Hs.
    destruct (_redis_rate_limit r _ rl cost now e1) as [res r1].
    cbn [fst snd] in *. unfold same_for_key. cbn. rewrite Er.
    repeat split. exact Hs.
  - assert (forall w, same_for_key k
              (set_window a (identifier +:+ ":" +:+ RateLimitType_value ty) w)
              a) as Hsw.
    { intros w. unfold same_for_key. cbn. rewrite Er.
      repeat split. apply lookup_insert_ne. congruence. }
    assert (forall bk, same_for_key k
              (set_bucket a
                 ((identifier +:+ ":" +:+ RateLimitType_value ty)
                    +:+ ":bucket") bk)
              a) as Hsb.
    { intros bk. unfold same_for_key. cbn. rewrite Er.
      repeat split. apply lookup_insert_ne. congruence. }
    unfold _local_rate_limit, window_rate_limit, bucket_rate_limit.
    destruct (RateLimitRule.burst_limit rl) as [burst|].
    + destruct (burst =? 0)%Z.
      * destruct (sliding_window _ rl cost now). apply Hsw.
      * destruct (local_buckets a !! _) as [bk|].
        -- destruct (TokenBucket.consume bk (py_int cost) e1) as [[ok b1] e2].
           destruct ok; [apply Hsb|].
           destruct (TokenBucket.get_wait_time b1 (py_int cost)); apply Hsb.
        -- destruct (RateLimitRule.window_seconds rl =? 0)%Z; [apply Hrefl|].
           destruct (TokenBucket.init _ _ e1) as [bk e1'].
           destruct (TokenBucket.consume bk (py_int cost) e1') as [[ok b1] e2].
           destruct ok; [apply Hsb|].
           destruct (TokenBucket.get_wait_time b1 (py_int cost)); apply Hsb.
    + destruct (sliding_window _ rl cost now). apply Hsw.
Qed.

End KeyIsolation.

(** X9. With or without a store: a check for one identifier and limit
    type does not change what any later check answers for another
    identifier or another limit type, whatever the rules, the costs
    and the times of the two checks. *)
Theorem other_keys_are_not_charged
    (rl : RateLimiter.t) (id1 id2 : string) (ty1 ty2 : RateLimitType)
    (rule1 rule2 : option RateLimitRule.t) (cost1 cost2 : Q) (e e' : Env) :
  (id1, ty1) <> (id2, ty2) ->
  let rl1 := snd (fst (RateLimiter.is_allowed rl id1 ty1 rule1 cost1 e)) in
  fst (fst (RateLimiter.is_allowed rl1 id2 ty2 rule2 cost2 e')) =
    fst (fst (RateLimiter.is_allowed rl id2 ty2 rule2 cost2 e')).
Proof.
  intros Hne rl1. apply is_allowed_same. apply is_allowed_other.
  intros E. apply key_of_inj in E. destruct E as [-> ->]. apply Hne.
  reflexivity.
Qed.

Lemma other_keys_are_not_charged_witness :
  let rl := RateLimiter.init (Some Redis.empty) in
  let rule := Some (RateLimitRule.plain 1 60) in
  let rl1 :=
    snd (fst (RateLimiter.is_allowed rl "user:ann" REQUESTS_PER_MINUTE rule 1
                (env_at [5]))) in
  ("user:ann"%string, REQUESTS_PER_MINUTE) <>
    ("user:bob"%string, REQUESTS_PER_MINUTE) /\
  fst (fst (RateLimiter.is_allowed rl1 "user:bob" REQUESTS_PER_MINUTE rule 1
              (env_at [6]))) =
    fst (fst (RateLimiter.is_allowed rl "user:bob" REQUESTS_PER_MINUTE rule 1
                (env_at [6]))).
Proof.
  intros rl rule rl1.
  assert (("user:ann"%string, REQUESTS_PER_MINUTE) <>
          ("user:bob"%string, REQUESTS_PER_MINUTE)) as Hne by discriminate.
  split; [exact Hne|].
  exact (other_keys_are_not_charged rl "user:ann" "user:bob"
           REQUESTS_PER_MINUTE REQUESTS_PER_MINUTE rule rule 1 1
           (env_at [5]) (env_at [6]) Hne).
Defined.

(** ** TokenBucket: what a bucket grants over time *)

Section BucketBudget.

Import TokenBucket.



End BucketBudget.



(** ** RateLimiter: rules with a burst allowance, without a store *)

Section BurstRule.

Import RateLimiter.

Lemma is_allowed_bucket (rl : t) (identifier : string) (ty : RateLimitType)
    (rule : RateLimitRule.t) (B : Z) (cost : Q) (e : Env) :
  redis_client rl = None ->
  RateLimitRule.burst_limit rule = Some B -> B <> 0%Z ->
  is_allowed rl identifier ty (Some rule) cost e =
    bucket_rate_limit rl (key_of identifier ty) rule B cost
      (readings e (tick e)) (later 1 e).
Proof.
  intros Hr Hb HB. unfold is_allowed. rewrite time_time_later, Hr.
  unfold _local_rate_limit. rewrite Hb.
  destruct (B =? 0)%Z eqn:E; [apply Z.eqb_eq in E; contradiction|].
  reflexivity.
Qed.



Lemma set_bucket_lookup (rl : t) (k : string) (b : TokenBucket.t) :
  local_buckets (set_bucket rl k b) !! k = Some b.
Proof. apply lookup_insert_eq. Qed.






End BurstRule.



(** ** RateLimiter: a burst rule whose limit is 0 *)

Section ZeroLimit.

Import RateLimiter.

(** Creating the bucket and going on is going on with the bucket
    created. *)
Lemma bucket_rate_limit_created (rl : t) (key : string)
    (rule : RateLimitRule.t) (B : Z) (cost now : Q) (e : Env) :
  local_buckets rl !! (key +:+ ":bucket")%string = None ->
  RateLimitRule.window_seconds rule <> 0%Z ->
  let rate :=
    inject_Z (RateLimitRule.limit rule)
    / inject_Z (RateLimitRule.window_seconds rule) in
  let b0 := TokenBucket.mk B rate (inject_Z B) (readings e (tick e)) in
  let out := bucket_rate_limit rl key rule B cost now e in
  let out' :=
    bucket_rate_limit (set_bucket rl (key +:+ ":bucket")%string b0) key rule B
      cost now (later 1 e) in
  fst (fst out) = fst (fst out') /\
  local_buckets (snd (fst out)) !! (key +:+ ":bucket")%string =
    local_buckets (snd (fst out')) !! (key +:+ ":bucket")%string /\
  redis_client (snd (fst out)) = redis_client rl /\
  snd out = snd out'.
Proof.
  intros Hb HW rate b0 out out'. subst out out'. unfold bucket_rate_limit.
  rewrite Hb, set_bucket_lookup.
  destruct (RateLimitRule.window_seconds rule =? 0)%Z eqn:E;
    [apply Z.eqb_eq in E; contradiction|].
  unfold TokenBucket.init. rewrite time_time_later. fold rate. fold b0.
  destruct (TokenBucket.consume b0 (py_int cost) (later 1 e))
    as [[ok b1] e2].
  destruct ok.
  - cbn [fst snd]. rewrite !set_bucket_lookup. auto.
  - destruct (TokenBucket.get_wait_time b1 (py_int cost));
      cbn [fst snd]; rewrite !set_bucket_lookup; auto.
Qed.

(** One request for one token on a bucket that is not refilled: a
    token is granted while there is one, and then the wait time cannot
    be computed. *)
Lemma zero_rate_step (rl : t) (key : string) (rule : RateLimitRule.t)
    (B : Z) (cost now : Q) (e : Env) (b : TokenBucket.t) (m : Z) :
  local_buckets rl !! (key +:+ ":bucket")%string = Some b ->
  TokenBucket.refill_rate b == 0 ->
  TokenBucket.tokens b == inject_Z m ->
  (0 <= m <= TokenBucket.capacity b)%Z ->
  py_int cost = 1%Z ->
  let out := bucket_rate_limit rl key rule B cost now e in
  (if (1 <=? m)%Z then is_admitted (fst (fst out)) = true
   else fst (fst out) = Raise ZeroDivisionError) /\
  redis_client (snd (fst out)) = redis_client rl /\
  exists b1 : TokenBucket.t,
    local_buckets (snd (fst out)) !! (key +:+ ":bucket")%string = Some b1 /\
    TokenBucket.refill_rate b1 == 0 /\
    TokenBucket.tokens b1 == inject_Z (Z.max 0 (m - 1)) /\
    TokenBucket.capacity b1 = TokenBucket.capacity b.
Proof.
  intros Hb Hrate Htok Hm Hcost out. subst out. unfold bucket_rate_limit.
  rewrite Hb, Hcost, consume_fields. cbv zeta.
  set (t1 := readings e (tick e)).
  assert (TokenBucket.tokens (TokenBucket.refill b t1) == inject_Z m)
    as Hrefilled.
  { unfold TokenBucket.refill. cbn [TokenBucket.tokens].
    assert (TokenBucket.tokens b
            + (t1 - TokenBucket.last_refill b) * TokenBucket.refill_rate b
            == inject_Z m) as Hx.
    { rewrite Hrate, Htok. ring. }
    rewrite Q.min_r; [exact Hx|]. rewrite Hx, <- Zle_Qle. lia. }
  set (refilled := TokenBucket.tokens (TokenBucket.refill b t1)) in *.
  destruct (Qle_bool (inject_Z 1) refilled) eqn:E.
  - apply Qle_bool_iff in E. rewrite Hrefilled, <- Zle_Qle in E.
    assert ((1 <=? m)%Z = true) as -> by (apply Z.leb_le; exact E).
    cbn [fst snd is_admitted RateLimitResult.allowed].
    split; [reflexivity|]. split; [reflexivity|].
    eexists. split; [apply set_bucket_lookup|].
    cbn [TokenBucket.refill_rate TokenBucket.tokens TokenBucket.capacity].
    split; [exact Hrate|]. split; [|reflexivity].
    rewrite Hrefilled, Z.max_r by lia.
    unfold Z.sub. rewrite inject_Z_plus, inject_Z_opp. ring.
  - apply Qle_bool_false_iff in E. rewrite Hrefilled, <- Zlt_Qlt in E.
    assert ((1 <=? m)%Z = false) as -> by (apply Z.leb_gt; exact E).
    unfold TokenBucket.get_wait_time.
    cbn [TokenBucket.refill_rate TokenBucket.tokens TokenBucket.capacity].
    assert (Qle_bool (inject_Z 1) refilled = false) as ->.
    { apply Qle_bool_false_iff. rewrite Hrefilled, <- Zlt_Qlt. exact E. }
    assert (Qeq_bool (TokenBucket.refill_rate b) 0 = true) as ->
      by (apply Qeq_bool_iff; exact Hrate).
    cbn [fst snd]. split; [reflexivity|]. split; [reflexivity|].
    eexists. split; [apply set_bucket_lookup|].
    cbn [TokenBucket.refill_rate TokenBucket.tokens TokenBucket.capacity].
    split; [exact Hrate|]. split; [|reflexivity].
    rewrite Hrefilled. replace m with 0%Z by lia. reflexivity.
Qed.

(** Requests for one token each, on a bucket that is not refilled. *)
Lemma serve_zero_rate (identifier : string) (ty : RateLimitType)
    (rule : RateLimitRule.t) (B : Z) :
  RateLimitRule.burst_limit rule = Some B -> B <> 0%Z ->
  forall (reqs : list request) (rl : t) (e : Env) (b : TokenBucket.t) (m : Z),
    redis_client rl = None ->
    local_buckets rl !! bucket_key_of identifier ty = Some b ->
    TokenBucket.refill_rate b == 0 ->
    TokenBucket.tokens b == inject_Z m ->
    (0 <= m <= TokenBucket.capacity b)%Z ->
    Forall (fun q => tokens_needed q = 1%Z) reqs ->
    forall (i : nat) (r : Res RateLimitResult.t),
      fst (fst (serve reqs rl identifier ty (Some rule) e)) !! i = Some r ->
      if (Z.of_nat i <? m)%Z then is_admitted r = true
      else r = Raise ZeroDivisionError.
Proof.
  intros Hburst HB.
  induction reqs as [|q rest IH];
    intros rl e b m Hr Hb Hrate Htok Hm Hunit i r Hi.
  - cbn in Hi. rewrite lookup_nil in Hi. discriminate Hi.
  - inversion Hunit as [|? ? Hq Hrest]; subst.
    cbn [serve] in Hi.
    rewrite (is_allowed_bucket rl identifier ty rule B) in Hi by assumption.
    set (e0 := as_task (req_task q) e) in *.
    pose proof (zero_rate_step rl (key_of identifier ty) rule B (req_cost q)
                  (readings e0 (tick e0)) (later 1 e0) b m Hb Hrate Htok Hm Hq)
      as Hstep.
    cbv zeta in Hstep.
    destruct (bucket_rate_limit rl (key_of identifier ty) rule B (req_cost q)
                (readings e0 (tick e0)) (later 1 e0)) as [[r0 rl1] e1].
    cbn [fst snd] in Hstep.
    destruct Hstep as (Hres & Hr1 & b1 & Hb1 & Hrate1 & Htok1 & HC1).
    rewrite Hr in Hr1.
    specialize (IH rl1 e1 b1 (Z.max 0 (m - 1)) Hr1 Hb1 Hrate1 Htok1
                  ltac:(lia) Hrest).
    destruct (serve rest rl1 identifier ty (Some rule) e1) as [[rs rl2] e2].
    cbn [fst snd] in *.
    destruct i as [|i].
    + cbn in Hi. injection Hi as <-.
      destruct (1 <=? m)%Z eqn:E1.
      * apply Z.leb_le in E1.
        assert ((Z.of_nat 0 <? m)%Z = true) as -> by (apply Z.ltb_lt; lia).
        exact Hres.
      * apply Z.leb_gt in E1.
        assert ((Z.of_nat 0 <? m)%Z = false) as -> by (apply Z.ltb_ge; lia).
        exact Hres.
    + cbn in Hi. specialize (IH i r Hi).
      destruct (Z.of_nat i <? Z.max 0 (m - 1))%Z eqn:E1.
      * apply Z.ltb_lt in E1.
        assert ((Z.of_nat (S i) <? m)%Z = true) as ->
          by (apply Z.ltb_lt; lia).
        exact IH.
      * apply Z.ltb_ge in E1.
        assert ((Z.of_nat (S i) <? m)%Z = false) as ->
          by (apply Z.ltb_ge; lia).
        exact IH.
Qed.

End ZeroLimit.

(** X12. Without a store, a rule with a burst allowance [B] > 0 and
    limit 0 never answers with a denial: of the requests for one token
    each that are served for a key without bucket, whatever the clock,
    the first [B] are admitted and every later one makes [is_allowed]
    raise ZeroDivisionError (the wait time divides by the refill rate
    [limit / window_seconds], which is 0). *)
Theorem zero_limit_burst_rule_raises
    (rl : RateLimiter.t) (identifier : string) (ty : RateLimitType)
    (rule : RateLimitRule.t) (B : Z) (reqs : list request) (e : Env) :
  RateLimiter.redis_client rl = None ->
  RateLimitRule.burst_limit rule = Some B -> (0 < B)%Z ->
  RateLimitRule.limit rule = 0%Z ->
  RateLimitRule.window_seconds rule <> 0%Z ->
  RateLimiter.local_buckets rl !! bucket_key_of identifier ty = None ->
  Forall (fun q => tokens_needed q = 1%Z) reqs ->
  forall (i : nat) (r : Res RateLimitResult.t),
    fst (fst (serve reqs rl identifier ty (Some rule) e)) !! i = Some r ->
    if (Z.of_nat i <? B)%Z then is_admitted r = true
    else r = Raise ZeroDivisionError.
Proof.
  intros Hr Hburst HB HL HW Hfresh Hunit i r Hi.
  destruct reqs as [|q rest].
  - cbn in Hi. rewrite lookup_nil in Hi. discriminate Hi.
  - inversion Hunit as [|? ? Hq Hrest]; subst.
    cbn [serve] in Hi.
    rewrite (is_allowed_bucket rl identifier ty rule B) in Hi
      by (assumption || lia).
    set (e0 := as_task (req_task q) e) in *.
    pose proof (bucket_rate_limit_created rl (key_of identifier ty) rule B
                  (req_cost q) (readings e0 (tick e0)) (later 1 e0)
                  Hfresh HW) as Hnew.
    cbv zeta in Hnew. rewrite HL in Hnew.
    set (b0 := TokenBucket.mk B _ _ _) in Hnew.
    assert (TokenBucket.refill_rate b0 == 0) as Hrate0.
    { cbn. unfold Qdiv. apply Qmult_0_l. }
    pose proof (zero_rate_step
                  (RateLimiter.set_bucket rl
                     (key_of identifier ty +:+ ":bucket")%string b0)
                  (key_of identifier ty) rule B (req_cost q)
                  (readings e0 (tick e0)) (later 1 (later 1 e0)) b0 B
                  (set_bucket_lookup _ _ _) Hrate0 ltac:(reflexivity)
                  ltac:(cbn; lia) Hq) as Hstep.
    cbv zeta in Hstep.
    destruct (RateLimiter.bucket_rate_limit
                (RateLimiter.set_bucket rl
                   (key_of identifier ty +:+ ":bucket")%string b0)
                (key_of identifier ty) rule B (req_cost q)
                (readings e0 (tick e0)) (later 1 (later 1 e0)))
      as [[r0' rl1'] e1'].
    destruct (RateLimiter.bucket_rate_limit rl (key_of identifier ty) rule B
                (req_cost q) (readings e0 (tick e0)) (later 1 e0))
      as [[r0 rl1] e1].
    cbn [fst snd] in Hnew, Hstep.
    destruct Hnew as (-> & Hsame & Hr1 & ->).
    destruct Hstep as (Hres & _ & b1 & Hb1 & Hrate1 & Htok1 & HC1).
    rewrite <- Hsame in Hb1. rewrite Hr in Hr1.
    pose proof (serve_zero_rate identifier ty rule B Hburst ltac:(lia) rest
                  rl1 e1' b1 (Z.max 0 (B - 1)) Hr1 Hb1 Hrate1 Htok1
                  ltac:(cbn in HC1; lia) Hrest) as Hrest'.
    destruct (serve rest rl1 identifier ty (Some rule) e1')
      as [[rs rl2] e2].
    cbn [fst snd] in *.
    destruct i as [|i].
    + cbn in Hi. injection Hi as <-.
      assert ((1 <=? B)%Z = true) as HB1 by (apply Z.leb_le; lia).
      rewrite HB1 in Hres.
      assert ((Z.of_nat 0 <? B)%Z = true) as -> by (apply Z.ltb_lt; lia).
      exact Hres.
    + cbn in Hi. specialize (Hrest' i r Hi).
      destruct (Z.of_nat i <? Z.max 0 (B - 1))%Z eqn:E1.
      * apply Z.ltb_lt in E1.
        assert ((Z.of_nat (S i) <? B)%Z = true) as ->
          by (apply Z.ltb_lt; lia).
        exact Hrest'.
      * apply Z.ltb_ge in E1.
        assert ((Z.of_nat (S i) <? B)%Z = false) as ->
          by (apply Z.ltb_ge; lia).
        exact Hrest'.
Qed.

Lemma zero_limit_burst_rule_raises_witness :
  let rule := RateLimitRule.mk 0 60 (Some 2%Z) 1 false in
  let reqs := [mkreq 1 1; mkreq 2 1; mkreq 3 1] in
  let e := env_at [0; 0; 0; 100; 100; 200; 200] in
  let results :=
    fst (fst (serve reqs (RateLimiter.init None) "client" REQUESTS_PER_MINUTE
                (Some rule) e)) in
  results !! 2%nat = Some (Raise ZeroDivisionError) /\
  (if (Z.of_nat 2 <? 2)%Z
   then is_admitted (Raise ZeroDivisionError : Res RateLimitResult.t) = true
   else (Raise ZeroDivisionError : Res RateLimitResult.t)
        = Raise ZeroDivisionError).
Proof.
  intros rule reqs e results.
  assert (results !! 2%nat = Some (Raise ZeroDivisionError)) as Hi
    by reflexivity.
  split; [exact Hi|].
  apply (zero_limit_burst_rule_raises (RateLimiter.init None) "client"
           REQUESTS_PER_MINUTE rule 2 reqs e).
  - reflexivity.
  - reflexivity.
  - lia.
  - reflexivity.
  - discriminate.
  - reflexivity.
  - repeat constructor.
  - exact Hi.
Defined.

(** ** RateLimiter: the bucket of a key outlives the rule *)

Section BucketOutlivesRule.

Import RateLimiter.

(** On a bucket that exists, the rule is read for the [limit] and the
    [reset_time] of the result only. *)
Lemma bucket_rate_limit_any_rule (rl : t) (key : string)
    (rule rule' : RateLimitRule.t) (B B' : Z) (cost now : Q) (e : Env)
    (b : TokenBucket.t) :
  local_buckets rl !! (key +:+ ":bucket")%string = Some b ->
  let out := bucket_rate_limit rl key rule B cost now e in
  let out' := bucket_rate_limit rl key rule' B' cost now e in
  verdict (fst (fst out)) = verdict (fst (fst out')) /\
  snd (fst out) = snd (fst out') /\ snd out = snd out' /\
  redis_client (snd (fst out)) = redis_client rl /\
  exists b1 : TokenBucket.t,
    local_buckets (snd (fst out)) !! (key +:+ ":bucket")%string = Some b1.
Proof.
  intros Hb out out'. subst out out'. unfold bucket_rate_limit. rewrite Hb.
  destruct (TokenBucket.consume b (py_int cost) e) as [[ok b1] e2].
  destruct ok.
  - cbn. rewrite lookup_insert_eq. eauto 6.
  - destruct (TokenBucket.get_wait_time b1 (py_int cost));
      cbn; rewrite lookup_insert_eq; eauto 6.
Qed.

Lemma serve_any_rule (identifier : string) (ty : RateLimitType)
    (rule rule' : RateLimitRule.t) (B B' : Z) :
  RateLimitRule.burst_limit rule = Some B -> B <> 0%Z ->
  RateLimitRule.burst_limit rule' = Some B' -> B' <> 0%Z ->
  forall (reqs : list request) (rl : t) (e : Env) (b : TokenBucket.t),
    redis_client rl = None ->
    local_buckets rl !! bucket_key_of identifier ty = Some b ->
    List.map verdict
      (fst (fst (serve reqs rl identifier ty (Some rule) e))) =
    List.map verdict
      (fst (fst (serve reqs rl identifier ty (Some rule') e))).
Proof.
  intros Hb HB Hb' HB'.
  induction reqs as [|q rest IH]; intros rl e b Hr Hbk; [reflexivity|].
  cbn [serve].
  rewrite (is_allowed_bucket rl identifier ty rule B),
          (is_allowed_bucket rl identifier ty rule' B') by assumption.
  set (e0 := as_task (req_task q) e).
  pose proof (bucket_rate_limit_any_rule rl (key_of identifier ty) rule rule'
                B B' (req_cost q) (readings e0 (tick e0)) (later 1 e0) b Hbk)
    as Hstep.
  cbv zeta in Hstep.
  destruct (bucket_rate_limit rl (key_of identifier ty) rule B (req_cost q)
              (readings e0 (tick e0)) (later 1 e0)) as [[r rl1] e1].
  destruct (bucket_rate_limit rl (key_of identifier ty) rule' B' (req_cost q)
              (readings e0 (tick e0)) (later 1 e0)) as [[r' rl1'] e1'].
  cbn [fst snd] in Hstep. destruct Hstep as (Hv & <- & <- & Hr1 & b1 & Hb1).
  rewrite Hr in Hr1.
  specialize (IH rl1 e1 b1 Hr1 Hb1).
  destruct (serve rest rl1 identifier ty (Some rule) e1) as [[rs rl2] e2].
  destruct (serve rest rl1 identifier ty (Some rule') e1) as [[rs' rl2'] e2'].
  cbn [fst snd List.map] in *. rewrite Hv, IH. reflexivity.
Qed.

End BucketOutlivesRule.

(** X13. Without a store, the bucket of a key is made from the rule of
    the first check and is never made again: once the key has a bucket,
    checks under any other rule with a burst allowance are admitted or
    denied, with the same remaining count and [retry_after], as under
    the rule they would have been served with before; the new limit,
    window and burst allowance have no effect. *)
Theorem bucket_outlives_its_rule
    (rl : RateLimiter.t) (identifier : string) (ty : RateLimitType)
    (rule rule' : RateLimitRule.t) (reqs : list request) (e : Env) :
  RateLimiter.redis_client rl = None ->
  RateLimitRule.has_burst rule = true ->
  RateLimitRule.has_burst rule' = true ->
  is_Some (RateLimiter.local_buckets rl !! bucket_key_of identifier ty) ->
  List.map verdict
    (fst (fst (serve reqs rl identifier ty (Some rule) e))) =
  List.map verdict
    (fst (fst (serve reqs rl identifier ty (Some rule') e))).
Proof.
  intros Hr Hb Hb' [b Hbk]. unfold RateLimitRule.has_burst in Hb, Hb'.
  destruct (RateLimitRule.burst_limit rule) as [B|] eqn:EB;
    [|discriminate Hb].
  destruct (RateLimitRule.burst_limit rule') as [B'|] eqn:EB';
    [|discriminate Hb'].
  apply (serve_any_rule identifier ty rule rule' B B' EB) with (b := b).
  - intros ->. discriminate Hb.
  - exact EB'.
  - intros ->. discriminate Hb'.
  - exact Hr.
  - exact Hbk.
Qed.

Lemma bucket_outlives_its_rule_witness :
  let basic := RateLimitRule.mk 50 60 (Some 75%Z) 1 false in
  let premium := RateLimitRule.mk 100 60 (Some 150%Z) 1 false in
  let rl :=
    snd (fst (RateLimiter.is_allowed (RateLimiter.init None) "user:u1"
                REQUESTS_PER_MINUTE (Some basic) 1 (env_at [0; 0; 0]))) in
  let reqs := [mkreq 1 1; mkreq 2 80; mkreq 3 1] in
  let e := env_at [1; 1; 2; 2; 3; 3] in
  List.map verdict
    (fst (fst (serve reqs rl "user:u1" REQUESTS_PER_MINUTE (Some basic) e))) =
  List.map verdict
    (fst (fst (serve reqs rl "user:u1" REQUESTS_PER_MINUTE (Some premium) e))).
Proof.
  intros basic premium rl reqs e.
  apply (bucket_outlives_its_rule rl "user:u1" REQUESTS_PER_MINUTE basic
           premium reqs e).
  - reflexivity.
  - reflexivity.
  - reflexivity.
  - eexists. vm_compute. reflexivity.
Defined.

(** ** AuthManager: the checks on a record *)

Section VerifyFacts.

Import AuthManager.

(** The four checks of [verify], in their order, and what a success
    leaves behind. *)
Lemma verify_cases (self : t) (api_key key_id : string)
    (client_ip : option string) (record : APIKey.t) (e : Env) :
  let out := verify self api_key key_id client_ip record e in
  let now := readings e (tick e) in
  (SHA256.hexdigest api_key <> APIKey.key_hash record /\
   out = (AuthResult.failure "Invalid API key", self, [], e)) \/
  (SHA256.hexdigest api_key = APIKey.key_hash record /\
   APIKey.is_active record = false /\
   out = (AuthResult.failure "API key is disabled", self, [], e)) \/
  (SHA256.hexdigest api_key = APIKey.key_hash record /\
   APIKey.is_active record = true /\ expired_at record now = true /\
   out = (AuthResult.failure "API key has expired", self, [], later 1 e)) \/
  (SHA256.hexdigest api_key = APIKey.key_hash record /\
   APIKey.is_active record = true /\ expired_at record now = false /\
   ip_refused record client_ip = true /\
   AuthResult.error (result_of out) = Some "IP address not authorized"%string /\
   AuthResult.success (result_of out) = false /\
   manager_after out = self) \/
  (SHA256.hexdigest api_key = APIKey.key_hash record /\
   APIKey.is_active record = true /\ expired_at record now = false /\
   ip_refused record client_ip = false /\
   exists e2 : Env,
     snd out = later 1 (later 1 e2) /\ (e2 = e \/ e2 = later 1 e) /\
     let used_at := readings e2 (tick e2) in
     let cached_at := readings e2 (tick e2 + 1)%nat in
     result_of out =
       AuthResult.mk true (Some (APIKey.user_id record)) (APIKey.role record)
         (Some (used record used_at)) None
         (Some (RATE_LIMITS (APIKey.role record))) /\
     manager_after out =
       set_cache self
         (<[key_id := mkc (used record used_at)
                        (cached_at + inject_Z (cache_ttl self))]>
            (key_cache self))).
Proof.
  intros out now. subst out. unfold verify.
  destruct (String.eqb (SHA256.hexdigest api_key) (APIKey.key_hash record))
    eqn:Eh.
  2:{ left. apply String.eqb_neq in Eh. auto. }
  apply String.eqb_eq in Eh. right. cbn [negb].
  destruct (APIKey.is_active record) eqn:Ea; cbn [negb].
  2:{ left. auto. }
  right. unfold expired_at. fold (ip_refused record client_ip).
  destruct (APIKey.expires_at record) as [deadline|] eqn:Ed.
  - rewrite time_time_later. fold now.
    destruct (Qlt_bool deadline now) eqn:Ex.
    + left. auto.
    + right. destruct (ip_refused record client_ip) eqn:Eip.
      * left. repeat split; auto.
      * right. repeat split; auto.
        exists (later 1 e). rewrite !time_time_later.
        cbn [fst snd result_of manager_after].
        split; [reflexivity|]. split; [right; reflexivity|].
        unfold used. rewrite Ed, Ea. split; reflexivity.
  - right. destruct (ip_refused record client_ip) eqn:Eip.
    + left. repeat split; auto.
    + right. repeat split; auto.
      exists e. rewrite !time_time_later.
      cbn [fst snd result_of manager_after].
      split; [reflexivity|]. split; [left; reflexivity|].
      unfold used. rewrite Ed, Ea. split; reflexivity.
Qed.

End VerifyFacts.

Section AuthenticateFacts.

Import AuthManager.

Lemma verify_succeeds (self : t) (api_key key_id : string)
    (client_ip : option string) (record : APIKey.t) (e : Env) :
  SHA256.hexdigest api_key = APIKey.key_hash record ->
  APIKey.is_active record = true ->
  expired_at record (readings e (tick e)) = false ->
  ip_refused record client_ip = false ->
  AuthResult.success
    (result_of (verify self api_key key_id client_ip record e)) = true.
Proof.
  intros Hh Ha Hx Hip.
  destruct (verify_cases self api_key key_id client_ip record e)
    as [[H _] | [(_ & H & _) | [(_ & _ & H & _) | [(_ & _ & _ & H & _) | H]]]];
    try congruence.
  destruct H as (_ & _ & _ & _ & e2 & _ & _ & Hres & _).
  cbv zeta in Hres. rewrite Hres. reflexivity.
Qed.

(** The two reasons for which no record is found. *)
Lemma find_key_messages (self : t) (key_id msg : string) (e e1 : Env) :
  find_key self key_id e = (inl msg, e1) ->
  msg = "API key not found"%string \/
  msg = "Authentication service unavailable"%string.
Proof.
  unfold find_key. intros H.
  assert (forall e0,
             match redis_client self with
             | Some r =>
                 match KeyStore.get r (store_key key_id) e0 with
                 | (Some key, e2) => (inr key, e2)
                 | (None, e2) => (inl "API key not found"%string, e2)
                 end
             | None => (inl "Authentication service unavailable"%string, e0)
             end = (inl msg, e1) ->
             msg = "API key not found"%string \/
             msg = "Authentication service unavailable"%string) as Hstore.
  { intros e0 H0. destruct (redis_client self) as [r|].
    - destruct (KeyStore.get r (store_key key_id) e0) as [[k|] e2];
        [discriminate H0|]. injection H0 as <- _. left. reflexivity.
    - injection H0 as <- _. right. reflexivity. }
  destruct (key_cache self !! key_id) as [entry|]; [|exact (Hstore e H)].
  destruct (time_time e) as [now e0].
  destruct (Qlt_bool now (expires entry)); [discriminate H|].
  exact (Hstore e0 H).
Qed.

End AuthenticateFacts.

(** X14. The allow-list of a key is skipped when the caller passes no
    client address: every credential that [authenticate_api_key]
    refuses with "IP address not authorized" for some address is
    accepted, in the same state and at the same time, when the address
    is left out or empty. *)
Theorem allow_list_is_skipped_without_address
    (self : AuthManager.t) (api_key ip : string) (e : Env) :
  AuthResult.error
    (result_of (AuthManager.authenticate_api_key self api_key (Some ip) e))
  = Some "IP address not authorized"%string ->
  AuthResult.success
    (result_of (AuthManager.authenticate_api_key self api_key None e)) = true /\
  AuthResult.success
    (result_of
       (AuthManager.authenticate_api_key self api_key (Some ""%string) e))
  = true.
Proof.
  unfold AuthManager.authenticate_api_key.
  destruct (AuthManager.parse self api_key) as [key_id|];
    [|intros H; discriminate H].
  destruct (AuthManager.find_key self key_id e) as [[msg|record] e1] eqn:Ef.
  { intros H. apply find_key_messages in Ef.
    destruct Ef as [-> | ->]; discriminate H. }
  intros H.
  destruct (verify_cases self api_key key_id (Some ip) record e1)
    as [[_ Hc] | [(_ & _ & Hc) | [(_ & _ & _ & Hc) | [Hc | Hc]]]];
    try (rewrite Hc in H; discriminate H).
  - destruct Hc as (Hh & Ha & Hx & _).
    split; apply verify_succeeds; try assumption.
    + unfold ip_refused. destruct (APIKey.ip_whitelist record); reflexivity.
    + unfold ip_refused. destruct (APIKey.ip_whitelist record); reflexivity.
  - destruct Hc as (_ & _ & _ & _ & e2 & _ & _ & Hres & _).
    cbv zeta in Hres. rewrite Hres in H. discriminate H.
Qed.

Lemma allow_list_is_skipped_without_address_witness :
  let generated :=
    AuthManager.generate_api_key
      (AuthManager.init (Some KeyStore.empty) "secret") "u1" UserRole.PREMIUM
      APIKeyType.STANDARD "" (Some ["10.0.0.1"%string]) (env_with 1000 []) in
  let api_key := fst (fst (fst generated)) in
  let self := snd (fst generated) in
  let e := snd generated in
  AuthResult.success
    (result_of (AuthManager.authenticate_api_key self api_key None e)) = true /\
  AuthResult.success
    (result_of
       (AuthManager.authenticate_api_key self api_key (Some ""%string) e))
  = true.
Proof.
  intros generated api_key self e.
  apply (allow_list_is_skipped_without_address self api_key "10.0.0.2" e).
  vm_compute. reflexivity.
Defined.

(** ** AuthManager: revocation *)



(** ** AuthManager: the cache of a manager *)

Section CacheFacts.

Import AuthManager.

(** Looking a record up reads the clock and nothing else of the
    environment. *)
Lemma find_key_readings (self : t) (key_id : string) (e e1 : Env)
    (found : string + APIKey.t) :
  find_key self key_id e = (found, e1) -> readings e1 = readings e.
Proof.
  unfold find_key. intros H.
  assert (forall e0,
             match redis_client self with
             | Some r =>
                 match KeyStore.get r (store_key key_id) e0 with
                 | (Some key, e2) => (inr key, e2)
                 | (None, e2) => (inl "API key not found"%string, e2)
                 end
             | None => (inl "Authentication service unavailable"%string, e0)
             end = (found, e1) ->
             readings e1 = readings e0) as Hstore.
  { intros e0 H0. destruct (redis_client self) as [r|].
    - unfold KeyStore.get in H0. rewrite time_time_later in H0.
      destruct (match KeyStore.records r !! store_key key_id with
                | Some (value, deadline) =>
                    if Qlt_bool deadline (readings e0 (tick e0))
                    then None else Some value
                | None => None
                end); injection H0 as _ <-; reflexivity.
    - injection H0 as _ <-. reflexivity. }
  destruct (key_cache self !! key_id) as [entry|]; [|exact (Hstore e H)].
  rewrite time_time_later in H.
  destruct (Qlt_bool _ (expires entry)).
  - injection H as _ <-. reflexivity.
  - apply Hstore in H. exact H.
Qed.

End CacheFacts.

(** X16. A manager that has accepted a credential goes on accepting it
    from its cache, without asking the store, until [cache_ttl] (300)
    seconds after the key was last used: whatever the shared store
    holds by then (the record revoked by another manager, or gone),
    the credential is accepted again from the same address while the
    cache entry is fresh and the expiry date of the key has not
    passed. *)
Theorem cached_key_outlives_the_store
    (self : AuthManager.t) (api_key : string) (client_ip : option string)
    (e e' : Env) (store' : KeyStore.t) :
  monotone_clock e ->
  let first := AuthManager.authenticate_api_key self api_key client_ip e in
  AuthResult.success (result_of first) = true ->
  exists (record : APIKey.t) (used_at : Q),
    AuthResult.api_key (result_of first) = Some record /\
    APIKey.last_used record = Some used_at /\
    (readings e' (tick e') < used_at + inject_Z (AuthManager.cache_ttl self) ->
     expired_at record (readings e' (tick e' + 1)%nat) = false ->
     AuthResult.success
       (result_of
          (AuthManager.authenticate_api_key
             (with_store (manager_after first) store') api_key client_ip e'))
     = true).
Proof.
  intros Hm first.
  assert (first = AuthManager.authenticate_api_key self api_key client_ip e)
    as Efirst by reflexivity.
  clearbody first. unfold AuthManager.authenticate_api_key in Efirst.
  destruct (AuthManager.parse self api_key) as [key_id|] eqn:Eparse;
    [|subst first; intros H; discriminate H].
  destruct (AuthManager.find_key self key_id e) as [[msg|record] e1] eqn:Ef;
    [subst first; intros H; discriminate H|].
  apply find_key_readings in Ef. subst first.
  destruct (verify_cases self api_key key_id client_ip record e1)
    as [[_ Hc] | [(_ & _ & Hc) | [(_ & _ & _ & Hc) | [Hc | Hc]]]];
    try (rewrite Hc; intros H; discriminate H).
  { destruct Hc as (_ & _ & _ & _ & _ & Hc & _). rewrite Hc.
    intros H; discriminate H. }
  destruct Hc as (Hh & Ha & Hx & Hip & e2 & _ & He2 & Hres & Hmgr).
  cbv zeta in Hres, Hmgr. intros _.
  set (used_at := readings e2 (tick e2)) in *.
  exists (used record used_at), used_at.
  rewrite Hres. split; [reflexivity|]. split; [reflexivity|].
  intros Hfresh Hdate. rewrite Hmgr.
  unfold AuthManager.authenticate_api_key.
  assert (AuthManager.parse
            (with_store
               (AuthManager.set_cache self
                  (<[key_id := AuthManager.mkc (used record used_at)
                                 (readings e2 (tick e2 + 1)%nat
                                  + inject_Z (AuthManager.cache_ttl self))]>
                     (AuthManager.key_cache self))) store') api_key
          = Some key_id) as -> by exact Eparse.
  unfold AuthManager.find_key.
  cbn [AuthManager.key_cache with_store AuthManager.set_redis
       AuthManager.set_cache].
  rewrite lookup_insert_eq, time_time_later.
  cbn [AuthManager.expires AuthManager.data].
  assert (readings e2 = readings e) as Hr2.
  { destruct He2 as [-> | ->]; [exact Ef | cbn; exact Ef]. }
  assert (used_at <= readings e2 (tick e2 + 1)%nat) as Hle.
  { unfold used_at. rewrite Hr2. apply Hm. lia. }
  assert (Qlt_bool (readings e' (tick e'))
            (readings e2 (tick e2 + 1)%nat
             + inject_Z (AuthManager.cache_ttl self)) = true) as ->.
  { apply Qlt_bool_iff. lra. }
  apply verify_succeeds.
  - exact Hh.
  - exact Ha.
  - exact Hdate.
  - exact Hip.
Qed.

Lemma cached_key_outlives_the_store_witness :
  let generated :=
    AuthManager.generate_api_key
      (AuthManager.init (Some KeyStore.empty) "secret") "u1" UserRole.BASIC
      APIKeyType.STANDARD "" None (env_with 1000 []) in
  let api_key := fst (fst (fst generated)) in
  let self := snd (fst generated) in
  let e := snd generated in
  let first := AuthManager.authenticate_api_key self api_key None e in
  exists (record : APIKey.t) (used_at : Q),
    AuthResult.api_key (result_of first) = Some record /\
    APIKey.last_used record = Some used_at /\
    (readings e (tick e) < used_at + inject_Z (AuthManager.cache_ttl self) ->
     expired_at record (readings e (tick e + 1)%nat) = false ->
     AuthResult.success
       (result_of
          (AuthManager.authenticate_api_key
             (with_store (manager_after first) KeyStore.empty) api_key None e))
     = true).
Proof.
  intros generated api_key self e.
  apply (cached_key_outlives_the_store self api_key None e e KeyStore.empty).
  - apply scripted_monotone. reflexivity.
  - vm_compute. reflexivity.
Defined.

(** ** AuthManager: roles *)

(** X17. [has_role] orders the roles ANONYMOUS, BASIC, PREMIUM,
    DEVELOPER, ADMIN: a result that has a role has every role below
    it, [is_admin] is [has_role] for ADMIN, and a result that is not a
    success has no role at all, not even ANONYMOUS, which a request
    without credentials has; so every refusal of
    [authenticate_api_key] has less access than no credentials. *)
Theorem has_role_is_ordered
    (auth_result : AuthResult.t) (required lower : UserRole.t)
    (self : AuthManager.t) (api_key : string) (client_ip : option string)
    (e : Env) :
  (has_role auth_result required = true ->
   (role_hierarchy lower <= role_hierarchy required)%Z ->
   has_role auth_result lower = true) /\
  is_admin auth_result = has_role auth_result UserRole.ADMIN /\
  (AuthResult.success auth_result = false ->
   has_role auth_result lower = false) /\
  has_role anonymous_access UserRole.ANONYMOUS = true /\
  (let result :=
     result_of (AuthManager.authenticate_api_key self api_key client_ip e) in
   has_role result required = true ->
   AuthResult.success result = true /\
   exists record : APIKey.t,
     AuthResult.api_key result = Some record /\
     AuthResult.role result = APIKey.role record /\
     (role_hierarchy required <= role_hierarchy (APIKey.role record))%Z).
Proof.
  split; [|split; [|split; [|split]]].
  - unfold has_role. destruct (AuthResult.success auth_result); cbn;
      [|discriminate]. intros H Hle. apply Z.leb_le in H. apply Z.leb_le. lia.
  - unfold is_admin, has_role.
    destruct (AuthResult.success auth_result); [|reflexivity].
    destruct (AuthResult.role auth_result); reflexivity.
  - unfold has_role. intros ->. reflexivity.
  - reflexivity.
  - intros result Hrole.
    assert (AuthResult.success result = true) as Hs.
    { unfold has_role in Hrole. destruct (AuthResult.success result);
        [reflexivity | discriminate Hrole]. }
    split; [exact Hs|]. subst result.
    unfold AuthManager.authenticate_api_key in *.
    destruct (AuthManager.parse self api_key) as [key_id|];
      [|discriminate Hs].
    destruct (AuthManager.find_key self key_id e) as [[msg|record] e1];
      [discriminate Hs|].
    destruct (verify_cases self api_key key_id client_ip record e1)
      as [[_ Hc] | [(_ & _ & Hc) | [(_ & _ & _ & Hc) | [Hc | Hc]]]];
      try (rewrite Hc in Hs; discriminate Hs).
    { destruct Hc as (_ & _ & _ & _ & _ & Hc & _). rewrite Hc in Hs.
      discriminate Hs. }
    destruct Hc as (_ & _ & _ & _ & e2 & _ & _ & Hres & _).
    cbv zeta in Hres. rewrite Hres in *.
    eexists. split; [reflexivity|]. split; [reflexivity|].
    unfold has_role in Hrole. cbn in Hrole. apply Z.leb_le in Hrole.
    exact Hrole.
Qed.

(** ** check_multiple_limits: what a refused request has used *)

Section NoRollback.

Import RateLimiter.

Lemma same_for_key_refl (key : string) (a : t) : same_for_key key a a.
Proof. unfold same_for_key. destruct (redis_client a); auto. Qed.

Lemma same_for_key_trans (key : string) (a b c : t) :
  same_for_key key a b -> same_for_key key b c -> same_for_key key a c.
Proof.
  unfold same_for_key. intros (H1 & H2 & H3) (H4 & H5 & H6).
  split; [|split; congruence].
  destruct (redis_client a), (redis_client b), (redis_client c);
    try contradiction; try exact I. congruence.
Qed.

(** The checks of the other limit types leave the key of a limit type
    as it is. *)
Lemma check_multiple_limits_other (identifier : string) (ty : RateLimitType)
    (limits : list (RateLimitType * RateLimitRule.t)) :
  Forall (fun p => fst p <> ty) limits ->
  forall (rl : t) (e : Env),
    same_for_key (key_of identifier ty)
      (snd (fst (check_multiple_limits rl identifier limits e))) rl.
Proof.
  induction 1 as [|[ty' rule'] rest Hty Hrest IH]; intros rl e.
  - apply same_for_key_refl.
  - cbn [check_multiple_limits].
    assert (key_of identifier ty <> key_of identifier ty') as Hk.
    { intros E. apply key_of_inj in E as [_ E]. cbn in Hty. congruence. }
    pose proof (is_allowed_other rl identifier ty' (Some rule') 1 e
                  (key_of identifier ty) Hk) as Hstep.
    destruct (is_allowed rl identifier ty' (Some rule') 1 e)
      as [[[result|x] rl1] e1]; cbn [fst snd] in *; [|exact Hstep].
    destruct (negb (RateLimitResult.allowed result)); [exact Hstep|].
    apply same_for_key_trans with rl1; [apply IH | exact Hstep].
Qed.

End NoRollback.

(** X18. [check_multiple_limits] does not take back what an earlier
    rule has counted: whatever the later rules answer (a denial, an
    error or an admission), the limiter afterwards holds for the first
    limit type exactly what the admitted check of that limit type
    left. A request that a later rule refuses has used the quota of
    the rules before it. *)
Theorem refused_request_keeps_earlier_charges
    (rl : RateLimiter.t) (identifier : string) (ty : RateLimitType)
    (rule : RateLimitRule.t) (rest : list (RateLimitType * RateLimitRule.t))
    (e : Env) :
  Forall (fun p => fst p <> ty) rest ->
  let first := RateLimiter.is_allowed rl identifier ty (Some rule) 1 e in
  is_admitted (fst (fst first)) = true ->
  same_for_key (key_of identifier ty)
    (snd (fst (check_multiple_limits rl identifier ((ty, rule) :: rest) e)))
    (snd (fst first)).
Proof.
  intros Hrest first Hadm. subst first. cbn [check_multiple_limits].
  destruct (RateLimiter.is_allowed rl identifier ty (Some rule) 1 e)
    as [[[result|x] rl1] e1]; cbn [fst snd is_admitted] in *;
    [|discriminate Hadm].
  rewrite Hadm. cbn [negb].
  apply check_multiple_limits_other. exact Hrest.
Qed.

Lemma refused_request_keeps_earlier_charges_witness :
  let rl := RateLimiter.init None in
  let minute := RateLimitRule.plain 5 60 in
  let hour := RateLimitRule.plain 0 3600 in
  let e := env_at [100; 100] in
  let first :=
    RateLimiter.is_allowed rl "client" REQUESTS_PER_MINUTE (Some minute) 1 e in
  let out :=
    check_multiple_limits rl "client"
      [(REQUESTS_PER_MINUTE, minute); (REQUESTS_PER_HOUR, hour)] e in
  is_admitted (fst (fst out)) = false /\
  RateLimiter.local_windows (snd (fst out))
    !! key_of "client" REQUESTS_PER_MINUTE = Some [100] /\
  same_for_key (key_of "client" REQUESTS_PER_MINUTE)
    (snd (fst out)) (snd (fst first)).
Proof.
  intros rl minute hour e first out.
  split; [reflexivity|]. split; [vm_compute; reflexivity|].
  apply (refused_request_keeps_earlier_charges rl "client" REQUESTS_PER_MINUTE
           minute [(REQUESTS_PER_HOUR, hour)] e).
  - repeat constructor. discriminate.
  - reflexivity.
Defined.

(** ** The secured server: from a refusal to a block *)

Section ServerFacts.

Import SecureServer.

Lemma younger_lookup_None (now : Q) (age : Z) (m : gmap string Q)
    (k : string) :
  m !! k = None -> DDoSProtection.younger now age m !! k = None.
Proof.
  intros H. destruct (DDoSProtection.younger now age m !! k) as [ts|] eqn:E;
    [|reflexivity].
  apply younger_lookup in E as [E _]. congruence.
Qed.

(** An address that is not reported is not blocked afterwards. *)
Lemma is_suspicious_false (d : DDoSProtection.t) (ip : string) (e : Env) :
  fst (fst (DDoSProtection.is_suspicious d ip e)) = false ->
  DDoSProtection.blocked_ips (snd (fst (DDoSProtection.is_suspicious d ip e)))
    !! ip = None /\
  snd (DDoSProtection.is_suspicious d ip e) = later 1 e.
Proof.
  unfold DDoSProtection.is_suspicious. rewrite time_time_later.
  destruct (DDoSProtection.younger _ 86400 _ !! ip) eqn:Eb;
    [intros H; discriminate H|].
  destruct (DDoSProtection.younger _ 3600 _ !! ip) as [f|].
  - destruct (Qlt_bool _ 300); [intros H; discriminate H|].
    intros _. cbn. auto.
  - intros _. cbn. auto.
Qed.

(** A check on a blocked address is refused whoever asks. *)
Lemma check_blocked (s : t) (auth_result : AuthResult.t) (endpoint : string)
    (cost : Q) (e : Env) (b : Q) :
  DDoSProtection.blocked_ips (ddos_protection s) !! getenv_CLIENT_IP s
    = Some b ->
  readings e (tick e) - b < 86400 ->
  fst (fst (check_rate_limits s auth_result endpoint cost e)) = Ok false.
Proof.
  intros Hb Hage. unfold check_rate_limits.
  rewrite (is_suspicious_blocked _ _ e b Hb Hage). reflexivity.
Qed.

End ServerFacts.

(** X19. One refusal by the rate limits, and the next request, put the
    address of the server's clients out for a day: when
    [check_rate_limits] refuses a request of an address that is not
    reported as suspicious (so the limits refused it), and the next
    check starts less than 300 s after the clock reading that ended
    the first, then this next check is refused whoever asks, also an
    ADMIN and also another user, without consulting the limits; the
    address is blocked from then on, and every check that starts less
    than 86400 s later is refused. *)
Theorem one_refusal_blocks_the_address
    (s : SecureServer.t) (a1 a2 : AuthResult.t) (endpoint1 endpoint2 : string)
    (cost1 cost2 : Q) (e : Env) :
  let ip := SecureServer.getenv_CLIENT_IP s in
  let first := SecureServer.check_rate_limits s a1 endpoint1 cost1 e in
  let s1 := snd (fst first) in
  let e1 := snd first in
  let second := SecureServer.check_rate_limits s1 a2 endpoint2 cost2 e1 in
  let s2 := snd (fst second) in
  fst (fst (DDoSProtection.is_suspicious (SecureServer.ddos_protection s) ip e))
    = false ->
  fst (fst first) = Ok false ->
  readings e1 (tick e1) - readings e1 (tick e1 - 1)%nat < 300 ->
  fst (fst second) = Ok false /\
  SecureServer.rate_limiter s2 = SecureServer.rate_limiter s1 /\
  DDoSProtection.blocked_ips (SecureServer.ddos_protection s2) !! ip
    = Some (readings e1 (tick e1)) /\
  forall (a3 : AuthResult.t) (endpoint3 : string) (cost3 : Q) (e3 : Env),
    readings e3 (tick e3) - readings e1 (tick e1) < 86400 ->
    fst (fst (SecureServer.check_rate_limits s2 a3 endpoint3 cost3 e3))
      = Ok false.
Proof.
  intros ip first s1 e1 second s2 Hclean Hrefused Hsoon.
  assert (exists (rl1 : RateLimiter.t) (d1 : DDoSProtection.t) (e2 : Env),
             first =
               (Ok false,
                SecureServer.mk rl1
                  (DDoSProtection.mk
                     (<[ip := readings e2 (tick e2)]>
                        (DDoSProtection.suspicious_ips d1))
                     (DDoSProtection.blocked_ips d1))
                  (SecureServer.CLIENT_IP s),
                later 1 e2) /\
             DDoSProtection.blocked_ips d1 !! ip = None)
    as (rl1 & d1 & e2 & Efirst & Hnot).
  { subst first. unfold SecureServer.check_rate_limits in Hrefused |- *.
    fold ip in Hrefused |- *.
    pose proof (is_suspicious_false _ _ _ Hclean) as [Hnb _].
    destruct (DDoSProtection.is_suspicious (SecureServer.ddos_protection s)
                ip e) as [[susp d1] e0].
    cbn [fst snd] in Hclean, Hnb. subst susp.
    destruct (SecureServer.role_limits (AuthResult.role a1)) as [limits|];
      [|discriminate Hrefused].
    destruct (check_multiple_limits (SecureServer.rate_limiter s) _ limits e0)
      as [[[result|x] rl1] e2]; [|discriminate Hrefused].
    destruct (negb (RateLimitResult.allowed result));
      [|discriminate Hrefused].
    unfold DDoSProtection.mark_suspicious. rewrite time_time_later.
    exists rl1, d1, e2. split; [reflexivity | exact Hnb]. }
  subst s2 second s1 e1. clearbody first. subst first. cbn [fst snd] in *.
  set (now2 := readings (later 1 e2) (tick (later 1 e2))) in *.
  assert (readings (later 1 e2) (tick (later 1 e2) - 1)%nat
          = readings e2 (tick e2)) as Hmark.
  { cbn. f_equal. lia. }
  rewrite Hmark in Hsoon.
  set (s1 := SecureServer.mk rl1 _ _) in *.
  assert (SecureServer.check_rate_limits s1 a2 endpoint2 cost2 (later 1 e2) =
            (Ok false,
             SecureServer.mk rl1
               (DDoSProtection.mk
                  (DDoSProtection.younger now2 3600
                     (<[ip := readings e2 (tick e2)]>
                        (DDoSProtection.suspicious_ips d1)))
                  (<[ip := now2]>
                     (DDoSProtection.younger now2 86400
                        (DDoSProtection.blocked_ips d1))))
               (SecureServer.CLIENT_IP s),
             later 1 (later 1 e2))) as Esecond.
  { assert (SecureServer.getenv_CLIENT_IP s1 = ip) as Hip by reflexivity.
    unfold SecureServer.check_rate_limits. rewrite Hip. unfold s1.
    cbn [SecureServer.CLIENT_IP SecureServer.ddos_protection
         SecureServer.rate_limiter].
    unfold DDoSProtection.is_suspicious. rewrite time_time_later. fold now2.
    cbn [DDoSProtection.suspicious_ips DDoSProtection.blocked_ips].
    rewrite (younger_lookup_None now2 86400 _ ip Hnot).
    assert (DDoSProtection.younger now2 3600
              (<[ip := readings e2 (tick e2)]>
                 (DDoSProtection.suspicious_ips d1)) !! ip
            = Some (readings e2 (tick e2))) as ->.
    { apply younger_lookup. split; [apply lookup_insert_eq|].
      unfold inject_Z. lra. }
    assert (Qlt_bool (now2 - readings e2 (tick e2)) 300 = true) as ->
      by (apply Qlt_bool_iff; exact Hsoon).
    reflexivity. }
  rewrite Esecond. cbn [fst snd].
  split; [reflexivity|]. split; [reflexivity|].
  cbn [SecureServer.ddos_protection DDoSProtection.blocked_ips].
  split; [apply lookup_insert_eq|].
  intros a3 endpoint3 cost3 e3 Hday.
  apply (check_blocked _ a3 endpoint3 cost3 e3 now2); [|exact Hday].
  change (SecureServer.getenv_CLIENT_IP
            (SecureServer.mk rl1
               (DDoSProtection.mk
                  (DDoSProtection.younger now2 3600
                     (<[ip := readings e2 (tick e2)]>
                        (DDoSProtection.suspicious_ips d1)))
                  (<[ip := now2]>
                     (DDoSProtection.younger now2 86400
                        (DDoSProtection.blocked_ips d1))))
               (SecureServer.CLIENT_IP s))) with ip.
  apply lookup_insert_eq.
Qed.

Lemma one_refusal_blocks_the_address_witness :
  let empty_bucket := TokenBucket.mk 15 (10 # 60) 0 0 in
  let s :=
    SecureServer.mk
      (RateLimiter.mk None {[ "ip:127.0.0.1:rpm:bucket"%string := empty_bucket ]}
         ∅ ∅)
      DDoSProtection.init None in
  let e := env_at [0; 0; 0; 0; 10] in
  let first := SecureServer.check_rate_limits s anonymous_access "a" 1 e in
  let s1 := snd (fst first) in
  let e1 := snd first in
  let second := SecureServer.check_rate_limits s1 anonymous_access "b" 1 e1 in
  let s2 := snd (fst second) in
  fst (fst second) = Ok false /\
  SecureServer.rate_limiter s2 = SecureServer.rate_limiter s1 /\
  DDoSProtection.blocked_ips (SecureServer.ddos_protection s2)
    !! SecureServer.getenv_CLIENT_IP s
    = Some (readings e1 (tick e1)) /\
  forall (a3 : AuthResult.t) (endpoint3 : string) (cost3 : Q) (e3 : Env),
    readings e3 (tick e3) - readings e1 (tick e1) < 86400 ->
    fst (fst (SecureServer.check_rate_limits s2 a3 endpoint3 cost3 e3))
      = Ok false.
Proof.
  intros empty_bucket s e.
  apply (one_refusal_blocks_the_address s anonymous_access anonymous_access
           "a" "b" 1 1 e).
  - vm_compute. reflexivity.
  - vm_compute. reflexivity.
  - vm_compute. reflexivity.
Defined.

(** ** CostBasedRateLimiter without a store: the budget of a window *)

Section LocalCosts.

Import CostBasedRateLimiter.

Lemma sum_of_from (l : list Q) :
  forall a : Q, List.fold_left Qplus l a == a + sum_of l.
Proof.
  unfold sum_of. induction l as [|x l IH]; intros a; cbn [List.fold_left].
  - ring.
  - rewrite (IH (a + x)), (IH (0 + x)). ring.
Qed.

Lemma spent_cons (en : Q * Q) (l : list (Q * Q)) :
  spent (en :: l) == snd en + spent l.
Proof.
  unfold spent, sum_of. cbn [List.map List.fold_left].
  rewrite sum_of_from. unfold sum_of. ring.
Qed.

Lemma spent_snoc (l : list (Q * Q)) (en : Q * Q) :
  spent (l ++ [en]) == spent l + snd en.
Proof.
  unfold spent, sum_of. rewrite List.map_app, List.fold_left_app.
  reflexivity.
Qed.

Lemma spent_filter (f : Q * Q -> bool) (l : list (Q * Q)) :
  Forall (fun en => 0 <= snd en) l ->
  0 <= spent (List.filter f l) <= spent l.
Proof.
  induction 1 as [|en l Hen Hl IH].
  - cbn. unfold spent, sum_of. cbn. lra.
  - cbn [List.filter]. destruct (f en).
    + rewrite !spent_cons. lra.
    + rewrite spent_cons. lra.
Qed.

Lemma pop_expired_filter (w : list (Q * Q)) (bound : Q) :
  StronglySorted by_time w ->
  pop_expired w bound =
    List.filter (fun en => negb (Qle_bool (fst en) bound)) w.
Proof.
  induction 1 as [|x w Hs IH Hall]; [reflexivity|].
  cbn [pop_expired List.filter].
  destruct (Qle_bool (fst x) bound) eqn:E; cbn [negb]; [exact IH|].
  f_equal. symmetry. apply Qle_bool_false_iff in E.
  clear IH Hs. induction Hall as [|y w Hy Hall IH]; [reflexivity|].
  cbn [List.filter]. unfold by_time in Hy.
  assert (Qle_bool (fst y) bound = false) as ->
    by (apply Qle_bool_false_iff; lra).
  cbn [negb]. f_equal. exact IH.
Qed.

Lemma recent_costs_sorted (seconds : Z) (now : Q) (l : list (Q * Q)) :
  StronglySorted by_time l -> StronglySorted by_time (recent_costs seconds now l).
Proof.
  induction 1 as [|x l Hs IH Hall]; [constructor|].
  unfold recent_costs in *. cbn [List.filter].
  destruct (Qlt_bool _ (fst x)); [|exact IH].
  constructor; [exact IH|].
  apply List.Forall_forall. intros y Hy. apply List.filter_In in Hy as [Hy _].
  rewrite List.Forall_forall in Hall. apply Hall. exact Hy.
Qed.

Lemma recent_costs_again (seconds : Z) (prev now : Q) (l : list (Q * Q)) :
  prev <= now ->
  List.filter (fun en => negb (Qle_bool (fst en) (now - inject_Z seconds)))
    (recent_costs seconds prev l) = recent_costs seconds now l.
Proof.
  intros Hle. unfold recent_costs. induction l as [|x l IH]; [reflexivity|].
  cbn [List.filter].
  destruct (Qlt_bool (now - inject_Z seconds) (fst x)) eqn:En.
  - apply Qlt_bool_iff in En.
    assert (Qlt_bool (prev - inject_Z seconds) (fst x) = true) as ->
      by (apply Qlt_bool_iff; lra).
    cbn [List.filter].
    assert (Qle_bool (fst x) (now - inject_Z seconds) = false) as ->
      by (apply Qle_bool_false_iff; exact En).
    cbn [negb]. f_equal. exact IH.
  - apply Qlt_bool_false_iff in En.
    destruct (Qlt_bool (prev - inject_Z seconds) (fst x)); [|exact IH].
    cbn [List.filter].
    assert (Qle_bool (fst x) (now - inject_Z seconds) = true) as ->
      by (apply Qle_bool_iff; exact En).
    cbn [negb]. exact IH.
Qed.

Lemma by_time_snoc (l : list (Q * Q)) (en : Q * Q) :
  StronglySorted by_time l -> Forall (fun x => fst x <= fst en) l ->
  StronglySorted by_time (l ++ [en]).
Proof.
  induction 1 as [|x l Hs IH Hall]; intros Hle.
  - repeat constructor.
  - inversion Hle as [|? ? Hx Hrest]; subst. cbn [app].
    constructor; [apply IH; exact Hrest|].
    apply List.Forall_app. split; [exact Hall|]. repeat constructor.
    exact Hx.
Qed.

(** One request keeps the list of the key equal to the admissions of
    the trailing window, and within the budget. *)
Lemma local_cost_history (self : t) (key : string) (history : list (Q * Q))
    (cost budget : Q) (seconds : Z) (prev now : Q) :
  (0 < seconds)%Z -> 0 <= cost -> prev <= now ->
  costs_of_history seconds budget (default [] (cost_windows self !! key))
    history prev ->
  let step := _local_cost_limit self key cost budget seconds now in
  costs_of_history seconds budget
    (default [] (cost_windows (snd step) !! key))
    (history
       ++ (if RateLimitResult.allowed (fst step) then [(now, cost)] else []))
    now /\
  redis_client (snd step) = redis_client self.
Proof.
  intros HW Hcost Hnow (Hw & Hsorted & Hall & Hspent) step. subst step.
  unfold _local_cost_limit.
  set (w := default [] (cost_windows self !! key)) in *.
  assert (pop_expired w (now - inject_Z seconds)
          = recent_costs seconds now history) as Hp.
  { rewrite pop_expired_filter
      by (rewrite Hw; apply recent_costs_sorted; exact Hsorted).
    rewrite Hw. apply recent_costs_again. exact Hnow. }
  rewrite Hp. fold (spent (recent_costs seconds now history)).
  assert (Forall (fun en => 0 <= snd en) history) as Hcosts.
  { eapply List.Forall_impl; [|exact Hall]. intros en [_ H]. exact H. }
  assert (Forall (fun en => fst en <= now /\ 0 <= snd en) history) as Hall'.
  { eapply List.Forall_impl; [|exact Hall]. cbn. intros en [H1 H2].
    split; [lra | exact H2]. }
  assert (0 <= spent (recent_costs seconds now history) <= Qmax 0 budget)
    as [Hlo Hhi].
  { split; [apply spent_filter; exact Hcosts|].
    rewrite <- Hp, pop_expired_filter
      by (rewrite Hw; apply recent_costs_sorted; exact Hsorted).
    apply Qle_trans with (spent w); [|exact Hspent].
    apply spent_filter. rewrite Hw. unfold recent_costs.
    apply List.Forall_forall. intros en Hen.
    apply List.filter_In in Hen as [Hen _].
    rewrite List.Forall_forall in Hcosts. apply Hcosts. exact Hen. }
  destruct (Qle_bool _ budget) eqn:Efits;
    cbn [fst snd RateLimitResult.allowed admission refusal
         cost_windows redis_client];
    rewrite lookup_insert_eq; cbn [default option_rect id];
    (split; [|reflexivity]).
  - apply Qle_bool_iff in Efits.
    split.
    { unfold recent_costs. rewrite List.filter_app. cbn [List.filter fst].
      assert (Qlt_bool (now - inject_Z seconds) now = true) as ->;
        [|reflexivity].
      apply Qlt_bool_iff.
      assert (0 < inject_Z seconds)
        by (change 0 with (inject_Z 0); rewrite <- Zlt_Qlt; exact HW).
      lra. }
    split.
    { apply by_time_snoc; [exact Hsorted|].
      eapply List.Forall_impl; [|exact Hall']. cbn. intros en [H _]. exact H. }
    split.
    { apply List.Forall_app. split; [exact Hall'|]. repeat constructor; cbn; lra. }
    rewrite spent_snoc. cbn [snd].
    apply Qle_trans with budget; [exact Efits | apply Q.le_max_r].
  - rewrite app_nil_r. repeat split; assumption.
Qed.

Lemma consume_costs_history (before : CostStore.member -> CostStore.member -> bool)
    (identifier : string) (budget : Q) (seconds : Z) :
  (0 < seconds)%Z ->
  forall (costs : list Q) (self : t) (e : Env) (history : list (Q * Q))
         (prev : Q),
    redis_client self = None ->
    costs_of_history seconds budget
      (default [] (cost_windows self !! ("cost:" +:+ identifier)%string))
      history prev ->
    monotone_clock e -> prev <= readings e (tick e) ->
    Forall (fun c => 0 <= c) costs ->
    let results :=
      fst (fst (consume_costs before costs self identifier budget seconds e)) in
    let times := next_readings (length costs) e in
    spent (recent_costs seconds (List.last times prev)
             (history ++ admitted_costs times costs results))
      <= Qmax 0 budget.
Proof.
  intros HW.
  induction costs as [|cost rest IH];
    intros self e history prev Hr Hinv Hm Hprev Hcosts results times.
  - subst results times. cbn. rewrite app_nil_r.
    destruct Hinv as (Hw & _ & _ & Hspent). rewrite <- Hw. exact Hspent.
  - inversion Hcosts as [|? ? Hc Hrest]; subst.
    subst results times. cbn [consume_costs length].
    rewrite next_readings_S, last_cons.
    unfold consume_cost. rewrite time_time_later, Hr.
    set (now := readings e (tick e)) in *.
    pose proof (local_cost_history self _ history cost budget seconds prev now
                  HW Hc Hprev Hinv) as [Hinv' Hr'].
    cbv zeta in Hinv', Hr'. rewrite Hr in Hr'.
    destruct (_local_cost_limit self ("cost:" +:+ identifier) cost budget
                seconds now) as [res self1].
    cbn [fst snd] in Hinv', Hr'.
    specialize (IH self1 (later 1 e) _ now Hr' Hinv' Hm).
    assert (now <= readings (later 1 e) (tick (later 1 e))) as Hnext
      by (apply Hm; cbn; lia).
    specialize (IH Hnext Hrest). cbv zeta in IH.
    destruct (consume_costs before rest self1 identifier budget seconds
                (later 1 e)) as [[rs self2] e2].
    cbn [fst snd admitted_costs] in *.
    destruct (RateLimitResult.allowed res).
    + rewrite <- List.app_assoc in IH. exact IH.
    + rewrite app_nil_r in IH. exact IH.
Qed.

End LocalCosts.

(** X20. Without a store, for requests of costs that are not negative,
    served for one identifier under one budget and a window of
    positive length, from an empty list, on a clock that does not run
    backwards: after any such requests, the costs of the admitted ones
    whose time lies in the window that ends at the last request sum to
    at most the budget (to 0 when the budget is negative). *)
Theorem local_costs_within_budget
    (before : CostStore.member -> CostStore.member -> bool)
    (self : CostBasedRateLimiter.t) (identifier : string) (budget : Q)
    (window_seconds : Z) (costs : list Q) (e : Env) :
  CostBasedRateLimiter.redis_client self = None ->
  default []
    (CostBasedRateLimiter.cost_windows self !! ("cost:" +:+ identifier)%string)
    = [] ->
  (0 < window_seconds)%Z ->
  monotone_clock e ->
  Forall (fun c => 0 <= c) costs ->
  let results :=
    fst (fst (consume_costs before costs self identifier budget window_seconds
                e)) in
  let times := next_readings (length costs) e in
  spent (recent_costs window_seconds (List.last times 0)
           (admitted_costs times costs results))
    <= Qmax 0 budget.
Proof.
  intros Hr Hfresh HW Hm Hcosts results times.
  destruct costs as [|cost rest].
  { subst results times. cbn. apply Q.le_max_l. }
  pose proof (consume_costs_history before identifier budget window_seconds HW
                (cost :: rest) self e [] (readings e (tick e)) Hr) as H.
  rewrite Hfresh in H.
  assert (costs_of_history window_seconds budget [] []
            (readings e (tick e))) as Hinv.
  { split; [reflexivity|]. split; [constructor|]. split; [constructor|].
    cbn. apply Q.le_max_l. }
  specialize (H Hinv Hm ltac:(lra) Hcosts). cbv zeta in H.
  subst results times. cbn [app] in H.
  cbn [length] in *. rewrite next_readings_S, last_cons in *. exact H.
Qed.

Lemma local_costs_within_budget_witness :
  let costs := [60; 60; 30; 50] in
  let e := env_at [0; 10; 20; 3605] in
  let results :=
    fst (fst (consume_costs (fun _ _ => true) costs
                (CostBasedRateLimiter.init None) "u1" 100 3600 e)) in
  let times := next_readings (length costs) e in
  spent (recent_costs 3600 (List.last times 0)
           (admitted_costs times costs results))
    <= Qmax 0 100.
Proof.
  intros costs e.
  apply (local_costs_within_budget (fun _ _ => true)
           (CostBasedRateLimiter.init None) "u1" 100 3600 costs e).
  - reflexivity.
  - reflexivity.
  - reflexivity.
  - apply scripted_monotone. reflexivity.
  - repeat constructor; discriminate.
Defined.

(** ** CostBasedRateLimiter with a store: what the sorted set keeps *)

Section StoreCosts.

Import CostBasedRateLimiter.

Lemma cost_lookup_put (r : CostStore.t) (key : string) (z : CostStore.zset) :
  CostStore.zsets (CostStore.put r key z) !! key =
    match CostStore.entries z with [] => None | _ :: _ => Some z end.
Proof.
  unfold CostStore.put. destruct (CostStore.entries z); cbn.
  - apply lookup_delete_eq.
  - apply lookup_insert_eq.
Qed.

(** What the store shows of a set whose scores are within bounds. *)
Lemma get_scores_within (top : Q) (r : CostStore.t) (key : string) (now : Q) :
  scores_within top r key ->
  Forall (fun en => 0 <= snd en <= top)
    (CostStore.entries (CostStore.get r key now)).
Proof.
  unfold scores_within, CostStore.get.
  destruct (CostStore.zsets r !! key) as [z|]; [|constructor].
  intros H. destruct (CostStore.live z now); [exact H | constructor].
Qed.

(** ZREMRANGEBYSCORE key 0 hi removes every score between 0 and hi. *)
Lemma range_removes_all (top hi : Q) (l : list (CostStore.member * Q)) :
  top <= hi ->
  Forall (fun en => 0 <= snd en <= top) l ->
  List.filter (fun en => negb (Qle_bool 0 (snd en) && Qle_bool (snd en) hi)) l
    = [].
Proof.
  intros Hhi. induction 1 as [|en l [Hlo Htop] Hl IH]; [reflexivity|].
  cbn [List.filter].
  assert (Qle_bool 0 (snd en) = true) as -> by (apply Qle_bool_iff; exact Hlo).
  assert (Qle_bool (snd en) hi = true) as -> by (apply Qle_bool_iff; lra).
  cbn. exact IH.
Qed.

(** One request at a time [now] with [top <= now - window_seconds]:
    the set is emptied by the score range before the sum is taken. *)
Lemma store_cost_step (before : CostStore.member -> CostStore.member -> bool)
    (r : CostStore.t) (key : string) (cost budget : Q) (seconds : Z)
    (now top : Q) :
  scores_within top r key ->
  top <= now - inject_Z seconds ->
  0 <= cost -> cost <= top -> cost <= budget ->
  let step := _redis_cost_limit before r key cost budget seconds now in
  fst step = admission cost budget 0 seconds now /\
  scores_within top (snd step) key.
Proof.
  intros Hin Htop Hc0 Hctop Hfits step. subst step.
  unfold _redis_cost_limit.
  set (r1 := CostStore.zremrangebyscore r key 0 (now - inject_Z seconds) now).
  assert (CostStore.zsets r1 !! key = None) as Hr1.
  { unfold r1, CostStore.zremrangebyscore.
    rewrite cost_lookup_put. cbn [CostStore.entries].
    rewrite (range_removes_all top) by
      (try exact Htop; apply get_scores_within; exact Hin).
    reflexivity. }
  assert (CostStore.get r1 key now = CostStore.mkz [] None) as Hget.
  { unfold CostStore.get. rewrite Hr1. reflexivity. }
  unfold CostStore.zrange_all. rewrite Hget.
  cbn [CostStore.entries List.fold_right List.map].
  change (sum_of []) with 0.
  assert (Qle_bool (0 + cost) budget = true) as ->
    by (apply Qle_bool_iff; lra).
  cbn [fst snd]. split; [reflexivity|].
  unfold scores_within, CostStore.expire, CostStore.zadd.
  rewrite Hget. cbn [CostStore.entries CostStore.expire_at existsb app].
  match goal with
  | |- context [CostStore.put r1 key ?zz] => set (z := zz)
  end.
  assert (CostStore.get (CostStore.put r1 key z) key now = z) as Hz.
  { unfold CostStore.get. rewrite cost_lookup_put. reflexivity. }
  rewrite Hz. cbn [CostStore.entries z].
  destruct (seconds <=? 0)%Z.
  - cbn [CostStore.zsets]. rewrite lookup_delete_eq. exact I.
  - rewrite cost_lookup_put. cbn [CostStore.entries].
    repeat constructor; cbn; lra.
Qed.

Lemma store_costs_forgotten (before : CostStore.member -> CostStore.member -> bool)
    (identifier : string) (budget : Q) (seconds : Z) (top : Q) :
  forall (costs : list Q) (self : t) (r : CostStore.t) (e : Env),
    redis_client self = Some r ->
    scores_within top r ("cost:" +:+ identifier)%string ->
    Forall (fun c => 0 <= c /\ c <= top /\ c <= budget) costs ->
    (forall i : nat, (i < length costs)%nat ->
                     top <= readings e (tick e + i)%nat - inject_Z seconds) ->
    fst (fst (consume_costs before costs self identifier budget seconds e)) =
      unspent_admissions (next_readings (length costs) e) costs budget seconds.
Proof.
  induction costs as [|cost rest IH]; intros self r e Hr Hin Hcosts Htimes;
    [reflexivity|].
  inversion Hcosts as [|? ? (Hc0 & Hctop & Hfits) Hrest]; subst.
  cbn [consume_costs length]. rewrite next_readings_S.
  unfold consume_cost. rewrite time_time_later, Hr.
  set (now := readings e (tick e)).
  assert (top <= now - inject_Z seconds) as Hnow.
  { specialize (Htimes 0%nat). rewrite Nat.add_0_r in Htimes.
    apply Htimes. cbn. lia. }
  pose proof (store_cost_step before r _ cost budget seconds now top Hin Hnow
                Hc0 Hctop Hfits) as [Hres Hin'].
  cbv zeta in Hres, Hin'.
  destruct (_redis_cost_limit before r ("cost:" +:+ identifier) cost budget
              seconds now) as [res r1].
  cbn [fst snd] in Hres, Hin'. subst res.
  specialize (IH (mk (Some r1) (cost_windows self)) r1 (later 1 e)
                eq_refl Hin' Hrest).
  assert (forall i : nat, (i < length rest)%nat ->
            top <= readings (later 1 e) (tick (later 1 e) + i)%nat
                   - inject_Z seconds) as Htimes'.
  { intros i Hi. cbn [later readings tick].
    replace (tick e + 1 + i)%nat with (tick e + S i)%nat by lia.
    apply Htimes. cbn. lia. }
  specialize (IH Htimes').
  destruct (consume_costs before rest (mk (Some r1) (cost_windows self))
              identifier budget seconds (later 1 e)) as [[rs self2] e2].
  cbn [fst snd unspent_admissions] in *. rewrite IH. reflexivity.
Qed.

End StoreCosts.

(** X21. With a store, the cost limiter scores an entry by its cost
    and removes the scores from 0 to [now - window_seconds] before it
    sums: at every time [now] that is at least [top] seconds past the
    window length, entries of costs between 0 and [top] are all
    removed. So requests of such costs, each within the budget by
    itself, are all admitted, each with the remaining budget of a
    first request, however much was admitted before them. *)
Theorem store_cost_limiter_forgets
    (before : CostStore.member -> CostStore.member -> bool)
    (self : CostBasedRateLimiter.t) (r : CostStore.t) (identifier : string)
    (budget : Q) (window_seconds : Z) (top : Q) (costs : list Q) (e : Env) :
  CostBasedRateLimiter.redis_client self = Some r ->
  scores_within top r ("cost:" +:+ identifier)%string ->
  Forall (fun c => 0 <= c /\ c <= top /\ c <= budget) costs ->
  (forall i : nat, (i < length costs)%nat ->
                   top <= readings e (tick e + i)%nat
                          - inject_Z window_seconds) ->
  let results :=
    fst (fst (consume_costs before costs self identifier budget window_seconds
                e)) in
  results =
    unspent_admissions (next_readings (length costs) e) costs budget
      window_seconds /\
  Forall (fun res => RateLimitResult.allowed res = true) results.
Proof.
  intros Hr Hin Hcosts Htimes results.
  assert (results =
            unspent_admissions (next_readings (length costs) e) costs budget
              window_seconds) as Hres
    by (apply (store_costs_forgotten before identifier budget window_seconds
                 top costs self r e); assumption).
  split; [exact Hres|]. rewrite Hres. clear.
  generalize (next_readings (length costs) e). 
  induction costs as [|c rest IH]; intros [|t times]; cbn; constructor.
  - reflexivity.
  - apply IH.
Qed.

Lemma store_cost_limiter_forgets_witness :
  let self := CostBasedRateLimiter.init (Some CostStore.empty) in
  let costs := [60; 60; 60] in
  let e := env_at [1700000000; 1700000001; 1700000002] in
  let results :=
    fst (fst (consume_costs (fun _ _ => true) costs self "u1" 100 3600 e)) in
  results = unspent_admissions (next_readings (length costs) e) costs 100 3600 /\
  Forall (fun res => RateLimitResult.allowed res = true) results.
Proof.
  intros self costs e.
  apply (store_cost_limiter_forgets (fun _ _ => true) self CostStore.empty "u1"
           100 3600 60 costs e).
  - reflexivity.
  - exact I.
  - repeat constructor; discriminate.
  - intros i Hi. cbn in Hi.
    destruct i as [|[|[|i]]]; [vm_compute; discriminate ..| lia].
Defined.

(** ** Protected calls: the quota, the breaker and the failures *)

Section ProtectedCalls.

Import RateLimiter.

(** The hourly quota of external calls is checked under the default
    rule, that has no burst allowance: the check returns, reads the
    clock once and leaves the breakers; a denial tells a [retry_after]
    of 1 or more. *)
Lemma api_quota_check (self : t) (identifier : string) (cost : Q) (e : Env) :
  exists (res : RateLimitResult.t) (self1 : t),
    is_allowed self identifier API_CALLS_PER_HOUR None cost e
      = (Ok res, self1, later 1 e) /\
    circuit_breakers self1 = circuit_breakers self /\
    (RateLimitResult.allowed res = false ->
     exists retry : Z,
       RateLimitResult.retry_after res = Some retry /\ (1 <= retry)%Z).
Proof.
  unfold is_allowed. cbn [default_rules]. rewrite time_time_later.
  destruct (redis_client self) as [r|].
  - unfold _redis_rate_limit.
    destruct (pipeline r _ _ _ _) as [r1 count].
    destruct (Qle_bool _ _); eexists; eexists;
      (split; [reflexivity|]); (split; [reflexivity|]);
      cbn [RateLimitResult.allowed RateLimitResult.retry_after].
    + discriminate.
    + intros _. eexists. split; [reflexivity | lia].
  - unfold _local_rate_limit, window_rate_limit, sliding_window.
    cbn [RateLimitRule.burst_limit].
    destruct (Qle_bool _ _); eexists; eexists;
      (split; [reflexivity|]); (split; [reflexivity|]);
      cbn [RateLimitResult.allowed RateLimitResult.retry_after].
    + discriminate.
    + intros _. eexists. split; [reflexivity | lia].
Qed.

(** The breaker that [get_circuit_breaker] hands out is the one of the
    dictionary afterwards. *)
Lemma get_circuit_breaker_stored (self : t) (service : string) :
  circuit_breakers (snd (get_circuit_breaker self service)) !! service
    = Some (fst (get_circuit_breaker self service)).
Proof.
  unfold get_circuit_breaker.
  destruct (circuit_breakers self !! service) as [cb|] eqn:E;
    cbn [fst snd circuit_breakers].
  - exact E.
  - apply lookup_insert_eq.
Qed.

End ProtectedCalls.

(** X22. [api_call_with_protection] lets three things out: the value
    that the protected function returned; a failure of the function
    outside the Exception hierarchy, as it is; and, for everything
    else, one of two messages: the rate-limit message with the
    [retry_after] (1 or more) of the refusal, the function then not
    being run, or "External API temporarily unavailable: <service>",
    which stands alike for an open breaker and for any Exception of
    the function. *)
Theorem protected_call_outcomes {W R : Type}
    (self : RateLimiter.t) (service identifier : string)
    (func : W -> Res R * W) (w : W) (e : Env) :
  let out := api_call_with_protection self service identifier func w e in
  match fst (fst (fst out)) with
  | Ok r => fst (func w) = Ok r
  | Raise x =>
      (exists retry : Z,
          x = Exception (rate_limit_message (Some retry)) /\ (1 <= retry)%Z /\
          snd (fst out) = w /\
          RateLimiter.circuit_breakers (snd (fst (fst out)))
            = RateLimiter.circuit_breakers self) \/
      x = Exception (unavailable_message service) \/
      (exists msg : string,
          x = BaseException msg /\ fst (func w) = Raise (BaseException msg))
  end.
Proof.
  intros out. subst out. unfold api_call_with_protection.
  destruct (api_quota_check self identifier 1 e)
    as (res & self1 & -> & Hcb & Hretry).
  destruct (RateLimitResult.allowed res) eqn:Ea; cbn [negb].
  2:{ destruct (Hretry eq_refl) as (retry & -> & Hge).
      cbn [fst snd]. left. exists retry. auto. }
  destruct (RateLimiter.get_circuit_breaker self1 service) as [cb self2].
  unfold CircuitBreaker.call.
  destruct (CircuitBreaker.before_call cb (later 1 e)) as [[cb1|x] e1] eqn:Eb.
  - destruct (func w) as [[r|x] w1]; cbn [fst snd].
    + reflexivity.
    + destruct (CircuitBreaker.expected_exception cb1 x).
      * destruct (CircuitBreaker.on_failure cb1 e1) as [cb2 e2].
        cbn [fst snd]. destruct x; cbn; auto. right. right. eauto.
      * cbn [fst snd]. destruct x; cbn; auto. right. right. eauto.
  - cbn [fst snd].
    assert (CircuitBreaker.is_Exception x = true) as ->.
    { unfold CircuitBreaker.before_call in Eb.
      destruct (CircuitBreaker.state cb); try discriminate Eb.
      rewrite time_time_later in Eb.
      destruct (CircuitBreaker.last_failure_time cb) as [lf|].
      - destruct (Qlt_bool _ _); [discriminate Eb|].
        rewrite time_time_later in Eb. injection Eb as <- _. reflexivity.
      - injection Eb as <- _. reflexivity. }
    cbn [fst snd]. auto.
Qed.

(** X23. The quota is taken before the breaker is asked: when the
    rate limit admits the call and the breaker of the service is OPEN
    with its cooldown not over, [api_call_with_protection] raises the
    unavailability message without running the function, and leaves
    the limiter as the admitted check left it. A call that the open
    breaker refuses has used one call of the identifier's hourly quota
    all the same. *)
Theorem open_breaker_still_uses_quota {W R : Type}
    (self : RateLimiter.t) (service identifier : string)
    (func : W -> Res R * W) (w : W) (e : Env)
    (cb : CircuitBreaker.t) (since : Q) :
  let check :=
    RateLimiter.is_allowed self identifier API_CALLS_PER_HOUR None 1 e in
  let out := api_call_with_protection self service identifier func w e in
  is_admitted (fst (fst check)) = true ->
  RateLimiter.circuit_breakers self !! service = Some cb ->
  CircuitBreaker.state cb = CircuitBreaker.OPEN ->
  CircuitBreaker.last_failure_time cb = Some since ->
  readings e (tick e + 1)%nat - since <= inject_Z (CircuitBreaker.timeout cb) ->
  fst (fst (fst out)) = Raise (Exception (unavailable_message service)) /\
  snd (fst out) = w /\
  snd (fst (fst out)) = snd (fst check).
Proof.
  intros check out Hadm Hcb Hopen Hsince Hcool. subst check out.
  unfold api_call_with_protection.
  destruct (api_quota_check self identifier 1 e)
    as (res & self1 & Echeck & Hcbs & _).
  rewrite Echeck in *. cbn [fst snd is_admitted] in *. rewrite Hadm.
  cbn [negb].
  assert (RateLimiter.circuit_breakers self1 !! service = Some cb) as Hcb1
    by (rewrite Hcbs; exact Hcb).
  unfold RateLimiter.get_circuit_breaker. rewrite Hcb1.
  unfold CircuitBreaker.call, CircuitBreaker.before_call.
  rewrite Hopen, time_time_later, Hsince.
  assert (Qlt_bool (inject_Z (CircuitBreaker.timeout cb))
            (readings (later 1 e) (tick (later 1 e)) - since) = false) as ->.
  { apply Qlt_bool_false_iff. exact Hcool. }
  rewrite time_time_later. cbn [fst snd CircuitBreaker.is_Exception].
  split; [reflexivity|]. split; [reflexivity|].
  unfold set_breaker. rewrite insert_id by exact Hcb1.
  destruct self1; reflexivity.
Qed.

Lemma open_breaker_still_uses_quota_witness :
  let cb :=
    CircuitBreaker.mk 3 300 CircuitBreaker.is_Exception 3 (Some 90)
      CircuitBreaker.OPEN in
  let self := set_breaker (RateLimiter.init None) "github" cb in
  let e := env_at [100; 100; 100] in
  let func := answering (Ok 7%Z) in
  let check :=
    RateLimiter.is_allowed self "user:u1" API_CALLS_PER_HOUR None 1 e in
  let out := api_call_with_protection self "github" "user:u1" func tt e in
  fst (fst (fst out)) = Raise (Exception (unavailable_message "github")) /\
  snd (fst out) = tt /\
  snd (fst (fst out)) = snd (fst check).
Proof.
  intros cb self e func.
  apply (open_breaker_still_uses_quota self "github" "user:u1" func tt e cb 90).
  - reflexivity.
  - vm_compute. reflexivity.
  - reflexivity.
  - reflexivity.
  - vm_compute. discriminate.
Defined.

(** ** AuthManager: which generated keys are refused by their format *)

Section KeyShape.

Import AuthManager.

Lemma split_on_length (sep : ascii) (s : string) :
  length (split_on sep s) = S (occurrences sep s).
Proof.
  induction s as [|c s IH]; [reflexivity|].
  cbn [split_on occurrences]. destruct (Ascii.eqb c sep).
  - cbn [length]. rewrite IH. reflexivity.
  - destruct (split_on sep s) as [|h t]; [discriminate IH|].
    cbn [length] in *. exact IH.
Qed.

Lemma occurrences_app (c : ascii) (s t : string) :
  occurrences c (s +:+ t) = (occurrences c s + occurrences c t)%nat.
Proof.
  induction s as [|c' s IH]; [reflexivity|].
  change (String c' s +:+ t)%string with (String c' (s +:+ t)%string).
  cbn [occurrences]. destruct (Ascii.eqb c' c); rewrite IH; lia.
Qed.

(** A credential that has the shape is not refused for its format. *)
Lemma authenticate_parsed (self : t) (api_key key_id : string)
    (client_ip : option string) (e : Env) :
  parse self api_key = Some key_id ->
  AuthResult.error (result_of (authenticate_api_key self api_key client_ip e))
  <> Some "Invalid API key format"%string.
Proof.
  intros Hp. unfold authenticate_api_key. rewrite Hp.
  destruct (find_key self key_id e) as [[msg|record] e1] eqn:Ef.
  - apply find_key_messages in Ef. destruct Ef as [-> | ->]; discriminate.
  - destruct (verify_cases self api_key key_id client_ip record e1)
      as [[_ Hc] | [(_ & _ & Hc) | [(_ & _ & _ & Hc) | [Hc | Hc]]]];
      try (rewrite Hc; discriminate).
    + destruct Hc as (_ & _ & _ & _ & -> & _). discriminate.
    + destruct Hc as (_ & _ & _ & _ & e2 & _ & _ & Hres & _).
      cbv zeta in Hres. rewrite Hres. discriminate.
Qed.

End KeyShape.

(** X24. A key that [generate_api_key] hands out has 4 segments plus
    one for every "_" in its random key identifier and in its random
    secret, and [authenticate_api_key] refuses it with "Invalid API
    key format", from any address and at any time, exactly when one of
    the two random texts contains a "_". *)
Theorem generated_key_format
    (store : option KeyStore.t) (secret user_id description : string)
    (role : UserRole.t) (key_type : APIKeyType.t)
    (ip_whitelist : option (list string)) (e : Env) :
  let generated :=
    AuthManager.generate_api_key (AuthManager.init store secret) user_id role
      key_type description ip_whitelist e in
  let api_key := fst (fst (fst generated)) in
  let self := snd (fst generated) in
  let extra :=
    (occurrences "_" (drawn_key_id e) + occurrences "_" (drawn_raw_key e))%nat
  in
  length (segments api_key) = (4 + extra)%nat /\
  forall (client_ip : option string) (e' : Env),
    AuthResult.error
      (result_of (AuthManager.authenticate_api_key self api_key client_ip e'))
    = Some "Invalid API key format"%string
    <-> (0 < extra)%nat.
Proof.
  intros generated api_key self extra.
  assert (api_key =
            ("gojjo_mcp" +:+ "_" +:+ drawn_key_id e +:+ "_"
             +:+ drawn_raw_key e)%string /\
          AuthManager.api_key_prefix self = "gojjo_mcp"%string)
    as [Hkey Hprefix].
  { subst api_key self generated.
    unfold AuthManager.generate_api_key, drawn_key_id, drawn_raw_key.
    destruct (Secrets.token_urlsafe 16 e) as [key_id e1]. cbn [fst snd].
    destruct (Secrets.token_urlsafe 32 e1) as [raw_key e2]. cbn [fst snd].
    destruct (AuthManager.expiry key_type e2) as [expires_at e3].
    destruct (time_time e3) as [created_at e4].
    cbn [AuthManager.init AuthManager.redis_client AuthManager.api_key_prefix
         fst snd].
    destruct store as [r|].
    - destruct (KeyStore.setex r _ _ _ e4) as [r1 e5]. split; reflexivity.
    - split; reflexivity. }
  clearbody api_key self generated.
  set (key_id := drawn_key_id e) in *.
  set (raw_key := drawn_raw_key e) in *.
  clearbody key_id raw_key.
  assert (length (segments api_key) = (4 + extra)%nat) as Hlen.
  { unfold segments. rewrite split_on_length, Hkey.
    rewrite !occurrences_app. subst extra.
    change (occurrences "_" "gojjo_mcp") with 1%nat.
    change (occurrences "_" "_") with 1%nat. lia. }
  split; [exact Hlen|]. intros client_ip e'.
  assert (has_prefix self api_key = true) as Hp.
  { unfold has_prefix. rewrite Hprefix, Hkey.
    change ("gojjo_mcp" +:+ "_" +:+ key_id +:+ "_" +:+ raw_key)%string
      with ("gojjo_mcp_" +:+ (key_id +:+ "_" +:+ raw_key))%string.
    generalize (key_id +:+ "_" +:+ raw_key)%string. intros rest.
    change ("gojjo_mcp" +:+ "_")%string with "gojjo_mcp_"%string.
    destruct rest; reflexivity. }
  split.
  - intros Herr. destruct extra as [|n]; [|lia]. exfalso.
    revert Herr.
    apply (authenticate_parsed self api_key
             (List.nth 2 (segments api_key) EmptyString)).
    apply parse_well_formed; [exact Hp | exact Hlen].
  - intros Hextra.
    rewrite (authenticate_malformed self api_key client_ip e')
      by (right; lia).
    reflexivity.
Qed.

(** ** AuthManager: how long the store keeps a key *)

Section KeyLifetime.

Import AuthManager.

Lemma split_on_no_sep (sep : ascii) (s : string) :
  occurrences sep s = 0%nat -> split_on sep s = [s].
Proof.
  induction s as [|c s IH]; [reflexivity|].
  cbn [occurrences split_on]. destruct (Ascii.eqb c sep); [discriminate|].
  intros H. rewrite (IH H). reflexivity.
Qed.

Lemma split_on_app (sep : ascii) (s t : string) :
  occurrences sep s = 0%nat ->
  split_on sep (s +:+ String sep t) = s :: split_on sep t.
Proof.
  induction s as [|c s IH].
  - intros _. change (EmptyString +:+ String sep t)%string with (String sep t).
    cbn [split_on]. rewrite Ascii.eqb_refl. reflexivity.
  - change (String c s +:+ String sep t)%string
      with (String c (s +:+ String sep t)%string).
    cbn [occurrences split_on]. destruct (Ascii.eqb c sep); [discriminate|].
    intros H. rewrite (IH H). reflexivity.
Qed.

(** The segments of a credential whose random texts have no "_". *)
Lemma segments_of_key (key_id raw_key : string) :
  occurrences "_" key_id = 0%nat -> occurrences "_" raw_key = 0%nat ->
  segments ("gojjo_mcp" +:+ "_" +:+ key_id +:+ "_" +:+ raw_key)
    = ["gojjo"; "mcp"; key_id; raw_key]%string.
Proof.
  intros Hk Hr. unfold segments.
  change ("gojjo_mcp" +:+ "_" +:+ key_id +:+ "_" +:+ raw_key)%string
    with ("gojjo" +:+ String "_" ("mcp" +:+ String "_"
            (key_id +:+ String "_" raw_key)))%string.
  rewrite split_on_app by reflexivity.
  rewrite split_on_app by reflexivity.
  rewrite split_on_app by exact Hk.
  rewrite split_on_no_sep by exact Hr. reflexivity.
Qed.

End KeyLifetime.

(** X25. The store keeps a record for 365 days from the write, also
    the record of a PERMANENT key, which has no expiry date: a
    PERMANENT key that parses (no "_" in its random texts), presented
    for the first time more than 31536000 s after [generate_api_key]
    stored it, is refused with "API key not found" by the manager that
    generated it. *)
Theorem permanent_key_is_dropped_after_a_year
    (store : KeyStore.t) (secret user_id description : string)
    (role : UserRole.t) (ip_whitelist : option (list string))
    (client_ip : option string) (e e' : Env) :
  let generated :=
    AuthManager.generate_api_key (AuthManager.init (Some store) secret)
      user_id role APIKeyType.PERMANENT description ip_whitelist e in
  let api_key := fst (fst (fst generated)) in
  let record := snd (fst (fst generated)) in
  let self := snd (fst generated) in
  let stored_at := readings e (tick e + 1)%nat in
  occurrences "_" (drawn_key_id e) = 0%nat ->
  occurrences "_" (drawn_raw_key e) = 0%nat ->
  stored_at + 31536000 < readings e' (tick e') ->
  APIKey.expires_at record = None /\
  AuthManager.authenticate_api_key self api_key client_ip e' =
    (AuthResult.failure "API key not found", self, [], later 1 e').
Proof.
  intros generated api_key record self stored_at.
  subst api_key record self generated stored_at.
  unfold AuthManager.generate_api_key, drawn_key_id, drawn_raw_key.
  unfold Secrets.token_urlsafe, Secrets.token_bytes.
  cbn [fst snd AuthManager.expiry AuthManager.init AuthManager.redis_client
       AuthManager.api_key_prefix].
  set (key_id := Secrets.urlsafe_b64encode _).
  set (raw_key := Secrets.urlsafe_b64encode _).
  rewrite time_time_later. unfold KeyStore.setex. rewrite time_time_later.
  cbn [fst snd later readings tick APIKey.expires_at].
  intros Hk Hr Hlate. split; [reflexivity|].
  set (record := APIKey.mk key_id _ _ _ _ _ _ _ _ _ _ _).
  set (self := AuthManager.set_redis _ _).
  unfold AuthManager.authenticate_api_key.
  assert (AuthManager.parse self
            ("gojjo_mcp" +:+ "_" +:+ key_id +:+ "_" +:+ raw_key)
          = Some key_id) as ->.
  { rewrite parse_well_formed.
    - rewrite (segments_of_key key_id raw_key Hk Hr). reflexivity.
    - unfold has_prefix. cbn.
      destruct (key_id +:+ "_" +:+ raw_key)%string; reflexivity.
    - rewrite (segments_of_key key_id raw_key Hk Hr). reflexivity. }
  unfold AuthManager.find_key.
  cbn [AuthManager.key_cache self AuthManager.set_redis AuthManager.init
       AuthManager.redis_client].
  rewrite lookup_empty. unfold KeyStore.get. rewrite time_time_later.
  cbn [KeyStore.records]. rewrite lookup_insert_eq.
  assert (Qlt_bool (readings e (tick e + 1)%nat + inject_Z (86400 * 365))
            (readings e' (tick e')) = true) as ->.
  { apply Qlt_bool_iff. change (inject_Z (86400 * 365)) with 31536000.
    exact Hlate. }
  reflexivity.
Qed.

Lemma permanent_key_is_dropped_after_a_year_witness :
  let e := env_with 1000 [] in
  let e' := env_with 31537001 [] in
  let generated :=
    AuthManager.generate_api_key (AuthManager.init (Some KeyStore.empty) "s")
      "admin" UserRole.ADMIN APIKeyType.PERMANENT "" None e in
  let api_key := fst (fst (fst generated)) in
  let record := snd (fst (fst generated)) in
  let self := snd (fst generated) in
  APIKey.expires_at record = None /\
  AuthManager.authenticate_api_key self api_key None e' =
    (AuthResult.failure "API key not found", self, [], later 1 e').
Proof.
  intros e e'.
  apply (permanent_key_is_dropped_after_a_year KeyStore.empty "s" "admin" ""
           UserRole.ADMIN None None e e').
  - vm_compute. reflexivity.
  - vm_compute. reflexivity.
  - vm_compute. reflexivity.
Defined.

(** ** RateLimiter with a store: the limit of a window *)

Section StoreWindowLimit.

Import RateLimiter.

(** The admitted times are read off the verdicts. *)
Lemma admitted_times_verdicts (rs rs' : list (Res RateLimitResult.t)) :
  List.map verdict rs = List.map verdict rs' ->
  forall times : list Q, admitted_times times rs = admitted_times times rs'.
Proof.
  revert rs'. induction rs as [|r rs IH]; intros [|r' rs'] H times;
    try discriminate H.
  - reflexivity.
  - cbn [List.map] in H. injection H as Hv Hrest.
    destruct times as [|t times]; [reflexivity|].
    cbn [admitted_times]. rewrite (IH rs' Hrest times).
    assert (is_admitted r = is_admitted r') as ->; [|reflexivity].
    destruct r as [res|x], r' as [res'|x']; cbn in Hv |- *;
      try discriminate Hv; [|reflexivity].
    injection Hv as -> _ _. reflexivity.
Qed.

End StoreWindowLimit.

(** X26. With a store, for a rule without burst allowance and with
    [cost_per_request] 1, a window of positive length and requests of
    cost 1 or more, served for one key from an empty store at times
    that are not negative and do not decrease, under pairwise distinct
    request ids: the admitted requests whose time lies in the window
    that ends at the last request number at most [limit]. *)
Theorem store_window_admits_at_most_limit
    (identifier : string) (ty : RateLimitType) (rule : RateLimitRule.t)
    (reqs : list request) (e : Env) :
  RateLimitRule.has_burst rule = false ->
  RateLimitRule.cost_per_request rule == 1 ->
  (0 < RateLimitRule.window_seconds rule)%Z ->
  monotone_clock e ->
  0 <= readings e (tick e) ->
  distinct_members (request_ids reqs e) = true ->
  Forall (fun q => 1 <= req_cost q) reqs ->
  let results :=
    fst (fst (serve reqs (RateLimiter.init (Some Redis.empty)) identifier ty
                (Some rule) e)) in
  let times := next_readings (length reqs) e in
  (Z.of_nat
     (length (recent (RateLimitRule.window_seconds rule)
                (List.last times 0%Q) (admitted_times times results)))
   <= Z.max 0 (RateLimitRule.limit rule))%Z.
Proof.
  intros Hb Hcpr HW Hm Hnow Hdist Hcosts results times.
  assert (List.map verdict results =
          List.map verdict
            (fst (fst (serve reqs (RateLimiter.init None) identifier ty
                         (Some rule) e)))) as Hsame.
  { apply (serve_agrees identifier ty rule Hb Hcpr reqs
             (RateLimiter.init None) (RateLimiter.init (Some Redis.empty))
             Redis.empty (readings e (tick e)) [] e);
      try reflexivity; try assumption.
    - split; [constructor|]. split; [constructor|]. right. reflexivity.
    - lra.
    - apply List.Forall_forall. intros m _ u []. }
  rewrite (admitted_times_verdicts _ _ Hsame times).
  destruct reqs as [|q rest]; [subst times; cbn; lia|].
  pose proof (serve_history identifier ty rule Hb HW (q :: rest)
                (RateLimiter.init None) e [] (readings e (tick e)) eq_refl)
    as H.
  assert (default []
            (RateLimiter.local_windows (RateLimiter.init None)
               !! key_of identifier ty) = []) as Hfresh.
  { unfold RateLimiter.init. cbn [RateLimiter.local_windows].
    rewrite lookup_empty. reflexivity. }
  rewrite Hfresh in H.
  assert (window_of_history (RateLimitRule.window_seconds rule)
            (RateLimitRule.limit rule) [] [] (readings e (tick e)))
    as Hinv.
  { split; [reflexivity|]. split; [constructor|]. split; [constructor|].
    cbn. lia. }
  specialize (H Hinv Hm ltac:(lra) Hcosts). cbv zeta in H.
  subst times. cbn [app] in H.
  cbn [length] in *. rewrite next_readings_S, last_cons in *. exact H.
Qed.

Lemma store_window_admits_at_most_limit_witness :
  let reqs := [mkreq 1 1; mkreq 2 1; mkreq 3 1; mkreq 4 2; mkreq 5 1] in
  let e := env_at [0; 10; 20; 65; 70] in
  let results :=
    fst (fst (serve reqs (RateLimiter.init (Some Redis.empty)) "client"
                REQUESTS_PER_MINUTE (Some (RateLimitRule.plain 2 60)) e)) in
  let times := next_readings (length reqs) e in
  (Z.of_nat (length (recent 60 (List.last times 0%Q)
                       (admitted_times times results)))
   <= Z.max 0 2)%Z.
Proof.
  intros reqs e.
  apply (store_window_admits_at_most_limit "client" REQUESTS_PER_MINUTE
           (RateLimitRule.plain 2 60) reqs e).
  - reflexivity.
  - reflexivity.
  - reflexivity.
  - apply scripted_monotone. reflexivity.
  - vm_compute. discriminate.
  - reflexivity.
  - repeat constructor; vm_compute; discriminate.
Defined.
